(** * Segment refinement engine of NEMESYS (nemere/inference/formatRefinement.py)

    A shallow embedding of the refinement passes (char-run merge, split
    relocation, frequency-guided resplit, common-value cropping, cumulative
    char-run merge, fixed-length split) together with the properties stated
    about them.

    Conventions.  Python [int] is [Z]; [bytes] is [list byte]; a Python list is
    a Rocq list in the same order (index 0 is the head), so [l.append(x)] is
    [l ++ [x]] and [l.pop()] removes the last element.  Code that can raise
    returns a [Py.result]. *)

From Stdlib Require Import ZArith List Bool Lia Arith Sorted.
From Stdlib Require Import Strings.Byte.
From Stdlib Require String Ascii.
Import ListNotations.
Open Scope Z_scope.

(* ================================================================== *)
(** * Part I: the program                                              *)
(* ================================================================== *)

(** ** Python primitives used by the module *)

Module Py.

Inductive exn : Type :=
| IndexError | TypeError | ValueError | AssertionError.

(** The outcome of a call: a value, an exception, or [OutOfFuel] when a
    [while] loop of the model was cut off by its iteration budget.  No
    method returns [OutOfFuel]: see [Resplit2_split_fuel],
    [RelocateSplits_split_fuel] and [CumulativeCharMerger_merge_fuel] in
    Part II. *)
Inductive result (A : Type) : Type :=
| Ok (a : A)
| Raise (e : exn)
| OutOfFuel.
Arguments Ok {A} a.
Arguments Raise {A} e.
Arguments OutOfFuel {A}.

Definition bind {A B : Type} (m : result A) (k : A -> result B) : result B :=
  match m with
  | Ok a => k a
  | Raise e => Raise e
  | OutOfFuel => OutOfFuel
  end.

(** [for x in xs: acc = body(acc, x)], stopping at the first exception. *)
Fixpoint for_each {A X : Type} (body : A -> X -> result A) (xs : list X)
  (acc : A) : result A :=
  match xs with
  | [] => Ok acc
  | x :: rest => bind (body acc x) (for_each body rest)
  end.

(** [while stack(s): s = body(s)] with an iteration budget. *)
Fixpoint while_nonempty {S X : Type} (fuel : nat) (stack : S -> list X)
  (body : S -> result S) (s : S) : result S :=
  match stack s with
  | [] => Ok s
  | _ :: _ =>
      match fuel with
      | O => OutOfFuel
      | Datatypes.S fuel' =>
          bind (body s) (while_nonempty fuel' stack body)
      end
  end.

(** [len(l)] *)
Definition len {A : Type} (l : list A) : Z := Z.of_nat (Datatypes.length l).

(** [l[i]], negative [i] counting from the end. *)
Definition index {A : Type} (l : list A) (i : Z) : result A :=
  let j := if i <? 0 then i + len l else i in
  if j <? 0 then Raise IndexError
  else match nth_error l (Z.to_nat j) with
       | Some x => Ok x
       | None => Raise IndexError
       end.

(** How a slice bound is brought into [0 .. n]. *)
Definition clamp (n i : Z) : Z :=
  if i <? 0 then Z.max 0 (i + n) else Z.min i n.

(** [l[lo:hi]]; [None] is an omitted bound. *)
Definition slice {A : Type} (l : list A) (lo hi : option Z) : list A :=
  let n := len l in
  let a := match lo with None => 0 | Some i => clamp n i end in
  let b := match hi with None => n | Some i => clamp n i end in
  firstn (Z.to_nat (b - a)) (skipn (Z.to_nat a) l).

(** [l.pop()]: the list without its last element, and that element. *)
Definition pop {A : Type} (l : list A) : result (list A * A) :=
  match rev l with
  | [] => Raise IndexError
  | x :: r => Ok (rev r, x)
  end.

(** [l[-1] = v] *)
Definition set_last {A : Type} (l : list A) (v : A) : result (list A) :=
  match rev l with
  | [] => Raise IndexError
  | _ :: r => Ok (rev r ++ [v])
  end.

(** [del l[-1]] *)
Definition del_last {A : Type} (l : list A) : result (list A) :=
  match rev l with
  | [] => Raise IndexError
  | _ :: r => Ok (rev r)
  end.

(** [range(start, stop, step)] *)
Definition range (start stop step : Z) : result (list Z) :=
  if step =? 0 then Raise ValueError
  else
    let n := if 0 <? step
             then (stop - start + step - 1) / step
             else (start - stop - step - 1) / (- step) in
    Ok (map (fun k => start + Z.of_nat k * step) (seq 0 (Z.to_nat n))).

(** [sum(l)] over integers *)
Definition sum (l : list Z) : Z := fold_left Z.add l 0.

(** The values that meet in the comparisons of [isPrintableChar]: an [int]
    on the left, [str] literals on the right. *)
Inductive value : Type :=
| VInt (z : Z)
| VStr (s : String.string).

(** [a == b]: values of different types are never equal. *)
Definition eqb (a b : value) : bool :=
  match a, b with
  | VInt x, VInt y => x =? y
  | VStr s, VStr t => String.eqb s t
  | _, _ => false
  end.

(** [x in l] for a list [l] *)
Definition contains (x : value) (l : list value) : bool :=
  existsb (eqb x) l.

End Py.

Notation "x <- m ;; k" := (Py.bind m (fun x => k))
  (at level 61, m at next level, right associativity).
Notation "' pat <- m ;; k" := (Py.bind m (fun x => match x with pat => k end))
  (at level 61, pat pattern, m at next level, right associativity).

Import Py (Ok, Raise, OutOfFuel, IndexError, TypeError, ValueError, AssertionError).

(** [bytes] *)
Definition bytes : Type := list byte.

(** Iterating over [bytes] yields ints in [0 .. 255]. *)
Definition int_of_byte (b : byte) : Z := Z.of_N (Byte.to_N b).

(** [a == b] on byte strings *)
Definition bytes_eqb (a b : bytes) : bool :=
  if list_eq_dec Byte.byte_eq_dec a b then true else false.

(** ** Message and segment model *)

(** Modelled from the spec: the message class is not part of the sources; a
    message is an immutable byte buffer [data]. *)
Record RawMessage : Type := mkMessage { data : bytes }.

(** Modelled from the spec: the analyzer class is not part of the sources; it
    is an opaque context that carries the message it belongs to. *)
Record MessageAnalyzer : Type :=
  mkAnalyzer { ana_message : RawMessage; ana_context : nat }.

(** Modelled from the spec: class [MessageSegment] of nemere/inference/segments.py
    is not part of the sources.  A segment is a view (analyzer, offset, length)
    with [nextOffset = offset + length] and
    [bytes = message.data[offset:nextOffset]]. *)
Record MessageSegment : Type :=
  mkSegment { analyzer : MessageAnalyzer; offset : Z; length : Z }.

Definition message (seg : MessageSegment) : RawMessage :=
  ana_message (analyzer seg).

Definition nextOffset (seg : MessageSegment) : Z := offset seg + length seg.

Definition seg_bytes (seg : MessageSegment) : bytes :=
  Py.slice (data (message seg)) (Some (offset seg)) (Some (nextOffset seg)).

(** [b''.join([s.bytes for s in segments])] *)
Definition join_bytes (segments : list MessageSegment) : bytes :=
  concat (map seg_bytes segments).

(** The invariants of the data model. *)
Definition seg_valid (seg : MessageSegment) : Prop :=
  0 <= offset seg /\ 0 < length seg /\
  nextOffset seg <= Py.len (data (message seg)).

(** ** Byte classifiers *)

(** The string literals ['\t'], ['\n'] and ['\r']. *)
Definition str_tab : String.string :=
  String.String (Ascii.ascii_of_nat 9) String.EmptyString.
Definition str_lf : String.string :=
  String.String (Ascii.ascii_of_nat 10) String.EmptyString.
Definition str_cr : String.string :=
  String.String (Ascii.ascii_of_nat 13) String.EmptyString.

(** [isPrintableChar(char: int)]: the range test, or membership of the int in
    a list of three one-character strings. *)
Definition isPrintableChar (char : Z) : bool :=
  ((0x20 <=? char) && (char <=? 0x7e))
  || Py.contains (Py.VInt char) [Py.VStr str_tab; Py.VStr str_lf; Py.VStr str_cr].

(** [isPrintable(bstring)]: the loop returns [False] at the first byte that is
    not printable. *)
Fixpoint isPrintable (bstring : bytes) : bool :=
  match bstring with
  | [] => true
  | bchar :: rest =>
      if isPrintableChar (int_of_byte bchar) then isPrintable rest else false
  end.

(** [bstring.startswith(sub)] *)
Fixpoint starts_with (sub bstring : bytes) : bool :=
  match sub, bstring with
  | [], _ => true
  | _ :: _, [] => false
  | c :: sub', b :: bstring' => Byte.eqb c b && starts_with sub' bstring'
  end.

(** The search of [find], with [bstring] the part of the byte string from
    position [i] on. *)
Fixpoint find_from (i : Z) (bstring sub : bytes) : Z :=
  if starts_with sub bstring then i
  else match bstring with
       | [] => -1
       | _ :: rest => find_from (i + 1) rest sub
       end.

(** [bstring.find(sub)]: the lowest index at which [sub] occurs, or -1. *)
Definition find (bstring sub : bytes) : Z := find_from 0 bstring sub.

(** ** Merge engine *)

Module Merger.
Section Merger.

(** The abstract static method [condition(segl, segr)]. *)
Variable condition : MessageSegment -> MessageSegment -> bool.

(** Body of the loop over [zip(segments[:-1], segments[1:])]. *)
Definition merge_body (mergedSegments : list MessageSegment)
  (pair : MessageSegment * MessageSegment)
  : Py.result (list MessageSegment) :=
  let '(segl, segr) := pair in
  if (offset segl + length segl =? offset segr) && condition segl segr
  then
    m <- Py.index mergedSegments (-1) ;;
    Py.set_last mergedSegments
      (mkSegment (analyzer m) (offset m) (length m + length segr))
  else Ok (mergedSegments ++ [segr]).

Definition merge (segments : list MessageSegment)
  : Py.result (list MessageSegment) :=
  let mergedSegments := Py.slice segments (Some 0) (Some 1) in
  if 1 <? Py.len segments
  then Py.for_each merge_body
         (combine (Py.slice segments None (Some (-1)))
                  (Py.slice segments (Some 1) None))
         mergedSegments
  else Ok mergedSegments.

End Merger.
End Merger.

Module MergeConsecutiveChars.

Definition condition (segl segr : MessageSegment) : bool :=
  isPrintable (seg_bytes segl) && isPrintable (seg_bytes segr).

Definition merge := Merger.merge condition.

End MergeConsecutiveChars.

(** ** Split-relocation engine *)

Module RelocateSplits.
Section RelocateSplits.

(** The abstract static methods [toTheLeft(segl)] and [toTheRight(segr)]. *)
Variable toTheLeft : MessageSegment -> Z.
Variable toTheRight : MessageSegment -> Z.

(** The two lists the loop works on. *)
Record state : Type :=
  mkState { segmentStack : list MessageSegment;
            mangledSegments : list MessageSegment }.

(** "integrate segment to the left into center": the new [mangledSegments]
    and the new [segc]. *)
Definition integrate_left (mangled : list MessageSegment)
  (segc : MessageSegment)
  : Py.result (list MessageSegment * MessageSegment) :=
  match mangled with
  | [] => Ok (mangled, segc)
  | _ :: _ =>
      segl <- Py.index mangled (-1) ;;
      if offset segl + length segl =? offset segc then
        let splitpos := toTheLeft segl in
        if splitpos <? length segl then
          mangled' <-
            (if 0 <? splitpos
             then m <- Py.index mangled (-1) ;;
                  Py.set_last mangled
                    (mkSegment (analyzer m) (offset m) splitpos)
             else Py.del_last mangled) ;;
          let restlen := length segl - splitpos in
          Ok (mangled',
              mkSegment (analyzer segc) (offset segc - restlen)
                        (length segc + restlen))
        else Ok (mangled, segc)
      else Ok (mangled, segc)
  end.

(** "integrate segment to the right into center": the new [segmentStack]
    and the new [segc]. *)
Definition integrate_right (stack : list MessageSegment)
  (segc : MessageSegment)
  : Py.result (list MessageSegment * MessageSegment) :=
  match stack with
  | [] => Ok (stack, segc)
  | _ :: _ =>
      segr <- Py.index stack (-1) ;;
      if offset segc + length segc =? offset segr then
        let splitpos := toTheRight segr in
        if 0 <? splitpos then
          stack' <-
            (if 0 <? length segr - splitpos
             then Py.set_last stack
                    (mkSegment (analyzer segr) (offset segr + splitpos)
                               (length segr - splitpos))
             else Py.del_last stack) ;;
          Ok (stack',
              mkSegment (analyzer segc) (offset segc)
                        (length segc + splitpos))
        else Ok (stack, segc)
      else Ok (stack, segc)
  end.

(** One iteration of [while segmentStack:]. *)
Definition split_body (s : state) : Py.result state :=
  ' (stack, segc) <- Py.pop (segmentStack s) ;;
  if negb (isPrintable (seg_bytes segc))
  then Ok (mkState stack (mangledSegments s ++ [segc]))
  else
    ' (mangled, segc) <- integrate_left (mangledSegments s) segc ;;
    ' (stack, segc) <- integrate_right stack segc ;;
    Ok (mkState stack (mangled ++ [segc])).

Definition split (segments : list MessageSegment)
  : Py.result (list MessageSegment) :=
  let s := mkState (rev segments) [] in
  if 1 <? Py.len segments
  then s' <- Py.while_nonempty (Datatypes.length segments)
               segmentStack split_body s ;;
       Ok (mangledSegments s')
  else Ok (mangledSegments s).

End RelocateSplits.
End RelocateSplits.

Module ResplitConsecutiveChars.

(** [for char in ...: if isPrintableChar(char): splitpos -= 1 else: break] *)
Fixpoint toTheLeft_loop (chars : bytes) (splitpos : Z) : Z :=
  match chars with
  | [] => splitpos
  | char :: rest =>
      if isPrintableChar (int_of_byte char)
      then toTheLeft_loop rest (splitpos - 1)
      else splitpos
  end.

Definition toTheLeft (segl : MessageSegment) : Z :=
  toTheLeft_loop (rev (seg_bytes segl)) (length segl).

Fixpoint toTheRight_loop (chars : bytes) (splitpos : Z) : Z :=
  match chars with
  | [] => splitpos
  | char :: rest =>
      if isPrintableChar (int_of_byte char)
      then toTheRight_loop rest (splitpos + 1)
      else splitpos
  end.

Definition toTheRight (segr : MessageSegment) : Z :=
  toTheRight_loop (seg_bytes segr) 0.

Definition split := RelocateSplits.split toTheLeft toTheRight.

End ResplitConsecutiveChars.

(** ** [collections.Counter] over byte strings

    The entries are kept in insertion order, which is the order
    [most_common] falls back to among equal counts. *)

Module Counter.

Definition t : Type := list (bytes * Z).

(** [c[k] += 1] *)
Fixpoint add (c : t) (k : bytes) : t :=
  match c with
  | [] => [(k, 1)]
  | (k', n) :: rest =>
      if bytes_eqb k' k then (k', n + 1) :: rest else (k', n) :: add rest k
  end.

(** [c.update(ks)] *)
Definition update (c : t) (ks : list bytes) : t := fold_left add ks c.

(** [Counter(ks)] *)
Definition of_list (ks : list bytes) : t := update [] ks.

(** [c[k]]: 0 for a missing key. *)
Fixpoint get (c : t) (k : bytes) : Z :=
  match c with
  | [] => 0
  | (k', n) :: rest => if bytes_eqb k' k then n else get rest k
  end.

(** Stable insertion by descending count: [e] goes before the first entry
    whose count is not larger than its own. *)
Fixpoint insert (e : bytes * Z) (l : t) : t :=
  match l with
  | [] => [e]
  | x :: rest => if snd x <=? snd e then e :: l else x :: insert e rest
  end.

(** [c.most_common()]: [sorted(items, key=count, reverse=True)], stable. *)
Definition most_common (c : t) : t := fold_right insert [] c.

End Counter.

(** ** Corpus frequency model and frequency-guided resplit *)

Module Resplit2LeastFrequentPair.

(** [__CHUNKLEN] *)
Definition CHUNKLEN : Z := 2.

(** The three windows at a boundary: across, before, after. *)
Definition windows (msgbytes : bytes) (boundary : Z) : bytes * bytes * bytes :=
  let clh := CHUNKLEN / 2 in
  (Py.slice msgbytes (Some (boundary - clh)) (Some (boundary + clh)),
   Py.slice msgbytes (Some (boundary - CHUNKLEN)) (Some boundary),
   Py.slice msgbytes (Some boundary) (Some (boundary + CHUNKLEN))).

(** The [assert] on the three window lengths. *)
Definition windows_ok (w : bytes * bytes * bytes) : bool :=
  let '(across, before, after) := w in
  (Py.len across =? CHUNKLEN) && (Py.len before =? CHUNKLEN)
  && (Py.len after =? CHUNKLEN).

(** Body of [for fieldboundary in offsets]. *)
Definition count_boundary (msgbytes : bytes) (freq : Counter.t)
  (fieldboundary : Z) : Py.result Counter.t :=
  let msglen := Py.len msgbytes in
  if (fieldboundary =? 0) || (fieldboundary =? msglen) then Ok freq
  else if (fieldboundary <? CHUNKLEN) || (msglen <? fieldboundary + CHUNKLEN)
  then Ok freq
  else
    let '(across, before, after) := windows msgbytes fieldboundary in
    if windows_ok (across, before, after)
    then Ok (Counter.update freq [across; before; after])
    else Raise AssertionError.

(** Body of [for segsList in allMsgsSegs]. *)
Definition count_message (freq : Counter.t) (segsList : list MessageSegment)
  : Py.result Counter.t :=
  let offsets := map offset segsList in
  seg0 <- Py.index segsList 0 ;;
  let msgbytes := data (message seg0) in
  Py.for_each (count_boundary msgbytes) offsets freq.

(** [countPairFrequencies(allMsgsSegs)]: the value it stores in the class
    attribute [__pairFrequencies]. *)
Definition countPairFrequencies (allMsgsSegs : list (list MessageSegment))
  : Py.result Counter.t :=
  Py.for_each count_message allMsgsSegs [].

(** [__pairFrequencies[key]]: the attribute is [None] until
    [countPairFrequencies] has run, and [None] cannot be subscripted. *)
Definition lookup (pairFrequencies : option Counter.t) (key : bytes)
  : Py.result Z :=
  match pairFrequencies with
  | None => Raise TypeError
  | Some c => Ok (Counter.get c key)
  end.

(** [lookupLeastFrequent(seg)].  When none of the three final tests holds
    the Python function falls off its end and returns [None], on which the
    caller's comparison raises [TypeError]. *)
Definition lookupLeastFrequent (pairFrequencies : option Counter.t)
  (seg : MessageSegment) : Py.result Z :=
  if offset seg =? 0 then Ok 0
  else if (offset seg <? CHUNKLEN)
          || (Py.len (data (message seg)) <? offset seg + CHUNKLEN)
  then Ok 0
  else
    let msgbytes := data (message seg) in
    let '(across, before, after) := windows msgbytes (offset seg) in
    if windows_ok (across, before, after) then
      countAcross <- lookup pairFrequencies across ;;
      countBefore <- lookup pairFrequencies before ;;
      countAfter <- lookup pairFrequencies after ;;
      let countMin := Z.min (Z.min countAcross countBefore) countAfter in
      if countMin =? countAcross then Ok 0
      else if countMin =? countBefore then Ok (-1)
      else if countMin =? countAfter then Ok 1
      else Raise TypeError
    else Raise AssertionError.

Record state : Type :=
  mkState { segmentStack : list MessageSegment;
            mangledSegments : list MessageSegment }.

(** One iteration of [while segmentStack:]. *)
Definition split_body (pairFrequencies : option Counter.t) (s : state)
  : Py.result state :=
  ' (stack, segc) <- Py.pop (segmentStack s) ;;
  let mangled := mangledSegments s in
  segl <- Py.index mangled (-1) ;;
  if offset segl + length segl =? offset segc then
    splitshift <- lookupLeastFrequent pairFrequencies segc ;;
    if ((splitshift <? 0) && (- length segl <=? splitshift))
       || ((0 <? splitshift) && (splitshift <=? length segc))
    then
      mangled' <-
        (if negb (length segl =? - splitshift)
         then m <- Py.index mangled (-1) ;;
              Py.set_last mangled
                (mkSegment (analyzer m) (offset m) (length m + splitshift))
         else Py.del_last mangled) ;;
      let segc' := mkSegment (analyzer segc) (offset segc + splitshift)
                             (length segc - splitshift) in
      Ok (mkState stack (mangled' ++ [segc']))
    else Ok (mkState stack (mangled ++ [segc]))
  else Ok (mkState stack (mangled ++ [segc])).

Definition split (pairFrequencies : option Counter.t)
  (segments : list MessageSegment) : Py.result (list MessageSegment) :=
  let segmentStack0 := rev (Py.slice segments (Some 1) None) in
  seg0 <- Py.index segments 0 ;;
  let s := mkState segmentStack0 [seg0] in
  if 1 <? Py.len segments
  then s' <- Py.while_nonempty (Datatypes.length segments)
               segmentStack (split_body pairFrequencies) s ;;
       Ok (mangledSegments s')
  else Ok (mangledSegments s).

End Resplit2LeastFrequentPair.

(** ** Common-value cropper *)

Module CropDistinct.

Definition minSegmentLength : Z := 2.

(** [frequencyThreshold = 0.1], as a fraction [num/den].  The product
    [frequencyThreshold * len(segmentedMessages)] is taken exactly: for the
    integer counts it is compared with, the rounding of the floating-point
    product does not change the outcome of [count > freqThre]. *)
Definition frequencyThreshold : Z * Z := (1, 10).

(** [ct > frequencyThreshold * nmsgs] *)
Definition above_threshold (ct nmsgs : Z) : bool :=
  fst frequencyThreshold * nmsgs <? ct * snd frequencyThreshold.

(** [while thre < len(segFreq) and segFreq[thre][1] > freqThre: thre += 1],
    with [rest = segFreq[thre:]]. *)
Fixpoint thre_loop (nmsgs : Z) (rest : Counter.t) (thre : Z) : Z :=
  match rest with
  | [] => thre
  | (_, ct) :: rest' =>
      if above_threshold ct nmsgs then thre_loop nmsgs rest' (thre + 1)
      else thre
  end.

(** [set(fv) != {0}] *)
Definition not_only_zero (fv : bytes) : bool :=
  negb (match fv with
        | [] => false
        | _ :: _ => forallb (fun b => int_of_byte b =? 0) fv
        end).

(** The list [moco]: the frequent values that are neither zero runs nor
    too short, most frequent first. *)
Definition frequentValues (segmentedMessages : list (list MessageSegment))
  : list bytes :=
  let segcnt := Counter.of_list (map seg_bytes (concat segmentedMessages)) in
  let segFreq := Counter.most_common segcnt in
  let thre := thre_loop (Py.len segmentedMessages) segFreq 0 in
  map fst
    (filter (fun e => not_only_zero (fst e)
                      && (minSegmentLength <=? Py.len (fst e)))
            (Py.slice segFreq None (Some thre))).

(** [not any(m != c and m.find(c) > -1 for c in moco)] *)
Definition has_no_common_part (moco : list bytes) (m : bytes) : bool :=
  negb (existsb (fun c => negb (bytes_eqb m c) && (-1 <? find m c)) moco).

Definition countCommonValues (segmentedMessages : list (list MessageSegment))
  : list bytes :=
  let moco := frequentValues segmentedMessages in
  filter (has_no_common_part moco) moco.

(** The inner loop [for comfeat in self._moco] for one segment: what is
    appended to [newmsg], or [None] when no value was found
    ([didReplace] stays false). *)
Fixpoint crop (seg : MessageSegment) (moco : list bytes)
  : option (list MessageSegment) :=
  match moco with
  | [] => None
  | comfeat :: rest =>
      let comoff := find (seg_bytes seg) comfeat in
      if comoff =? -1 then crop seg rest
      else
        let featlen := Py.len comfeat in
        if length seg =? featlen then Some [seg]
        else
          let absco := offset seg + comoff in
          let rlen := length seg - comoff - featlen in
          Some ((if 0 <? comoff
                 then [mkSegment (analyzer seg) (offset seg) comoff]
                 else [])
                ++ [mkSegment (analyzer seg) absco featlen]
                ++ (if 0 <? rlen
                    then [mkSegment (analyzer seg) (absco + featlen) rlen]
                    else []))
  end.

(** Body of [for sid, seg in enumerate(self.segments)]. *)
Definition split_body (moco : list bytes) (newmsg : list MessageSegment)
  (seg : MessageSegment) : list MessageSegment :=
  match crop seg moco with
  | Some added => newmsg ++ added
  | None => newmsg ++ [seg]
  end.

Definition split (segments : list MessageSegment) (moco : list bytes)
  : list MessageSegment :=
  fold_left (split_body moco) segments [].

End CropDistinct.

(** ** Cumulative char-run merger *)

Module CumulativeCharMerger.
Section CumulativeCharMerger.

(** [isExtendedCharSeq] of nemere/inference/segmentHandler.py is not part
    of the sources: an opaque test on raw bytes. *)
Variable isExtendedCharSeq : bytes -> bool.

Definition minLen : Z := 6.

(** The local variables of [merge]. *)
Record state : Type :=
  mkState { segmentStack : list MessageSegment;
            newmsg : list MessageSegment;
            isCharCand : bool;
            workingStack : list MessageSegment }.

(** [isExtendedCharSeq(joinedbytes) and b"\x00\x00" not in joinedbytes] *)
Definition char_test (working : list MessageSegment) : bool :=
  let joinedbytes := concat (map seg_bytes working) in
  isExtendedCharSeq joinedbytes && negb (-1 <? find joinedbytes [x00; x00]).

(** [sum([len(ws.bytes) for ws in workingStack]) < minLen] *)
Definition too_short (working : list MessageSegment) : bool :=
  Py.sum (map (fun ws => Py.len (seg_bytes ws)) working) <? minLen.

(** [MessageSegment(working[0].analyzer, working[0].offset,
    sum([ws.length for ws in part]))] *)
Definition merged (working part : list MessageSegment)
  : Py.result MessageSegment :=
  let newlen := Py.sum (map length part) in
  w0 <- Py.index working 0 ;;
  Ok (mkSegment (analyzer w0) (offset w0) newlen).

(** One iteration of [while segmentStack:]. *)
Definition merge_body (s : state) : Py.result state :=
  ' (stack, top) <- Py.pop (segmentStack s) ;;
  let working := workingStack s ++ [top] in
  if too_short working
  then Ok (mkState stack (newmsg s) (isCharCand s) working)
  else if char_test working
  then Ok (mkState stack (newmsg s) true working)
  else if isCharCand s then
    out <-
      (if 2 <? Py.len working
       then newseg <- merged working (Py.slice working None (Some (-1))) ;;
            Ok (newmsg s ++ [newseg])
       else w0 <- Py.index working 0 ;; Ok (newmsg s ++ [w0])) ;;
    stack' <-
      (if 1 <? Py.len working
       then wl <- Py.index working (-1) ;; Ok (stack ++ [wl])
       else Ok stack) ;;
    Ok (mkState stack' out false [])
  else
    w0 <- Py.index working 0 ;;
    Ok (mkState (stack ++ rev (Py.slice working (Some 1) None))
                (newmsg s ++ [w0]) (isCharCand s) []).

(** The code after the loop. *)
Definition merge_flush (s : state) : Py.result (list MessageSegment) :=
  if (1 <? Py.len (workingStack s)) && isCharCand s
  then newseg <- merged (workingStack s) (workingStack s) ;;
       Ok (newmsg s ++ [newseg])
  else Ok (newmsg s ++ workingStack s).

Definition initial (segments : list MessageSegment) : state :=
  mkState (rev segments) [] false [].

(** [merge] with a given iteration budget for its loop. *)
Definition merge_fuel (fuel : nat) (segments : list MessageSegment)
  : Py.result (list MessageSegment) :=
  s <- Py.while_nonempty fuel segmentStack merge_body (initial segments) ;;
  merge_flush s.

(** The budget [(n + 1)^2] for [n] segments. *)
Definition budget (segments : list MessageSegment) : nat :=
  (Datatypes.length segments + 1) * (Datatypes.length segments + 1).

Definition merge (segments : list MessageSegment)
  : Py.result (list MessageSegment) :=
  merge_fuel (budget segments) segments.

End CumulativeCharMerger.
End CumulativeCharMerger.

(** ** Fixed-length splitter *)

Module SplitFixed.

Definition split (segments : list MessageSegment) (segmentID chunkLength : Z)
  : Py.result (list MessageSegment) :=
  selSeg <- Py.index segments segmentID ;;
  if chunkLength <? length selSeg then
    offs <- Py.range (offset selSeg) (nextOffset selSeg) chunkLength ;;
    let newSegs :=
      map (fun chunkoff =>
             let remainLen := nextOffset selSeg - chunkoff in
             mkSegment (analyzer selSeg) chunkoff (Z.min remainLen chunkLength))
          offs in
    Ok (Py.slice segments None (Some segmentID) ++ newSegs
        ++ Py.slice segments (Some (segmentID + 1)) None)
  else Ok segments.

End SplitFixed.

(** ** Overlap predicate *)

Section Overlap.

(** [==] of the message class, which is not part of the sources. *)
Variable message_eq : RawMessage -> RawMessage -> bool.

(** [isOverlapping(segA, segB)] *)
Definition isOverlapping (segA segB : MessageSegment) : bool :=
  if message_eq (message segA) (message segB)
     && ((offset segA <? nextOffset segB) && (offset segB <? nextOffset segA))
  then true
  else false.

End Overlap.

(** ** Specification-side definitions

    These follow the words of the specification and are compared with the
    code in Part II. *)

(** The chunks a fixed-length split of a target at [off] of length [len] is
    to produce for chunk length [c]: [len / c] chunks of exactly [c] bytes,
    then one chunk with the remainder when [c] does not divide [len]. *)
Definition fixed_chunks (ana : MessageAnalyzer) (off len c : Z)
  : list MessageSegment :=
  map (fun k => mkSegment ana (off + Z.of_nat k * c) c)
      (seq 0 (Z.to_nat (len / c)))
  ++ (if len mod c =? 0 then []
      else [mkSegment ana (off + (len / c) * c) (len mod c)]).

(** The merge described for a condition: the sequence is cut into its
    maximal runs of linked neighbours, and every run becomes one segment. *)
Section MergeRuns.

Variable condition : MessageSegment -> MessageSegment -> bool.

(** Two neighbours of the original sequence are merged when they are
    byte-adjacent and satisfy the condition. *)
Definition linked (segl segr : MessageSegment) : bool :=
  (offset segl + length segl =? offset segr) && condition segl segr.

(** The maximal runs of a sequence, in order. *)
Fixpoint runs (segments : list MessageSegment) : list (list MessageSegment) :=
  match segments with
  | [] => []
  | s :: rest =>
      match rest with
      | [] => [[s]]
      | r :: _ =>
          match runs rest with
          | [] => [[s]]
          | run :: others =>
              if linked s r then (s :: run) :: others
              else [s] :: run :: others
          end
      end
  end.

(** One segment for a run: analyzer and offset of its first segment, the
    summed length. *)
Definition collapse (run : list MessageSegment) : list MessageSegment :=
  match run with
  | [] => []
  | first :: _ =>
      [mkSegment (analyzer first) (offset first) (Py.sum (map length run))]
  end.

Definition merge_runs (segments : list MessageSegment) : list MessageSegment :=
  flat_map collapse (runs segments).

(** Every neighbouring pair inside a run is linked. *)
Inductive chain : list MessageSegment -> Prop :=
| chain_one (s : MessageSegment) : chain [s]
| chain_more (s r : MessageSegment) (run : list MessageSegment) :
    linked s r = true -> chain (r :: run) -> chain (s :: r :: run).

(** No run can be extended: the last segment of a run and the first of the
    next run are not linked. *)
Inductive separated : list (list MessageSegment) -> Prop :=
| separated_nil : separated []
| separated_one (run : list MessageSegment) : separated [run]
| separated_more (run1 run2 : list MessageSegment)
    (others : list (list MessageSegment)) (a b : MessageSegment) :
    last run1 a = a -> hd b run2 = b -> run1 <> [] -> run2 <> [] ->
    linked a b = false ->
    separated (run2 :: others) -> separated (run1 :: run2 :: others).

End MergeRuns.

(** A boundary at [boundary] is at least two bytes away from both edges of
    the message. *)
Definition inner_boundary (msgbytes : bytes) (boundary : Z) : Prop :=
  2 <= boundary /\ boundary + 2 <= Py.len msgbytes.

Definition inner_boundaryb (msgbytes : bytes) (boundary : Z) : bool :=
  (2 <=? boundary) && (boundary + 2 <=? Py.len msgbytes).

(** A neighbouring pair at which the resplit consults the frequency table:
    byte-adjacent, with an inner boundary. *)
Definition reaches_lookup (pair : MessageSegment * MessageSegment) : bool :=
  let '(segl, segc) := pair in
  (offset segl + length segl =? offset segc)
  && inner_boundaryb (data (message segc)) (offset segc).

(** What becomes of the left neighbour when the boundary moves by [shift]:
    it keeps its analyzer and offset and ends at the new boundary, and it
    disappears when nothing is left of it. *)
Definition left_after (segl : MessageSegment) (shift : Z) : list MessageSegment :=
  if shift =? 0 then [segl]
  else if length segl + shift =? 0 then []
  else [mkSegment (analyzer segl) (offset segl) (length segl + shift)].

(** The right neighbour after the move: it starts at the new boundary and
    keeps its end. *)
Definition right_after (segc : MessageSegment) (shift : Z) : MessageSegment :=
  if shift =? 0 then segc
  else mkSegment (analyzer segc) (offset segc + shift) (length segc - shift).

(** The table's counts of the three windows at the start of [seg]:
    across, before, after. *)
Definition window_counts (table : Counter.t) (seg : MessageSegment)
  : Z * Z * Z :=
  let '(across, before, after) :=
    Resplit2LeastFrequentPair.windows (data (message seg)) (offset seg) in
  (Counter.get table across, Counter.get table before, Counter.get table after).


(** A quantity every iteration of that loop decreases: with [t] segments
    still to be placed (on the stack or in the buffer) and [a] of them on
    the stack, [t * t + a]. *)
Definition remaining_work (s : CumulativeCharMerger.state) : nat :=
  let a := Datatypes.length (CumulativeCharMerger.segmentStack s) in
  let t := (a + Datatypes.length (CumulativeCharMerger.workingStack s))%nat in
  (t * t + a)%nat.

(** How often the byte value [k] occurs among the values [l]. *)
Definition occurrences (l : list bytes) (k : bytes) : Z :=
  Z.of_nat (count_occ (list_eq_dec Byte.byte_eq_dec) l k).

(** [c] occurs in [m] as a contiguous part. *)
Definition substring (c m : bytes) : Prop :=
  exists pre post, m = pre ++ c ++ post.

(** The segment lies inside the message bytes [d].  A length of zero is
    allowed here, since the frequency-guided resplit can emit it. *)
Definition within (d : bytes) (seg : MessageSegment) : Prop :=
  data (message seg) = d /\ 0 <= offset seg /\ 0 <= length seg /\
  nextOffset seg <= Py.len d.

(** Every segment starts where the one before it ends. *)
Fixpoint gapless (segments : list MessageSegment) : Prop :=
  match segments with
  | [] => True
  | a :: rest =>
      match rest with
      | [] => True
      | b :: _ => nextOffset a = offset b /\ gapless rest
      end
  end.

(** ** Example data *)

Definition msg_abcd : RawMessage := mkMessage [x61; x62; x63; x64].
Definition ana_abcd : MessageAnalyzer := mkAnalyzer msg_abcd 0.

(** A corpus of three messages for the frequency-guided resplit. *)
Definition msg_abcdef : RawMessage := mkMessage [x61; x62; x63; x64; x65; x66].
Definition ana_abcdef : MessageAnalyzer := mkAnalyzer msg_abcdef 0.
Definition msg_abab : RawMessage := mkMessage [x61; x62; x61; x62].
Definition ana_abab : MessageAnalyzer := mkAnalyzer msg_abab 1.
Definition msg_debc : RawMessage := mkMessage [x64; x65; x62; x63].
Definition ana_debc : MessageAnalyzer := mkAnalyzer msg_debc 2.

Definition segs_abcdef : list MessageSegment :=
  [mkSegment ana_abcdef 0 2; mkSegment ana_abcdef 2 1; mkSegment ana_abcdef 3 3].

Definition corpus_abcdef : list (list MessageSegment) :=
  [segs_abcdef;
   [mkSegment ana_abab 0 2; mkSegment ana_abab 2 2];
   [mkSegment ana_debc 0 2; mkSegment ana_debc 2 2]].

(** A corpus of two messages in which, at the boundary of the first, the
    windows before and after are equally rare. *)
Definition msg_pqrs : RawMessage := mkMessage [x70; x71; x72; x73].
Definition ana_pqrs : MessageAnalyzer := mkAnalyzer msg_pqrs 0.
Definition msg_qrqr : RawMessage := mkMessage [x71; x72; x71; x72].
Definition ana_qrqr : MessageAnalyzer := mkAnalyzer msg_qrqr 1.

Definition segs_pqrs : list MessageSegment :=
  [mkSegment ana_pqrs 0 2; mkSegment ana_pqrs 2 2].

Definition corpus_pqrs : list (list MessageSegment) :=
  [segs_pqrs; [mkSegment ana_qrqr 0 2; mkSegment ana_qrqr 2 2]].

(** One message "abcdbc" cut into "abcd" and "bc". *)
Definition msg_abcdbc : RawMessage :=
  mkMessage [x61; x62; x63; x64; x62; x63].
Definition ana_abcdbc : MessageAnalyzer := mkAnalyzer msg_abcdbc 0.
Definition corpus_abcdbc : list (list MessageSegment) :=
  [[mkSegment ana_abcdbc 0 4; mkSegment ana_abcdbc 4 2]].

(** A message with a text run followed by two control bytes. *)
Definition msg_text : RawMessage :=
  mkMessage [x41; x42; x43; x44; x45; x46; x00; x01].
Definition ana_text : MessageAnalyzer := mkAnalyzer msg_text 0.
Definition segs_text : list MessageSegment :=
  [mkSegment ana_text 0 2; mkSegment ana_text 2 2; mkSegment ana_text 4 2;
   mkSegment ana_text 6 2].


(** The tables [countPairFrequencies] builds from the two corpora. *)
Definition table_abcdef : Counter.t :=
  Eval vm_compute in
    match Resplit2LeastFrequentPair.countPairFrequencies corpus_abcdef with
    | Ok table => table
    | _ => []
    end.

Definition table_pqrs : Counter.t :=
  Eval vm_compute in
    match Resplit2LeastFrequentPair.countPairFrequencies corpus_pqrs with
    | Ok table => table
    | _ => []
    end.

(** No two neighbours of the sequence are byte-adjacent and satisfy the
    condition. *)
Fixpoint no_link (condition : MessageSegment -> MessageSegment -> bool)
  (segments : list MessageSegment) : Prop :=
  match segments with
  | [] => True
  | s :: rest =>
      match rest with
      | [] => True
      | r :: _ => linked condition s r = false /\ no_link condition rest
      end
  end.

(** What every table built by [countPairFrequencies] satisfies: one entry
    per window, every window two bytes long, every count positive. *)
Definition table_ok (table : Counter.t) : Prop :=
  NoDup (map fst table) /\
  Forall (fun e => Py.len (fst e) = Resplit2LeastFrequentPair.CHUNKLEN
                   /\ 0 < snd e) table.

(** The three windows at [boundary] in the bytes [d] have been counted. *)
Definition counted (table : Counter.t) (d : bytes) (boundary : Z) : Prop :=
  let '(across, before, after) :=
    Resplit2LeastFrequentPair.windows d boundary in
  1 <= Counter.get table across /\ 1 <= Counter.get table before /\
  1 <= Counter.get table after.

(** The windows [countPairFrequencies] counts for one message: the three
    windows at every segment offset that is an inner boundary of the bytes
    of the message of the first segment, in the order of the segments. *)
Definition message_windows (segsList : list MessageSegment) : list bytes :=
  match segsList with
  | [] => []
  | seg0 :: _ =>
      flat_map
        (fun seg =>
           if inner_boundaryb (data (message seg0)) (offset seg)
           then let '(across, before, after) :=
                  Resplit2LeastFrequentPair.windows (data (message seg0))
                    (offset seg) in
                [across; before; after]
           else [])
        segsList
  end.

Definition corpus_windows (allMsgsSegs : list (list MessageSegment))
  : list bytes :=
  flat_map message_windows allMsgsSegs.

(** The message and the segments of the doctest of [isOverlapping]:
    the bytes 20 .. 39. *)
Definition msg_doctest : RawMessage :=
  mkMessage [x14; x15; x16; x17; x18; x19; x1a; x1b; x1c; x1d;
             x1e; x1f; x20; x21; x22; x23; x24; x25; x26; x27].
Definition ana_doctest : MessageAnalyzer := mkAnalyzer msg_doctest 0.

(** Messages compared by their bytes, for the examples. *)
Definition same_data (m1 m2 : RawMessage) : bool :=
  bytes_eqb (data m1) (data m2).

(* ================================================================== *)
(** * Part II: properties                                              *)
(* ================================================================== *)

(** ** Tactics *)

(** Splits conjunctions and equivalences, introduces, and closes the
    arithmetic and propositional leaves. *)
Ltac split_all :=
  repeat match goal with
         | |- _ /\ _ => split
         | |- _ <-> _ => split
         | |- _ -> _ => intro
         end;
  try reflexivity; try lia; try tauto.

(** Closes [Forall (within d) l] for a message and a list written out. *)
Ltac within_list :=
  repeat (apply Forall_cons;
          [unfold within; split_all; vm_compute; discriminate|]);
  apply Forall_nil.

(** Closes a conjunction whose parts hold as they stand. *)
Ltac unchanged :=
  repeat match goal with |- _ /\ _ => split end;
  first [reflexivity | assumption | constructor | lia].

(** ** Byte classifiers *)

Lemma isPrintableChar_range (b : Z) :
  isPrintableChar b = true <-> 0x20 <= b <= 0x7e.
Proof.
  unfold isPrintableChar. cbn [Py.contains existsb Py.eqb].
  rewrite !orb_false_r, andb_true_iff, !Z.leb_le. tauto.
Qed.

Lemma isPrintable_Forall (bs : bytes) :
  isPrintable bs = true <->
  Forall (fun b => isPrintableChar (int_of_byte b) = true) bs.
Proof.
  induction bs as [|b bs IH]; simpl.
  - split; auto.
  - destruct (isPrintableChar (int_of_byte b)) eqn:E.
    + rewrite IH. split; intros H.
      * constructor; assumption.
      * inversion H; assumption.
    + split; [discriminate|]. intros H. inversion H; congruence.
Qed.

(** C2: on the numeric codes of tab, line feed and carriage return the
    byte test answers false (an int is compared with one-character strings
    and never equals them), so a byte string holding one of them is not
    printable either; the documented behaviour is true on these three codes. *)
Theorem isPrintableChar_control_codes :
  isPrintableChar 0x09 = false /\ isPrintableChar 0x0A = false /\
  isPrintableChar 0x0D = false /\
  isPrintable [x09] = false /\ isPrintable [x41; x0a] = false.
Proof. repeat split; reflexivity. Qed.

(** ** Python list primitives *)

Lemma len_nonneg {A : Type} (l : list A) : 0 <= Py.len l.
Proof. unfold Py.len. lia. Qed.

Lemma len_app {A : Type} (l1 l2 : list A) :
  Py.len (l1 ++ l2) = Py.len l1 + Py.len l2.
Proof. unfold Py.len. rewrite length_app. lia. Qed.

Lemma len_cons {A : Type} (x : A) (l : list A) : Py.len (x :: l) = 1 + Py.len l.
Proof. unfold Py.len. simpl Datatypes.length. lia. Qed.

Lemma pop_app {A : Type} (l : list A) (x : A) : Py.pop (l ++ [x]) = Ok (l, x).
Proof.
  unfold Py.pop. rewrite rev_app_distr. simpl. now rewrite rev_involutive.
Qed.

Lemma set_last_app {A : Type} (l : list A) (x v : A) :
  Py.set_last (l ++ [x]) v = Ok (l ++ [v]).
Proof.
  unfold Py.set_last. rewrite rev_app_distr. simpl. now rewrite rev_involutive.
Qed.

Lemma del_last_app {A : Type} (l : list A) (x : A) :
  Py.del_last (l ++ [x]) = Ok l.
Proof.
  unfold Py.del_last. rewrite rev_app_distr. simpl. now rewrite rev_involutive.
Qed.

Lemma index_last {A : Type} (l : list A) (x : A) :
  Py.index (l ++ [x]) (-1) = Ok x.
Proof.
  unfold Py.index. rewrite len_app.
  change (-1 <? 0) with true. cbv iota.
  pose proof (len_nonneg l) as Hl.
  change (Py.len [x]) with 1.
  destruct (-1 + (Py.len l + 1) <? 0) eqn:E; [apply Z.ltb_lt in E; lia|].
  replace (Z.to_nat (-1 + (Py.len l + 1))) with (Datatypes.length l)
    by (unfold Py.len; lia).
  rewrite nth_error_app2 by lia. now rewrite Nat.sub_diag.
Qed.

Lemma index_nonneg {A : Type} (l : list A) (i : Z) :
  0 <= i ->
  Py.index l i = match nth_error l (Z.to_nat i) with
                 | Some x => Ok x
                 | None => Raise IndexError
                 end.
Proof.
  intros Hi. unfold Py.index.
  destruct (i <? 0) eqn:E; [apply Z.ltb_lt in E; lia|].
  now rewrite E.
Qed.

Lemma index_head {A : Type} (x : A) (l : list A) : Py.index (x :: l) 0 = Ok x.
Proof. reflexivity. Qed.

Lemma slice_from_1 {A : Type} (l : list A) : Py.slice l (Some 1) None = tl l.
Proof.
  unfold Py.slice, Py.clamp. change (1 <? 0) with false. cbv iota.
  destruct l as [|x l].
  - reflexivity.
  - rewrite len_cons. pose proof (len_nonneg l).
    rewrite Z.min_l by lia. simpl skipn. simpl tl.
    replace (Z.to_nat (1 + Py.len l - 1)) with (Datatypes.length l)
      by (unfold Py.len; lia).
    apply firstn_all.
Qed.

Lemma slice_upto {A : Type} (l : list A) (i : Z) :
  0 <= i -> Py.slice l None (Some i) = firstn (Z.to_nat i) l.
Proof.
  intros Hi. unfold Py.slice, Py.clamp.
  destruct (i <? 0) eqn:E; [apply Z.ltb_lt in E; lia|].
  simpl skipn. rewrite Z.sub_0_r.
  destruct (Z.le_gt_cases i (Py.len l)).
  - now rewrite Z.min_l by lia.
  - rewrite Z.min_r by lia.
    unfold Py.len in *. rewrite Nat2Z.id.
    rewrite firstn_all. symmetry. apply firstn_all2. lia.
Qed.

Lemma slice_from {A : Type} (l : list A) (i : Z) :
  0 <= i -> Py.slice l (Some i) None = skipn (Z.to_nat i) l.
Proof.
  intros Hi. unfold Py.slice, Py.clamp.
  destruct (i <? 0) eqn:E; [apply Z.ltb_lt in E; lia|].
  pose proof (len_nonneg l) as Hl.
  destruct (Z.le_gt_cases i (Py.len l)).
  - rewrite Z.min_l by lia.
    apply firstn_all2. rewrite length_skipn. unfold Py.len. lia.
  - rewrite Z.min_r by lia.
    rewrite !skipn_all2 by (unfold Py.len in *; lia).
    apply firstn_nil.
Qed.

Lemma slice_drop_last {A : Type} (l : list A) :
  Py.slice l None (Some (-1)) = removelast l.
Proof.
  unfold Py.slice, Py.clamp. change (-1 <? 0) with true. cbv iota.
  simpl skipn. rewrite Z.sub_0_r.
  destruct l as [|x l] using rev_ind.
  - reflexivity.
  - rewrite removelast_last, len_app. change (Py.len [x]) with 1.
    pose proof (len_nonneg l).
    rewrite Z.max_r by lia.
    replace (Z.to_nat (-1 + (Py.len l + 1))) with (Datatypes.length l + 0)%nat
      by (unfold Py.len; lia).
    rewrite firstn_app_2. simpl. apply app_nil_r.
Qed.

Lemma slice_first {A : Type} (l : list A) :
  Py.slice l (Some 0) (Some 1) = firstn 1 l.
Proof.
  unfold Py.slice, Py.clamp. change (0 <? 0) with false.
  change (1 <? 0) with false. cbv iota.
  pose proof (len_nonneg l).
  rewrite (Z.min_l 0) by lia. simpl skipn. rewrite Z.sub_0_r.
  destruct l as [|x l]; [reflexivity|].
  rewrite len_cons. pose proof (len_nonneg l). now rewrite Z.min_l by lia.
Qed.

(** A slice with bounds inside the list, by [firstn] and [skipn]. *)
Lemma slice_inside {A : Type} (l : list A) (a b : Z) :
  0 <= a -> 0 <= b ->
  Py.slice l (Some a) (Some b) =
  firstn (Z.to_nat (Z.min b (Py.len l)) - Z.to_nat (Z.min a (Py.len l)))
         (skipn (Z.to_nat (Z.min a (Py.len l))) l).
Proof.
  intros Ha Hb. unfold Py.slice, Py.clamp.
  destruct (a <? 0) eqn:Ea; [apply Z.ltb_lt in Ea; lia|].
  destruct (b <? 0) eqn:Eb; [apply Z.ltb_lt in Eb; lia|].
  f_equal. pose proof (len_nonneg l). lia.
Qed.

Lemma firstn_plus {A : Type} (n m : nat) (l : list A) :
  firstn (n + m) l = firstn n l ++ firstn m (skipn n l).
Proof.
  revert l. induction n as [|n IH]; intros l.
  - reflexivity.
  - destruct l as [|x l]; simpl.
    + now rewrite firstn_nil.
    + now rewrite IH.
Qed.

(** Adjacent slices join. *)
Lemma slice_join {A : Type} (l : list A) (a b c : Z) :
  0 <= a <= b -> b <= c ->
  Py.slice l (Some a) (Some b) ++ Py.slice l (Some b) (Some c) =
  Py.slice l (Some a) (Some c).
Proof.
  intros Hab Hbc. rewrite !slice_inside by lia.
  pose proof (len_nonneg l) as Hl.
  set (n := Py.len l) in *.
  set (a' := Z.to_nat (Z.min a n)). set (b' := Z.to_nat (Z.min b n)).
  set (c' := Z.to_nat (Z.min c n)).
  assert (Hab' : (a' <= b')%nat) by (subst a' b'; lia).
  assert (Hbc' : (b' <= c')%nat) by (subst b' c'; lia).
  replace (c' - a')%nat with ((b' - a') + (c' - b'))%nat by lia.
  rewrite firstn_plus. f_equal.
  rewrite skipn_skipn. do 2 f_equal. lia.
Qed.

Lemma slice_empty {A : Type} (l : list A) (a : Z) :
  0 <= a -> Py.slice l (Some a) (Some a) = [].
Proof.
  intros Ha. rewrite slice_inside by lia. now rewrite Nat.sub_diag.
Qed.

Lemma len_slice_inside {A : Type} (l : list A) (a b : Z) :
  0 <= a <= b -> b <= Py.len l -> Py.len (Py.slice l (Some a) (Some b)) = b - a.
Proof.
  intros Hab Hb. rewrite slice_inside by lia. unfold Py.len in *.
  rewrite length_firstn, length_skipn. lia.
Qed.

(** ** Fixed-length splitter *)

Lemma ceil_div_cases (L c : Z) :
  0 < c -> 0 <= L ->
  (L + c - 1) / c = L / c + (if L mod c =? 0 then 0 else 1).
Proof.
  intros Hc HL.
  pose proof (Z.div_mod L c ltac:(lia)) as Hdm.
  pose proof (Z.mod_pos_bound L c Hc) as Hr.
  destruct (L mod c =? 0) eqn:E.
  - apply Z.eqb_eq in E. symmetry.
    apply (Z.div_unique _ _ _ (c - 1)); lia.
  - apply Z.eqb_neq in E. symmetry.
    apply (Z.div_unique _ _ _ (L mod c - 1)); lia.
Qed.

Lemma range_chunks (ana : MessageAnalyzer) (off L c : Z) :
  0 < c -> 0 <= L ->
  exists offs,
    Py.range off (off + L) c = Ok offs /\
    map (fun chunkoff => mkSegment ana chunkoff (Z.min (off + L - chunkoff) c))
        offs
    = fixed_chunks ana off L c.
Proof.
  intros Hc HL. unfold Py.range.
  destruct (c =? 0) eqn:E0; [apply Z.eqb_eq in E0; lia|].
  destruct (0 <? c) eqn:E1; [|apply Z.ltb_ge in E1; lia].
  eexists. split; [reflexivity|].
  replace (off + L - off + c - 1) with (L + c - 1) by lia.
  rewrite ceil_div_cases by lia.
  pose proof (Z.div_mod L c ltac:(lia)) as Hdm.
  pose proof (Z.mod_pos_bound L c Hc) as Hr.
  pose proof (Z.div_pos L c HL Hc) as Hq.
  unfold fixed_chunks. rewrite map_map.
  assert (Hfull : forall k, In k (seq 0 (Z.to_nat (L / c))) ->
            mkSegment ana (off + Z.of_nat k * c)
                      (Z.min (off + L - (off + Z.of_nat k * c)) c)
            = mkSegment ana (off + Z.of_nat k * c) c).
  { intros k Hk. apply in_seq in Hk. f_equal. apply Z.min_r. nia. }
  destruct (L mod c =? 0) eqn:E.
  - rewrite Z.add_0_r, app_nil_r. now apply map_ext_in.
  - apply Z.eqb_neq in E.
    replace (Z.to_nat (L / c + 1)) with (Z.to_nat (L / c) + 1)%nat by lia.
    rewrite seq_app, map_app. f_equal; [now apply map_ext_in|].
    simpl. rewrite Z2Nat.id by lia. do 2 f_equal.
    replace (off + L - (off + L / c * c)) with (L mod c) by lia.
    apply Z.min_l. lia.
Qed.



(** A negative index is accepted by [segments[segmentID]] but not meant by
    the two slices around the new segments: with -1 the whole input follows
    the chunks of the last segment once more. *)
Lemma SplitFixed_split_negative_index :
  SplitFixed.split [mkSegment ana_abcd 0 2; mkSegment ana_abcd 2 2] (-1) 1
  = Ok [mkSegment ana_abcd 0 2;
        mkSegment ana_abcd 2 1; mkSegment ana_abcd 3 1;
        mkSegment ana_abcd 0 2; mkSegment ana_abcd 2 2].
Proof. reflexivity. Qed.


(** ** Merge engine *)

Lemma sum_shift (l : list Z) (a : Z) : fold_left Z.add l a = a + Py.sum l.
Proof.
  unfold Py.sum. revert a. induction l as [|x l IH]; intros a; simpl.
  - lia.
  - rewrite (IH (a + x)), (IH x). lia.
Qed.

Lemma sum_cons (x : Z) (l : list Z) : Py.sum (x :: l) = x + Py.sum l.
Proof. unfold Py.sum at 1. simpl. apply sum_shift. Qed.


Lemma segment_eta (s : MessageSegment) :
  mkSegment (analyzer s) (offset s) (length s) = s.
Proof. now destruct s. Qed.

Section MergerFacts.

Variable condition : MessageSegment -> MessageSegment -> bool.

Lemma runs_step (s r : MessageSegment) (rest : list MessageSegment) :
  runs condition (s :: r :: rest) =
  match runs condition (r :: rest) with
  | [] => [[s]]
  | run :: others =>
      if linked condition s r then (s :: run) :: others
      else [s] :: run :: others
  end.
Proof. reflexivity. Qed.

Lemma runs_head (s : MessageSegment) (rest : list MessageSegment) :
  exists t others, runs condition (s :: rest) = (s :: t) :: others.
Proof.
  destruct rest as [|r rest].
  - now exists [], [].
  - rewrite runs_step.
    destruct (runs condition (r :: rest)) as [|run others] eqn:E.
    + now exists [], [].
    + destruct (linked condition s r); eauto.
Qed.

Lemma concat_runs (segments : list MessageSegment) :
  concat (runs condition segments) = segments.
Proof.
  induction segments as [|s rest IH]; [reflexivity|].
  destruct rest as [|r rest]; [reflexivity|].
  destruct (runs_head r rest) as (t & others & E).
  rewrite runs_step. rewrite E in *. destruct (linked condition s r); simpl in *; now rewrite IH.
Qed.

Lemma runs_chain (segments : list MessageSegment) :
  Forall (chain condition) (runs condition segments).
Proof.
  induction segments as [|s rest IH]; [constructor|].
  destruct rest as [|r rest]; [repeat constructor|].
  destruct (runs_head r rest) as (t & others & E).
  rewrite runs_step. rewrite E in *. inversion IH as [|? ? Hrun Hothers]; subst.
  destruct (linked condition s r) eqn:L.
  - constructor; [|assumption]. now constructor.
  - constructor; [constructor|]. now constructor.
Qed.

Lemma runs_separated (segments : list MessageSegment) :
  separated condition (runs condition segments).
Proof.
  induction segments as [|s rest IH]; [constructor|].
  destruct rest as [|r rest]; [constructor|].
  destruct (runs_head r rest) as (t & others & E).
  rewrite runs_step. rewrite E in *.
  destruct (linked condition s r) eqn:L.
  - inversion IH as [| run | run1 run2 others' a b Ha Hb Hn1 Hn2 Hl Hs]; subst.
    + constructor.
    + apply (separated_more condition _ _ _ a b);
        solve [assumption | discriminate].
  - now apply (separated_more condition _ _ _ s r).
Qed.

(** The loop, started on [acc ++ [cur]] with [cur] the segment that has
    absorbed the run so far, produces the runs of what is left. *)
Lemma merge_loop_runs (rest : list MessageSegment) :
  forall (acc : list MessageSegment) (cur s : MessageSegment)
         (t : list MessageSegment) (others : list (list MessageSegment)),
    runs condition (s :: rest) = (s :: t) :: others ->
    Py.for_each (Merger.merge_body condition)
      (combine (removelast (s :: rest)) rest) (acc ++ [cur])
    = Ok (acc
          ++ [mkSegment (analyzer cur) (offset cur)
                        (length cur + Py.sum (map length t))]
          ++ flat_map collapse others).
Proof.
  induction rest as [|r rest IH]; intros acc cur s t others E.
  - simpl in E. injection E as <- <-. simpl.
    change (Py.sum []) with 0. rewrite Z.add_0_r, segment_eta.
    reflexivity.
  - destruct (runs_head r rest) as (t' & others' & E').
    rewrite runs_step, E' in E.
    change (combine (removelast (s :: r :: rest)) (r :: rest)) with
      ((s, r) :: combine (removelast (r :: rest)) rest).
    cbn [Py.for_each]. unfold Merger.merge_body at 1.
    fold (linked condition s r).
    destruct (linked condition s r) eqn:L.
    + injection E as <- <-.
      rewrite index_last. cbn [Py.bind]. rewrite set_last_app. cbn [Py.bind].
      rewrite (IH acc _ r t' others' E'). cbn [analyzer offset length].
      change (map length (r :: t')) with (length r :: map length t').
      rewrite sum_cons, Z.add_assoc. reflexivity.
    + injection E as <- <-. cbn [Py.bind].
      rewrite (IH (acc ++ [cur]) r r t' others' E').
      cbn [map flat_map collapse]. change (Py.sum []) with 0.
      rewrite Z.add_0_r, segment_eta, sum_cons, <- !app_assoc.
      reflexivity.
Qed.

Lemma merge_is_merge_runs (segments : list MessageSegment) :
  Merger.merge condition segments = Ok (merge_runs condition segments).
Proof.
  unfold Merger.merge, merge_runs.
  rewrite slice_first, slice_drop_last, slice_from_1.
  destruct segments as [|s rest]; [reflexivity|].
  destruct rest as [|r rest].
  - simpl. unfold Py.sum. simpl. now rewrite segment_eta.
  - replace (1 <? Py.len (s :: r :: rest)) with true
      by (symmetry; apply Z.ltb_lt; rewrite !len_cons;
          pose proof (len_nonneg rest); lia).
    destruct (runs_head s (r :: rest)) as (t & others & E).
    cbn [firstn tl].
    pose proof (merge_loop_runs (r :: rest) [] s s t others E) as H.
    cbn [app] in H. rewrite H, E.
    cbn [flat_map collapse app].
    change (map length (s :: t)) with (length s :: map length t).
    now rewrite sum_cons.
Qed.

End MergerFacts.

(** The three text segments of "ABCDEF" are merged, the control bytes
    after them are not. *)
Lemma MergeConsecutiveChars_merge_text :
  MergeConsecutiveChars.merge segs_text
  = Ok [mkSegment ana_text 0 6; mkSegment ana_text 6 2] /\
  runs MergeConsecutiveChars.condition segs_text
  = [[mkSegment ana_text 0 2; mkSegment ana_text 2 2; mkSegment ana_text 4 2];
     [mkSegment ana_text 6 2]].
Proof. split; reflexivity. Qed.


(** ** Frequency-guided resplit *)

Lemma while_nonempty_step {S X : Type} (fuel : nat) (stack : S -> list X)
  (body : S -> Py.result S) (s : S) :
  stack s <> [] ->
  Py.while_nonempty (Datatypes.S fuel) stack body s =
  Py.bind (body s) (Py.while_nonempty fuel stack body).
Proof.
  intros H. simpl. destruct (stack s); [contradiction|reflexivity].
Qed.

Lemma while_nonempty_done {S X : Type} (fuel : nat) (stack : S -> list X)
  (body : S -> Py.result S) (s : S) :
  stack s = [] -> Py.while_nonempty fuel stack body s = Ok s.
Proof. intros H. destruct fuel; simpl; now rewrite H. Qed.

Lemma snoc_not_nil {A : Type} (l : list A) (x : A) : l ++ [x] <> [].
Proof. now destruct l. Qed.

Lemma inner_boundaryb_spec (msgbytes : bytes) (boundary : Z) :
  inner_boundaryb msgbytes boundary = true <-> inner_boundary msgbytes boundary.
Proof.
  unfold inner_boundaryb, inner_boundary.
  now rewrite andb_true_iff, !Z.leb_le.
Qed.

Lemma windows_ok_inner (msgbytes : bytes) (boundary : Z) :
  inner_boundary msgbytes boundary ->
  Resplit2LeastFrequentPair.windows_ok
    (Resplit2LeastFrequentPair.windows msgbytes boundary) = true.
Proof.
  intros [H1 H2].
  unfold Resplit2LeastFrequentPair.windows_ok, Resplit2LeastFrequentPair.windows.
  change (Resplit2LeastFrequentPair.CHUNKLEN / 2) with 1.
  change Resplit2LeastFrequentPair.CHUNKLEN with 2.
  rewrite !len_slice_inside by lia.
  rewrite !andb_true_iff, !Z.eqb_eq. lia.
Qed.

(** The guards of [lookupLeastFrequent] let exactly the inner boundaries
    through to the table. *)
Lemma lookupLeastFrequent_outer (pairFrequencies : option Counter.t)
  (seg : MessageSegment) :
  ~ inner_boundary (data (message seg)) (offset seg) ->
  Resplit2LeastFrequentPair.lookupLeastFrequent pairFrequencies seg = Ok 0.
Proof.
  unfold inner_boundary, Resplit2LeastFrequentPair.lookupLeastFrequent.
  change Resplit2LeastFrequentPair.CHUNKLEN with 2. intros H.
  destruct (offset seg =? 0) eqn:E0; [reflexivity|].
  destruct (offset seg <? 2) eqn:E1; [reflexivity|].
  destruct (Py.len (data (message seg)) <? offset seg + 2) eqn:E2;
    [reflexivity|].
  apply Z.ltb_ge in E1, E2. lia.
Qed.

Lemma lookupLeastFrequent_inner (pairFrequencies : option Counter.t)
  (seg : MessageSegment) :
  inner_boundary (data (message seg)) (offset seg) ->
  Resplit2LeastFrequentPair.lookupLeastFrequent pairFrequencies seg =
  let '(across, before, after) :=
    Resplit2LeastFrequentPair.windows (data (message seg)) (offset seg) in
  countAcross <- Resplit2LeastFrequentPair.lookup pairFrequencies across ;;
  countBefore <- Resplit2LeastFrequentPair.lookup pairFrequencies before ;;
  countAfter <- Resplit2LeastFrequentPair.lookup pairFrequencies after ;;
  let countMin := Z.min (Z.min countAcross countBefore) countAfter in
  if countMin =? countAcross then Ok 0
  else if countMin =? countBefore then Ok (-1)
  else if countMin =? countAfter then Ok 1
  else Raise TypeError.
Proof.
  intros Hin. pose proof (windows_ok_inner _ _ Hin) as Hok.
  destruct Hin as [H1 H2].
  unfold Resplit2LeastFrequentPair.lookupLeastFrequent.
  change Resplit2LeastFrequentPair.CHUNKLEN with 2.
  destruct (offset seg =? 0) eqn:E0; [apply Z.eqb_eq in E0; lia|].
  destruct (offset seg <? 2) eqn:E1; [apply Z.ltb_lt in E1; lia|].
  destruct (Py.len (data (message seg)) <? offset seg + 2) eqn:E2;
    [apply Z.ltb_lt in E2; lia|].
  cbn [orb].
  destruct (Resplit2LeastFrequentPair.windows (data (message seg)) (offset seg))
    as [[across before] after].
  now rewrite Hok.
Qed.

(** With no table built, the loop fails at the first pair that reaches the
    table and otherwise hands every segment over unchanged. *)
Lemma split_loop_unbuilt (rest : list MessageSegment) :
  forall (acc : list MessageSegment) (segl : MessageSegment) (fuel : nat),
    (Datatypes.length rest <= fuel)%nat ->
    Py.while_nonempty fuel Resplit2LeastFrequentPair.segmentStack
      (Resplit2LeastFrequentPair.split_body None)
      (Resplit2LeastFrequentPair.mkState (rev rest) (acc ++ [segl]))
    = if existsb reaches_lookup (combine (removelast (segl :: rest)) rest)
      then Raise TypeError
      else Ok (Resplit2LeastFrequentPair.mkState [] (acc ++ segl :: rest)).
Proof.
  induction rest as [|r rest IH]; intros acc segl fuel Hfuel.
  - now rewrite while_nonempty_done.
  - destruct fuel as [|fuel]; [simpl in Hfuel; lia|].
    simpl in Hfuel.
    change (combine (removelast (segl :: r :: rest)) (r :: rest)) with
      ((segl, r) :: combine (removelast (r :: rest)) rest).
    cbn [existsb rev].
    rewrite while_nonempty_step by apply snoc_not_nil.
    unfold Resplit2LeastFrequentPair.split_body at 1.
    cbn [Resplit2LeastFrequentPair.segmentStack
         Resplit2LeastFrequentPair.mangledSegments].
    rewrite pop_app. cbn [Py.bind]. rewrite index_last. cbn [Py.bind].
    assert (Hnext :
      Py.bind (Ok (Resplit2LeastFrequentPair.mkState (rev rest)
                     ((acc ++ [segl]) ++ [r])))
        (Py.while_nonempty fuel Resplit2LeastFrequentPair.segmentStack
           (Resplit2LeastFrequentPair.split_body None))
      = if existsb reaches_lookup (combine (removelast (r :: rest)) rest)
        then Raise TypeError
        else Ok (Resplit2LeastFrequentPair.mkState []
                   (acc ++ segl :: r :: rest))).
    { cbn [Py.bind]. rewrite IH by lia. now rewrite <- app_assoc. }
    unfold reaches_lookup at 1.
    destruct (offset segl + length segl =? offset r) eqn:Eadj;
      [|cbn [andb orb]; exact Hnext].
    destruct (inner_boundaryb (data (message r)) (offset r)) eqn:Einner.
    + apply inner_boundaryb_spec in Einner.
      rewrite lookupLeastFrequent_inner by assumption.
      destruct (Resplit2LeastFrequentPair.windows (data (message r)) (offset r))
        as [[across before] after].
      reflexivity.
    + assert (Hout : ~ inner_boundary (data (message r)) (offset r)).
      { intros H. apply inner_boundaryb_spec in H. congruence. }
      rewrite lookupLeastFrequent_outer by assumption.
      cbn [Py.bind andb orb]. change (0 <? 0) with false.
      cbn [andb orb]. exact Hnext.
Qed.

(** C9 (amended): before [countPairFrequencies] has built the table, the
    resplit raises on an empty sequence (IndexError) and on every sequence
    with a byte-adjacent neighbouring pair whose boundary lies at least two
    bytes inside the message (TypeError, at the first table access); on
    every other sequence no window is ever looked up and the call returns
    its input unchanged. *)
Theorem Resplit2_split_unbuilt (segments : list MessageSegment) :
  Resplit2LeastFrequentPair.split None segments =
  match segments with
  | [] => Raise IndexError
  | _ :: _ =>
      if existsb reaches_lookup (combine (removelast segments) (tl segments))
      then Raise TypeError
      else Ok segments
  end.
Proof.
  unfold Resplit2LeastFrequentPair.split. rewrite slice_from_1.
  destruct segments as [|s rest]; [reflexivity|].
  rewrite index_head. cbn [Py.bind tl].
  destruct rest as [|r rest]; [reflexivity|].
  replace (1 <? Py.len (s :: r :: rest)) with true
    by (symmetry; apply Z.ltb_lt; rewrite !len_cons;
        pose proof (len_nonneg rest); lia).
  pose proof (split_loop_unbuilt (r :: rest) [] s
                (Datatypes.length (s :: r :: rest))) as H.
  cbn [app] in H. rewrite H by (simpl; lia).
  now destruct (existsb reaches_lookup
                  (combine (removelast (s :: r :: rest)) (r :: rest))).
Qed.

(** With no table built, the message "pqrs" cut in its middle is rejected
    at the first table access. *)
Lemma Resplit2_split_unbuilt_rejects :
  Resplit2LeastFrequentPair.split None segs_pqrs = Raise TypeError.
Proof. reflexivity. Qed.

(** C9, as stated for every segment sequence, fails: with no table built a
    one-segment sequence, and a sequence whose only boundary is one byte
    from the message start, are returned unchanged instead of being
    rejected. *)
Lemma Resplit2_split_unbuilt_accepts :
  Resplit2LeastFrequentPair.split None [mkSegment ana_abcd 0 4]
  = Ok [mkSegment ana_abcd 0 4] /\
  Resplit2LeastFrequentPair.split None
    [mkSegment ana_abcd 0 1; mkSegment ana_abcd 1 3]
  = Ok [mkSegment ana_abcd 0 1; mkSegment ana_abcd 1 3].
Proof. split; reflexivity. Qed.

(** C4 (amended): one iteration of the resplit, at a boundary between the
    finalized left segment and the next pending segment that are
    byte-adjacent, moves the boundary by a shift of -1, 0 or 1 and by
    nothing else.  The shift is 0 at a boundary less than two bytes from a
    message edge and whenever the across count is weakly the smallest; it is
    -1 exactly when the boundary is inner, the left segment has a byte to
    give, and the before count is strictly below the across count and not
    above the after count (a tie between before and after goes left); it is
    +1 exactly when the boundary is inner, the right segment has a byte to
    give and the after count is strictly the smallest. *)
Theorem Resplit2_boundary_rule
  (table : Counter.t) (stack acc : list MessageSegment)
  (segl segc : MessageSegment) (cAcross cBefore cAfter : Z) :
  offset segl + length segl = offset segc ->
  0 <= length segl -> 0 <= length segc ->
  window_counts table segc = (cAcross, cBefore, cAfter) ->
  exists shift : Z,
    Resplit2LeastFrequentPair.split_body (Some table)
      (Resplit2LeastFrequentPair.mkState (stack ++ [segc]) (acc ++ [segl]))
    = Ok (Resplit2LeastFrequentPair.mkState stack
            (acc ++ left_after segl shift ++ [right_after segc shift])) /\
    -1 <= shift <= 1 /\
    (~ inner_boundary (data (message segc)) (offset segc) -> shift = 0) /\
    (cAcross <= cBefore -> cAcross <= cAfter -> shift = 0) /\
    (shift = -1 <->
       inner_boundary (data (message segc)) (offset segc) /\
       0 < length segl /\ cBefore < cAcross /\ cBefore <= cAfter) /\
    (shift = 1 <->
       inner_boundary (data (message segc)) (offset segc) /\
       0 < length segc /\ cAfter < cAcross /\ cAfter < cBefore).
Proof.
  intros Hadj Hl Hc Hcounts.
  unfold Resplit2LeastFrequentPair.split_body.
  cbn [Resplit2LeastFrequentPair.segmentStack
       Resplit2LeastFrequentPair.mangledSegments].
  rewrite pop_app. cbn [Py.bind]. rewrite index_last. cbn [Py.bind].
  rewrite Hadj, Z.eqb_refl.
  destruct (inner_boundaryb (data (message segc)) (offset segc)) eqn:Einner.
  - apply inner_boundaryb_spec in Einner.
    rewrite lookupLeastFrequent_inner by assumption.
    unfold window_counts in Hcounts.
    destruct (Resplit2LeastFrequentPair.windows (data (message segc))
                (offset segc)) as [[across before] after].
    injection Hcounts as HA HB HAf.
    cbn [Resplit2LeastFrequentPair.lookup Py.bind]. rewrite HA, HB, HAf.
    destruct (Z.min (Z.min cAcross cBefore) cAfter =? cAcross) eqn:EA.
    { apply Z.eqb_eq in EA. exists 0. cbn [Py.bind].
      change (0 <? 0) with false. cbn [andb orb].
      unfold left_after, right_after. cbn. rewrite <- app_assoc.
      split_all. }
    apply Z.eqb_neq in EA.
    destruct (Z.min (Z.min cAcross cBefore) cAfter =? cBefore) eqn:EB.
    { apply Z.eqb_eq in EB. cbn [Py.bind].
      change (-1 <? 0) with true. change (0 <? -1) with false.
      cbn [andb orb]. rewrite orb_false_r.
      destruct (- length segl <=? -1) eqn:G.
      - apply Z.leb_le in G. exists (-1).
        unfold left_after, right_after. change (-1 =? 0) with false.
        cbv iota. change (- -1) with 1.
        replace (length segl + -1 =? 0) with (length segl =? 1)
          by (destruct (length segl =? 1) eqn:E1;
              [apply Z.eqb_eq in E1 | apply Z.eqb_neq in E1];
              symmetry; [apply Z.eqb_eq | apply Z.eqb_neq]; lia).
        destruct (length segl =? 1) eqn:E1; cbn [negb].
        + rewrite del_last_app. cbn [Py.bind app].
          split_all.
        + rewrite set_last_app.
          cbn [Py.bind]. rewrite <- app_assoc.
          split_all.
      - apply Z.leb_gt in G. exists 0.
        unfold left_after, right_after. cbn. rewrite <- app_assoc.
        split_all. }
    apply Z.eqb_neq in EB.
    destruct (Z.min (Z.min cAcross cBefore) cAfter =? cAfter) eqn:EAf;
      [|apply Z.eqb_neq in EAf; lia].
    apply Z.eqb_eq in EAf. cbn [Py.bind].
    change (1 <? 0) with false. change (0 <? 1) with true.
    cbn [andb orb].
    destruct (1 <=? length segc) eqn:G.
    + apply Z.leb_le in G. exists 1.
      unfold left_after, right_after. change (1 =? 0) with false.
      cbv iota. change (- (1)) with (-1).
      destruct (length segl =? -1) eqn:E1; [apply Z.eqb_eq in E1; lia|].
      destruct (length segl + 1 =? 0) eqn:E2; [apply Z.eqb_eq in E2; lia|].
      cbn [negb]. rewrite set_last_app.
      cbn [Py.bind]. rewrite <- app_assoc.
      split_all.
    + apply Z.leb_gt in G. exists 0.
      unfold left_after, right_after. cbn. rewrite <- app_assoc.
      split_all.
  - assert (Hout : ~ inner_boundary (data (message segc)) (offset segc)).
    { intros H. apply inner_boundaryb_spec in H. congruence. }
    rewrite lookupLeastFrequent_outer by assumption. exists 0.
    cbn [Py.bind]. change (0 <? 0) with false. cbn [andb orb].
    unfold left_after, right_after. cbn. rewrite <- app_assoc.
    split_all.
Qed.

Lemma Resplit2_boundary_rule_witness :
  exists shift : Z,
    Resplit2LeastFrequentPair.split_body (Some table_pqrs)
      (Resplit2LeastFrequentPair.mkState
         ([] ++ [mkSegment ana_pqrs 2 2]) ([] ++ [mkSegment ana_pqrs 0 2]))
    = Ok (Resplit2LeastFrequentPair.mkState []
            ([] ++ left_after (mkSegment ana_pqrs 0 2) shift
                ++ [right_after (mkSegment ana_pqrs 2 2) shift])) /\
    shift = -1.
Proof.
  destruct (Resplit2_boundary_rule table_pqrs [] []
              (mkSegment ana_pqrs 0 2) (mkSegment ana_pqrs 2 2) 3 1 1
              eq_refl ltac:(simpl; lia) ltac:(simpl; lia) eq_refl)
    as (shift & Hbody & _ & _ & _ & [_ Hleft] & _).
  exists shift. split; [exact Hbody|].
  apply Hleft. unfold inner_boundary. cbn. lia.
Defined.

(** C4, as stated, fails on a tie: at the boundary of the message "pqrs"
    the table built from the corpus counts the window across three times and
    the windows before and after once each, so the before count is not
    strictly the smallest, and the boundary is moved left by one byte. *)
Lemma Resplit2_tie_shifts_left :
  Resplit2LeastFrequentPair.countPairFrequencies corpus_pqrs = Ok table_pqrs /\
  window_counts table_pqrs (mkSegment ana_pqrs 2 2) = (3, 1, 1) /\
  Resplit2LeastFrequentPair.split (Some table_pqrs) segs_pqrs
  = Ok [mkSegment ana_pqrs 0 1; mkSegment ana_pqrs 1 3].
Proof. repeat split; reflexivity. Qed.

(** C5: on the message "abcdef" cut at 2 and 3, with the table built from
    the corpus, the window after the first boundary is the rarest, the
    boundary moves right and takes the only byte of the middle segment: the
    output holds a segment of length 0, against the invariant
    [length > 0]. *)
Theorem Resplit2_split_zero_length :
  Resplit2LeastFrequentPair.countPairFrequencies corpus_abcdef
  = Ok table_abcdef /\
  Forall seg_valid segs_abcdef /\
  Resplit2LeastFrequentPair.split (Some table_abcdef) segs_abcdef
  = Ok [mkSegment ana_abcdef 0 3; mkSegment ana_abcdef 3 0;
        mkSegment ana_abcdef 3 3].
Proof.
  split; [reflexivity|]. split; [|reflexivity].
  repeat constructor; cbn; lia.
Qed.

(** ** Cumulative char-run merger *)

Section CumulativeFacts.

Variable isExtendedCharSeq : bytes -> bool.

Lemma index_0_snoc {A : Type} (l : list A) (x : A) :
  exists first, Py.index (l ++ [x]) 0 = Ok first /\ hd x l = first.
Proof.
  destruct l as [|y l].
  - now exists x.
  - now exists y.
Qed.

Lemma len_snoc_gt_1 {A : Type} (l : list A) (x : A) :
  (1 <? Py.len (l ++ [x])) = negb (Nat.eqb (Datatypes.length l) 0).
Proof.
  rewrite len_app. change (Py.len [x]) with 1. unfold Py.len.
  destruct l as [|y l]; simpl Datatypes.length.
  - reflexivity.
  - apply Z.ltb_lt. lia.
Qed.

(** What one iteration does to the stack, the buffer and the output: it
    either moves the top of the stack into the buffer, or empties the
    buffer, emits exactly one segment and hands back at most as many
    segments as the buffer held before. *)
Lemma merge_body_cases (s : CumulativeCharMerger.state)
  (rest : list MessageSegment) (top : MessageSegment) :
  CumulativeCharMerger.segmentStack s = rest ++ [top] ->
  exists s',
    CumulativeCharMerger.merge_body isExtendedCharSeq s = Ok s' /\
    ((CumulativeCharMerger.segmentStack s' = rest /\
      CumulativeCharMerger.newmsg s' = CumulativeCharMerger.newmsg s /\
      CumulativeCharMerger.workingStack s'
      = CumulativeCharMerger.workingStack s ++ [top])
     \/
     (CumulativeCharMerger.workingStack s' = [] /\
      exists seg kept,
        CumulativeCharMerger.newmsg s' = CumulativeCharMerger.newmsg s ++ [seg] /\
        CumulativeCharMerger.segmentStack s' = rest ++ kept /\
        (Datatypes.length kept
         <= Datatypes.length (CumulativeCharMerger.workingStack s))%nat)).
Proof.
  intros Hstack. unfold CumulativeCharMerger.merge_body.
  rewrite Hstack, pop_app. cbn [Py.bind].
  set (ws := CumulativeCharMerger.workingStack s).
  destruct (CumulativeCharMerger.too_short (ws ++ [top]));
    [eexists; split; [reflexivity|left; auto]|].
  destruct (CumulativeCharMerger.char_test isExtendedCharSeq (ws ++ [top]));
    [eexists; split; [reflexivity|left; auto]|].
  destruct (index_0_snoc ws top) as (first & Hfirst & _).
  destruct (CumulativeCharMerger.isCharCand s).
  - unfold CumulativeCharMerger.merged. rewrite Hfirst, len_snoc_gt_1.
    rewrite index_last.
    destruct (2 <? Py.len (ws ++ [top])); cbn [Py.bind];
      destruct (Nat.eqb (Datatypes.length ws) 0) eqn:E; cbn [negb Py.bind];
      eexists; (split; [reflexivity|right]); cbn; (split; [reflexivity|]).
    + exists (mkSegment (analyzer first) (offset first)
               (Py.sum (map length (Py.slice (ws ++ [top]) None (Some (-1)))))),
             [].
      rewrite app_nil_r. repeat split. simpl. lia.
    + exists (mkSegment (analyzer first) (offset first)
               (Py.sum (map length (Py.slice (ws ++ [top]) None (Some (-1)))))),
             [top].
      repeat split. apply Nat.eqb_neq in E. simpl. lia.
    + exists first, []. rewrite app_nil_r. repeat split. simpl. lia.
    + exists first, [top]. repeat split. apply Nat.eqb_neq in E. simpl. lia.
  - rewrite Hfirst. cbn [Py.bind]. eexists. split; [reflexivity|right].
    cbn. split; [reflexivity|].
    exists first, (rev (Py.slice (ws ++ [top]) (Some 1) None)).
    repeat split. rewrite slice_from_1, length_rev.
    destruct ws as [|w ws']; simpl; [lia|]. rewrite length_app. simpl. lia.
Qed.

Lemma merge_body_decreases (s s' : CumulativeCharMerger.state) :
  CumulativeCharMerger.segmentStack s <> [] ->
  CumulativeCharMerger.merge_body isExtendedCharSeq s = Ok s' ->
  (remaining_work s' < remaining_work s)%nat.
Proof.
  intros Hne Hbody.
  destruct (CumulativeCharMerger.segmentStack s) as [|x l] eqn:Hs
    using rev_ind; [contradiction|]. clear IHl.
  destruct (merge_body_cases s l x Hs) as (s2 & Hb & Hcases).
  rewrite Hbody in Hb. injection Hb as <-.
  unfold remaining_work. rewrite Hs, length_app. simpl Datatypes.length.
  destruct Hcases as [(H1 & _ & H3) | (H1 & seg & kept & _ & H3 & H4)].
  - rewrite H1, H3, length_app. simpl Datatypes.length. nia.
  - rewrite H1, H3, length_app. simpl Datatypes.length. nia.
Qed.

(** With at least [remaining_work s] iterations allowed the loop ends in a
    state with an empty stack, whatever the budget beyond that. *)
Lemma merge_loop_terminates (fuel : nat) :
  forall s : CumulativeCharMerger.state,
    (remaining_work s <= fuel)%nat ->
    exists s',
      CumulativeCharMerger.segmentStack s' = [] /\
      forall fuel', (remaining_work s <= fuel')%nat ->
        Py.while_nonempty fuel' CumulativeCharMerger.segmentStack
          (CumulativeCharMerger.merge_body isExtendedCharSeq) s
        = Ok s'.
Proof.
  induction fuel as [|fuel IH]; intros s Hfuel.
  - exists s. unfold remaining_work in Hfuel.
    destruct (CumulativeCharMerger.segmentStack s) eqn:Hs;
      [|simpl in Hfuel; lia].
    split; [reflexivity|]. intros fuel' _. now apply while_nonempty_done.
  - destruct (CumulativeCharMerger.segmentStack s) as [|x l] eqn:Hs
      using rev_ind.
    + exists s. split; [assumption|]. intros fuel' _.
      now apply while_nonempty_done.
    + clear IHl.
      destruct (merge_body_cases s l x Hs) as (s2 & Hb & _).
      assert (Hne : CumulativeCharMerger.segmentStack s <> [])
        by (rewrite Hs; apply snoc_not_nil).
      pose proof (merge_body_decreases s s2 Hne Hb) as Hdec.
      destruct (IH s2 ltac:(lia)) as (s' & Hdone & Hrun).
      exists s'. split; [assumption|]. intros fuel' Hfuel'.
      destruct fuel' as [|fuel']; [lia|].
      rewrite while_nonempty_step by assumption.
      rewrite Hb. cbn [Py.bind]. apply Hrun. lia.
Qed.

Lemma merge_flush_ok (s : CumulativeCharMerger.state) :
  exists out, CumulativeCharMerger.merge_flush s = Ok out.
Proof.
  unfold CumulativeCharMerger.merge_flush, CumulativeCharMerger.merged.
  destruct (CumulativeCharMerger.workingStack s) as [|w ws].
  - simpl. eauto.
  - rewrite index_head.
    destruct ((1 <? Py.len (w :: ws)) && CumulativeCharMerger.isCharCand s);
      cbn [Py.bind]; eauto.
Qed.





End CumulativeFacts.

(** C10: [CumulativeCharMerger.merge] returns on every segment sequence.
    Every iteration of its loop either moves one segment from the stack to
    the buffer or empties the buffer, emits exactly one segment and hands
    back at most as many segments as the buffer held, so [remaining_work]
    decreases at every iteration; the loop ends within [(n + 1)^2]
    iterations for [n] segments and a larger budget does not change the
    result. *)
Theorem CumulativeCharMerger_merge_terminates
  (isExtendedCharSeq : bytes -> bool) (segments : list MessageSegment) :
  (exists out,
      CumulativeCharMerger.merge isExtendedCharSeq segments = Ok out /\
      forall fuel, (CumulativeCharMerger.budget segments <= fuel)%nat ->
        CumulativeCharMerger.merge_fuel isExtendedCharSeq fuel segments = Ok out) /\
  (forall s s',
      CumulativeCharMerger.segmentStack s <> [] ->
      CumulativeCharMerger.merge_body isExtendedCharSeq s = Ok s' ->
      (remaining_work s' < remaining_work s)%nat /\
      ((CumulativeCharMerger.newmsg s' = CumulativeCharMerger.newmsg s /\
        Datatypes.length (CumulativeCharMerger.workingStack s')
        = Datatypes.S (Datatypes.length (CumulativeCharMerger.workingStack s)))
       \/
       (CumulativeCharMerger.workingStack s' = [] /\
        Datatypes.length (CumulativeCharMerger.newmsg s')
        = Datatypes.S (Datatypes.length (CumulativeCharMerger.newmsg s))))).
Proof.
  split.
  - assert (Hwork : (remaining_work (CumulativeCharMerger.initial segments)
                     <= CumulativeCharMerger.budget segments)%nat).
    { unfold remaining_work, CumulativeCharMerger.budget,
        CumulativeCharMerger.initial. cbn. rewrite length_rev. nia. }
    destruct (merge_loop_terminates isExtendedCharSeq _ _ Hwork)
      as (s' & _ & Hrun).
    destruct (merge_flush_ok s') as (out & Hout).
    exists out. unfold CumulativeCharMerger.merge, CumulativeCharMerger.merge_fuel.
    split; [|intros fuel Hfuel]; rewrite Hrun by lia; exact Hout.
  - intros s s' Hne Hbody.
    split; [now apply (merge_body_decreases isExtendedCharSeq)|].
    destruct (CumulativeCharMerger.segmentStack s) as [|x l] eqn:Hs
      using rev_ind; [contradiction|]. clear IHl.
    destruct (merge_body_cases isExtendedCharSeq s l x Hs)
      as (s2 & Hb & Hcases).
    rewrite Hbody in Hb. injection Hb as <-.
    destruct Hcases as [(_ & H2 & H3) | (H1 & seg & kept & H2 & _)].
    + left. rewrite H2, H3, length_app. simpl. split; [reflexivity|lia].
    + right. rewrite H1, H2, length_app. simpl. split; [reflexivity|lia].
Qed.




(** The text run "ABCDEF", cut into three segments, is merged into one
    segment when the control bytes after it end the candidate. *)
Lemma CumulativeCharMerger_merge_text :
  CumulativeCharMerger.merge isPrintable segs_text
  = Ok [mkSegment ana_text 0 6; mkSegment ana_text 6 2].
Proof. reflexivity. Qed.

(** ** Common-value selection *)

Lemma bytes_eqb_spec (a b : bytes) : bytes_eqb a b = true <-> a = b.
Proof.
  unfold bytes_eqb. destruct (list_eq_dec Byte.byte_eq_dec a b).
  - tauto.
  - split; [discriminate|contradiction].
Qed.

Lemma bytes_eqb_refl (a : bytes) : bytes_eqb a a = true.
Proof. now apply bytes_eqb_spec. Qed.

Lemma bytes_eqb_neq (a b : bytes) : a <> b -> bytes_eqb a b = false.
Proof.
  intros H. destruct (bytes_eqb a b) eqn:E; [|reflexivity].
  apply bytes_eqb_spec in E. contradiction.
Qed.

Lemma occurrences_cons (x : bytes) (l : list bytes) (k : bytes) :
  occurrences (x :: l) k = occurrences l k + (if bytes_eqb x k then 1 else 0).
Proof.
  unfold occurrences, bytes_eqb. simpl.
  destruct (list_eq_dec Byte.byte_eq_dec x k); lia.
Qed.

Lemma occurrences_pos (l : list bytes) (k : bytes) :
  0 < occurrences l k <-> In k l.
Proof.
  unfold occurrences. rewrite (count_occ_In (list_eq_dec Byte.byte_eq_dec)).
  lia.
Qed.

Lemma Counter_get_add (c : Counter.t) (k k' : bytes) :
  Counter.get (Counter.add c k) k'
  = Counter.get c k' + (if bytes_eqb k k' then 1 else 0).
Proof.
  induction c as [|[k0 n] rest IH]; simpl.
  - destruct (bytes_eqb k k'); lia.
  - destruct (bytes_eqb k0 k) eqn:E0; simpl.
    + apply bytes_eqb_spec in E0. subst k0.
      destruct (bytes_eqb k k'); lia.
    + destruct (bytes_eqb k0 k') eqn:E1; [|exact IH].
      apply bytes_eqb_spec in E1. subst k0.
      destruct (bytes_eqb k k') eqn:E2; [|lia].
      apply bytes_eqb_spec in E2. subst k.
      rewrite bytes_eqb_refl in E0. discriminate.
Qed.

Lemma Counter_get_update (l : list bytes) :
  forall (c : Counter.t) (k : bytes),
    Counter.get (Counter.update c l) k = Counter.get c k + occurrences l k.
Proof.
  unfold Counter.update.
  induction l as [|x l IH]; intros c k; simpl.
  - unfold occurrences. simpl. lia.
  - rewrite IH, Counter_get_add, occurrences_cons. lia.
Qed.

Lemma Counter_add_keys (c : Counter.t) (k : bytes) :
  map fst (Counter.add c k)
  = if in_dec (list_eq_dec Byte.byte_eq_dec) k (map fst c)
    then map fst c else map fst c ++ [k].
Proof.
  induction c as [|[k0 n] rest IH]; simpl.
  - reflexivity.
  - destruct (bytes_eqb k0 k) eqn:E0; simpl.
    + apply bytes_eqb_spec in E0. subst k0.
      destruct (list_eq_dec Byte.byte_eq_dec k k); [reflexivity|contradiction].
    + rewrite IH.
      destruct (list_eq_dec Byte.byte_eq_dec k0 k) as [->|Hne].
      * rewrite bytes_eqb_refl in E0. discriminate.
      * now destruct (in_dec (list_eq_dec Byte.byte_eq_dec) k (map fst rest)).
Qed.

Lemma NoDup_snoc {A : Type} (l : list A) (x : A) :
  NoDup l -> ~ In x l -> NoDup (l ++ [x]).
Proof.
  intros Hl Hx. induction Hl as [|y l Hy Hl IH]; simpl.
  - repeat constructor. intros [].
  - constructor.
    + rewrite in_app_iff. simpl. intros [H|[H|[]]]; [contradiction|].
      subst. apply Hx. now left.
    + apply IH. intros H. apply Hx. now right.
Qed.

Lemma Counter_update_NoDup (l : list bytes) :
  forall c : Counter.t,
    NoDup (map fst c) -> NoDup (map fst (Counter.update c l)).
Proof.
  unfold Counter.update.
  induction l as [|x l IH]; intros c Hc; simpl; [assumption|].
  apply IH. rewrite Counter_add_keys.
  destruct (in_dec (list_eq_dec Byte.byte_eq_dec) x (map fst c));
    [assumption|now apply NoDup_snoc].
Qed.

Lemma Counter_in_get (c : Counter.t) (k : bytes) (n : Z) :
  NoDup (map fst c) -> In (k, n) c -> Counter.get c k = n.
Proof.
  induction c as [|[k0 n0] rest IH]; simpl; intros Hnd Hin; [contradiction|].
  inversion Hnd as [|? ? Hk0 Hrest]; subst.
  destruct Hin as [[= -> ->]|Hin].
  - now rewrite bytes_eqb_refl.
  - rewrite bytes_eqb_neq; [now apply IH|].
    intros ->. apply Hk0. apply in_map_iff. now exists (k, n).
Qed.

Lemma Counter_get_in (c : Counter.t) (k : bytes) :
  Counter.get c k <> 0 -> In (k, Counter.get c k) c.
Proof.
  induction c as [|[k0 n0] rest IH]; simpl; intros H; [contradiction|].
  destruct (bytes_eqb k0 k) eqn:E.
  - apply bytes_eqb_spec in E. subst. now left.
  - right. now apply IH.
Qed.

Lemma Counter_add_positive (c : Counter.t) (k : bytes) :
  Forall (fun e => 0 < snd e) c ->
  Forall (fun e => 0 < snd e) (Counter.add c k).
Proof.
  induction 1 as [|[k0 n] rest Hn Hrest IH]; simpl.
  - repeat constructor.
  - simpl in Hn. destruct (bytes_eqb k0 k); constructor; simpl;
      try assumption; lia.
Qed.

Lemma Counter_update_positive (l : list bytes) :
  forall c : Counter.t,
    Forall (fun e => 0 < snd e) c ->
    Forall (fun e => 0 < snd e) (Counter.update c l).
Proof.
  unfold Counter.update.
  induction l as [|x l IH]; intros c Hc; simpl; [assumption|].
  apply IH. now apply Counter_add_positive.
Qed.

(** The entries of [Counter(l)] are the values of [l] with the number of
    their occurrences. *)
Lemma Counter_of_list_entries (l : list bytes) (k : bytes) (n : Z) :
  In (k, n) (Counter.of_list l) <-> n = occurrences l k /\ 0 < n.
Proof.
  unfold Counter.of_list.
  pose proof (Counter_update_NoDup l [] (NoDup_nil _)) as Hnd.
  pose proof (Counter_update_positive l [] (Forall_nil _)) as Hpos.
  pose proof (Counter_get_update l [] k) as Hget. simpl in Hget.
  split.
  - intros Hin. pose proof (Counter_in_get _ _ _ Hnd Hin) as H.
    split; [congruence|].
    rewrite Forall_forall in Hpos. exact (Hpos _ Hin).
  - intros [-> Hn]. rewrite <- Hget. apply Counter_get_in. lia.
Qed.

Lemma Counter_insert_In (e x : bytes * Z) (l : Counter.t) :
  In e (Counter.insert x l) <-> e = x \/ In e l.
Proof.
  induction l as [|y l IH]; simpl.
  - intuition congruence.
  - destruct (snd y <=? snd x); simpl; [intuition congruence|].
    rewrite IH. intuition congruence.
Qed.

Lemma Counter_most_common_In (e : bytes * Z) (c : Counter.t) :
  In e (Counter.most_common c) <-> In e c.
Proof.
  unfold Counter.most_common.
  induction c as [|x c IH]; simpl; [tauto|].
  rewrite Counter_insert_In, IH. intuition congruence.
Qed.

Lemma Counter_insert_sorted (x : bytes * Z) (l : Counter.t) :
  StronglySorted (fun a b => snd b <= snd a) l ->
  StronglySorted (fun a b => snd b <= snd a) (Counter.insert x l).
Proof.
  induction 1 as [|y l Hl IH Hy]; simpl.
  - repeat constructor.
  - destruct (snd y <=? snd x) eqn:E.
    + apply Z.leb_le in E. constructor; [now constructor|].
      constructor; [assumption|].
      rewrite Forall_forall in *. intros z Hz. specialize (Hy z Hz). lia.
    + apply Z.leb_gt in E. constructor; [assumption|].
      rewrite Forall_forall in *. intros z Hz.
      apply Counter_insert_In in Hz. destruct Hz as [->|Hz]; [lia|auto].
Qed.

(** [most_common] lists the entries by descending count. *)
Lemma Counter_most_common_sorted (c : Counter.t) :
  StronglySorted (fun a b => snd b <= snd a) (Counter.most_common c).
Proof.
  unfold Counter.most_common.
  induction c as [|x c IH]; simpl; [constructor|].
  now apply Counter_insert_sorted.
Qed.

Lemma filter_none {A : Type} (f : A -> bool) (l : list A) :
  Forall (fun x => f x = false) l -> filter f l = [].
Proof.
  induction 1 as [|x l Hx Hl IH]; simpl; [reflexivity|]. now rewrite Hx.
Qed.

(** On a list sorted by descending count the prefix the threshold loop
    stops at holds exactly the entries above the threshold. *)
Lemma thre_loop_prefix (nmsgs : Z) (l : Counter.t) :
  StronglySorted (fun a b => snd b <= snd a) l ->
  forall thre : Z,
    thre <= CropDistinct.thre_loop nmsgs l thre /\
    firstn (Z.to_nat (CropDistinct.thre_loop nmsgs l thre - thre)) l
    = filter (fun e => CropDistinct.above_threshold (snd e) nmsgs) l.
Proof.
  induction 1 as [|[k ct] l Hl IH Hhead]; intros thre; simpl.
  - split; [lia|]. now rewrite firstn_nil.
  - destruct (CropDistinct.above_threshold ct nmsgs) eqn:E.
    + destruct (IH (thre + 1)) as [Hle Heq]. split; [lia|].
      replace (Z.to_nat (CropDistinct.thre_loop nmsgs l (thre + 1) - thre))
        with (S (Z.to_nat (CropDistinct.thre_loop nmsgs l (thre + 1)
                           - (thre + 1)))) by lia.
      simpl. now rewrite Heq.
    + split; [lia|]. rewrite Z.sub_diag. simpl. symmetry.
      apply filter_none. rewrite Forall_forall in *.
      intros e He. specialize (Hhead e He). simpl in Hhead.
      unfold CropDistinct.above_threshold in *. simpl in *.
      apply Z.ltb_ge in E. apply Z.ltb_ge. lia.
Qed.

Lemma not_only_zero_spec (fv : bytes) :
  CropDistinct.not_only_zero fv = true <->
  fv = [] \/ exists b, In b fv /\ int_of_byte b <> 0.
Proof.
  unfold CropDistinct.not_only_zero. destruct fv as [|b0 fv].
  - simpl. split; auto.
  - rewrite negb_true_iff. split.
    + intros H. right.
      destruct (forallb (fun b => int_of_byte b =? 0) (b0 :: fv)) eqn:E;
        [discriminate|].
      assert (Hex : existsb (fun b => negb (int_of_byte b =? 0)) (b0 :: fv)
                    = true).
      { clear H. induction (b0 :: fv) as [|x l IH]; [discriminate|].
        simpl in *. destruct (int_of_byte x =? 0); simpl; auto. }
      apply existsb_exists in Hex. destruct Hex as (b & Hin & Hb).
      exists b. split; [assumption|].
      apply negb_true_iff, Z.eqb_neq in Hb. exact Hb.
    + intros [H|(b & Hin & Hb)]; [discriminate|].
      destruct (forallb (fun b => int_of_byte b =? 0) (b0 :: fv)) eqn:E;
        [|reflexivity].
      rewrite forallb_forall in E. specialize (E b Hin).
      apply Z.eqb_eq in E. contradiction.
Qed.

Lemma starts_with_spec (sub bstring : bytes) :
  starts_with sub bstring = true <-> exists post, bstring = sub ++ post.
Proof.
  revert bstring. induction sub as [|c sub IH]; intros bstring; simpl.
  - split; [intros _; now exists bstring|reflexivity].
  - destruct bstring as [|b bstring].
    + split; [discriminate|]. intros (post & H). discriminate.
    + rewrite andb_true_iff, IH. split.
      * intros (Hc & post & ->). apply Byte.byte_dec_bl in Hc. subst.
        now exists post.
      * intros (post & [= -> ->]). split; [now apply Byte.byte_dec_lb|].
        now exists post.
Qed.

Lemma find_from_spec (sub : bytes) (bstring : bytes) :
  forall i : Z,
    0 <= i ->
    (-1 < find_from i bstring sub <-> substring sub bstring) /\
    (find_from i bstring sub = -1 \/ i <= find_from i bstring sub).
Proof.
  induction bstring as [|b rest IH]; intros i Hi; simpl.
  - destruct (starts_with sub []) eqn:E.
    + split; [|right; lia]. split; [intros _|lia].
      apply starts_with_spec in E. destruct E as (post & E).
      now exists [], post.
    + split; [|now left]. split; [lia|].
      intros (pre & post & H).
      destruct pre; [|discriminate]. destruct sub; [discriminate E|discriminate].
  - destruct (starts_with sub (b :: rest)) eqn:E.
    + split; [|right; lia]. split; [intros _|lia].
      apply starts_with_spec in E. destruct E as (post & E).
      now exists [], post.
    + destruct (IH (i + 1) ltac:(lia)) as [Hsub Hrange].
      split; [|destruct Hrange; [now left|right; lia]].
      rewrite Hsub. split.
      * intros (pre & post & ->). now exists (b :: pre), post.
      * intros (pre & post & H). destruct pre as [|p pre].
        -- simpl in H.
           assert (starts_with sub (b :: rest) = true)
             by (apply starts_with_spec; now exists post).
           congruence.
        -- injection H as -> ->. now exists pre, post.
Qed.

(** [m.find(c) > -1] says that [c] occurs in [m]. *)
Lemma find_substring (m c : bytes) : -1 < find m c <-> substring c m.
Proof. unfold find. now apply find_from_spec. Qed.

Lemma has_no_common_part_spec (moco : list bytes) (m : bytes) :
  CropDistinct.has_no_common_part moco m = true <->
  forall c, In c moco -> c <> m -> ~ substring c m.
Proof.
  unfold CropDistinct.has_no_common_part. rewrite negb_true_iff. split.
  - intros H c Hc Hne Hsub.
    assert (Hex : existsb (fun c => negb (bytes_eqb m c) && (-1 <? find m c))
                    moco = true).
    { apply existsb_exists. exists c. split; [assumption|].
      rewrite bytes_eqb_neq by congruence. simpl.
      apply Z.ltb_lt. now apply find_substring. }
    congruence.
  - intros H.
    destruct (existsb (fun c => negb (bytes_eqb m c) && (-1 <? find m c)) moco)
      eqn:E; [|reflexivity].
    apply existsb_exists in E. destruct E as (c & Hc & Hcond).
    apply andb_true_iff in Hcond. destruct Hcond as [Hne Hfind].
    apply negb_true_iff in Hne. apply Z.ltb_lt, find_substring in Hfind.
    exfalso. apply (H c Hc); [|assumption].
    intros ->. rewrite bytes_eqb_refl in Hne. discriminate.
Qed.

(** The candidates [moco]: the values that occur more often than a tenth of
    the number of messages, hold a byte other than zero and are at least
    [minSegmentLength] long. *)
Lemma frequentValues_In (segmentedMessages : list (list MessageSegment))
  (m : bytes) :
  In m (CropDistinct.frequentValues segmentedMessages) <->
  Py.len segmentedMessages
  < 10 * occurrences (map seg_bytes (concat segmentedMessages)) m /\
  (exists b, In b m /\ int_of_byte b <> 0) /\
  CropDistinct.minSegmentLength <= Py.len m.
Proof.
  unfold CropDistinct.frequentValues.
  set (all := map seg_bytes (concat segmentedMessages)).
  set (n := Py.len segmentedMessages).
  pose proof (Counter_most_common_sorted (Counter.of_list all)) as Hsorted.
  destruct (thre_loop_prefix n _ Hsorted 0) as [Hle Hprefix].
  rewrite Z.sub_0_r in Hprefix.
  rewrite slice_upto, Hprefix by assumption.
  rewrite in_map_iff. unfold CropDistinct.minSegmentLength. split.
  - intros ([k ct] & Hk & Hin). simpl in Hk. subst k.
    apply filter_In in Hin. destruct Hin as [Hin Hcond].
    apply filter_In in Hin. destruct Hin as [Hin Habove].
    apply Counter_most_common_In, Counter_of_list_entries in Hin.
    destruct Hin as [-> Hpos]. simpl in Hcond, Habove.
    apply andb_true_iff in Hcond. destruct Hcond as [Hnz Hlen].
    apply Z.leb_le in Hlen.
    unfold CropDistinct.above_threshold, CropDistinct.frequencyThreshold in Habove.
    cbn [fst snd] in Habove.
    apply Z.ltb_lt in Habove.
    split; [lia|]. split; [|assumption].
    apply not_only_zero_spec in Hnz. destruct Hnz as [->|Hnz]; [|assumption].
    cbn in Hlen. lia.
  - intros (Habove & Hnz & Hlen).
    exists (m, occurrences all m). split; [reflexivity|].
    pose proof (len_nonneg segmentedMessages) as Hn. fold n in Hn.
    apply filter_In. split.
    + apply filter_In. split.
      * apply Counter_most_common_In, Counter_of_list_entries. split; lia.
      * unfold CropDistinct.above_threshold, CropDistinct.frequencyThreshold.
        cbn [fst snd]. apply Z.ltb_lt. lia.
    + simpl. apply andb_true_iff. split.
      * apply not_only_zero_spec. now right.
      * now apply Z.leb_le.
Qed.

(** C3 (amended): a byte value is a candidate exactly when it occurs more
    often than [frequencyThreshold] (a tenth) times the number of messages,
    is not made of zero bytes only and is at least [minSegmentLength] (2)
    long; from the candidates, every value that contains another candidate
    as a strict substring is dropped (the shorter value is kept, not the
    longer one), so that in the final list no value is a substring of
    another listed value. *)
Theorem countCommonValues_selection
  (segmentedMessages : list (list MessageSegment)) :
  (forall m,
      In m (CropDistinct.frequentValues segmentedMessages) <->
      Py.len segmentedMessages
      < 10 * occurrences (map seg_bytes (concat segmentedMessages)) m /\
      (exists b, In b m /\ int_of_byte b <> 0) /\
      CropDistinct.minSegmentLength <= Py.len m) /\
  (forall m,
      In m (CropDistinct.countCommonValues segmentedMessages) <->
      In m (CropDistinct.frequentValues segmentedMessages) /\
      forall c, In c (CropDistinct.frequentValues segmentedMessages) ->
                c <> m -> ~ substring c m) /\
  (forall m c,
      In m (CropDistinct.countCommonValues segmentedMessages) ->
      In c (CropDistinct.countCommonValues segmentedMessages) ->
      c <> m -> ~ substring c m).
Proof.
  assert (Hfilter : forall m,
             In m (CropDistinct.countCommonValues segmentedMessages) <->
             In m (CropDistinct.frequentValues segmentedMessages) /\
             forall c, In c (CropDistinct.frequentValues segmentedMessages) ->
                       c <> m -> ~ substring c m).
  { intros m. unfold CropDistinct.countCommonValues.
    now rewrite filter_In, has_no_common_part_spec. }
  split; [apply frequentValues_In|]. split; [exact Hfilter|].
  intros m c Hm Hc. apply Hfilter in Hm, Hc.
  destruct Hm as [_ Hm], Hc as [Hc _]. now apply Hm.
Qed.

(** C3, as stated, fails: in the corpus of one message "abcdbc" cut into
    "abcd" and "bc" both values are candidates; "bc", a strict substring of
    the candidate "abcd", is kept, and "abcd" is the one that is dropped. *)
Lemma countCommonValues_keeps_substring :
  CropDistinct.frequentValues corpus_abcdbc
  = [[x61; x62; x63; x64]; [x62; x63]] /\
  CropDistinct.countCommonValues corpus_abcdbc = [[x62; x63]].
Proof. split; reflexivity. Qed.

(** ** Split relocation *)

(** C1: [RelocateSplits.split] enters its loop only for more than one
    segment and returns the list it fills in the loop, so a sequence of one
    segment comes back as the empty list, whatever the two relocation
    functions are.  For the valid segment covering the message "abcd" the
    output of [ResplitConsecutiveChars.split] has no bytes while the input
    has four: the bytes are dropped, against byte preservation. *)
Theorem RelocateSplits_split_single_drops :
  (forall (toTheLeft toTheRight : MessageSegment -> Z) (seg : MessageSegment),
      RelocateSplits.split toTheLeft toTheRight [seg] = Ok []) /\
  seg_valid (mkSegment ana_abcd 0 4) /\
  exists out,
    ResplitConsecutiveChars.split [mkSegment ana_abcd 0 4] = Ok out /\
    join_bytes [mkSegment ana_abcd 0 4] = [x61; x62; x63; x64] /\
    join_bytes out = [] /\
    join_bytes out <> join_bytes [mkSegment ana_abcd 0 4].
Proof.
  split; [reflexivity|]. split; [cbv; intuition discriminate|].
  exists []. repeat split; try reflexivity. discriminate.
Qed.

(** ** Byte preservation

    The passes other than [RelocateSplits.split] on a lone segment keep the
    bytes of a sequence whose segments lie inside one message. *)

Lemma join_bytes_app (l1 l2 : list MessageSegment) :
  join_bytes (l1 ++ l2) = join_bytes l1 ++ join_bytes l2.
Proof. unfold join_bytes. now rewrite map_app, concat_app. Qed.

Lemma join_bytes_cons (s : MessageSegment) (l : list MessageSegment) :
  join_bytes (s :: l) = seg_bytes s ++ join_bytes l.
Proof. reflexivity. Qed.

Lemma seg_bytes_within (d : bytes) (seg : MessageSegment) :
  within d seg ->
  seg_bytes seg = Py.slice d (Some (offset seg)) (Some (offset seg + length seg)).
Proof. intros (Hd & _). unfold seg_bytes, nextOffset. now rewrite Hd. Qed.

Lemma len_seg_bytes (d : bytes) (seg : MessageSegment) :
  within d seg -> Py.len (seg_bytes seg) = length seg.
Proof.
  intros H. rewrite (seg_bytes_within d seg H).
  destruct H as (_ & Ho & Hl & Hn). unfold nextOffset in Hn.
  rewrite len_slice_inside; lia.
Qed.

Lemma within_mk (d : bytes) (seg : MessageSegment) (o l : Z) :
  within d seg -> 0 <= o -> 0 <= l -> o + l <= Py.len d ->
  within d (mkSegment (analyzer seg) o l).
Proof.
  intros (Hd & _) Ho Hl Hn. unfold within, message, nextOffset in *.
  cbn [analyzer offset length]. auto.
Qed.

Lemma sum_nonneg (l : list Z) : Forall (fun x => 0 <= x) l -> 0 <= Py.sum l.
Proof.
  induction 1 as [|x l Hx Hl IH].
  - reflexivity.
  - rewrite sum_cons. lia.
Qed.

Lemma lengths_nonneg (d : bytes) (run : list MessageSegment) :
  Forall (within d) run -> 0 <= Py.sum (map length run).
Proof.
  intros H. apply sum_nonneg. rewrite Forall_map.
  eapply Forall_impl; [|exact H]. intros s (_ & _ & Hl & _). exact Hl.
Qed.

Lemma gapless_tail (a : MessageSegment) (rest : list MessageSegment) :
  gapless (a :: rest) -> gapless rest.
Proof. destruct rest as [|b rest]; simpl; tauto. Qed.

(** The bytes of a gapless run are one slice of the message, and the run
    ends inside the message. *)
Lemma gapless_run_bytes (d : bytes) (run : list MessageSegment) :
  Forall (within d) run -> gapless run ->
  forall (first : MessageSegment) (rest : list MessageSegment),
    run = first :: rest ->
    join_bytes run
    = Py.slice d (Some (offset first))
        (Some (offset first + Py.sum (map length run))) /\
    offset first + Py.sum (map length run) <= Py.len d.
Proof.
  induction 1 as [|a run Ha Hrun IH]; intros Hgap first rest E; [discriminate|].
  injection E as <- <-. cbn [map]. rewrite sum_cons, join_bytes_cons.
  rewrite (seg_bytes_within d a Ha).
  pose proof Ha as (_ & Ho & Hl & Hn). unfold nextOffset in Hn.
  destruct run as [|b run].
  - change (Py.sum (map length [])) with 0.
    change (join_bytes []) with (@nil byte).
    rewrite app_nil_r, Z.add_0_r. split; [reflexivity|lia].
  - destruct Hgap as [Hadj Hgap]. unfold nextOffset in Hadj.
    destruct (IH Hgap b run eq_refl) as [Hbytes Hend].
    pose proof (lengths_nonneg d (b :: run) Hrun) as Hsum.
    rewrite Hbytes, <- Hadj.
    rewrite slice_join by lia.
    split; [f_equal; f_equal; lia|lia].
Qed.

(** One segment spanning a gapless run holds the bytes of the run. *)
Lemma spanning_segment_bytes (d : bytes) (first : MessageSegment)
  (rest : list MessageSegment) :
  Forall (within d) (first :: rest) -> gapless (first :: rest) ->
  within d (mkSegment (analyzer first) (offset first)
              (Py.sum (map length (first :: rest)))) /\
  seg_bytes (mkSegment (analyzer first) (offset first)
               (Py.sum (map length (first :: rest))))
  = join_bytes (first :: rest).
Proof.
  intros Hin Hgap.
  destruct (gapless_run_bytes d _ Hin Hgap first rest eq_refl) as [Hb Hend].
  pose proof (lengths_nonneg d _ Hin) as Hsum.
  inversion Hin as [|? ? Hfirst _]; subst.
  assert (Hw : within d (mkSegment (analyzer first) (offset first)
                           (Py.sum (map length (first :: rest))))).
  { apply within_mk; try assumption. now destruct Hfirst as (_ & Ho & _). }
  split; [exact Hw|].
  rewrite (seg_bytes_within d _ Hw). cbn [offset length]. now rewrite Hb.
Qed.

Lemma chain_gapless (condition : MessageSegment -> MessageSegment -> bool)
  (run : list MessageSegment) :
  chain condition run -> gapless run.
Proof.
  induction 1 as [s|s r run Hlink Hchain IH]; [exact I|].
  split; [|exact IH].
  unfold linked in Hlink. apply andb_true_iff in Hlink.
  destruct Hlink as [Hadj _]. now apply Z.eqb_eq in Hadj.
Qed.

Lemma collapse_runs_bytes (condition : MessageSegment -> MessageSegment -> bool)
  (d : bytes) (rs : list (list MessageSegment)) :
  Forall (chain condition) rs -> Forall (within d) (concat rs) ->
  join_bytes (flat_map collapse rs) = join_bytes (concat rs) /\
  Forall (within d) (flat_map collapse rs).
Proof.
  induction 1 as [|run rs Hrun Hrs IH]; intros Hin; simpl.
  - split; [reflexivity|constructor].
  - simpl in Hin. apply Forall_app in Hin. destruct Hin as [Hin1 Hin2].
    destruct (IH Hin2) as [IHb IHw].
    pose proof (chain_gapless _ _ Hrun) as Hgap.
    destruct run as [|first rest]; [inversion Hrun|].
    destruct (spanning_segment_bytes d first rest Hin1 Hgap) as [Hw Hb].
    rewrite !join_bytes_app, IHb.
    change (join_bytes (collapse (first :: rest))) with
      (seg_bytes (mkSegment (analyzer first) (offset first)
                    (Py.sum (map length (first :: rest)))) ++ []).
    rewrite app_nil_r, Hb. split; [reflexivity|].
    apply Forall_app. split; [|exact IHw].
    constructor; [exact Hw|constructor].
Qed.

(** X8: byte preservation of [Merger.merge], whatever the condition: on
    segments inside one message the call returns, its output has the bytes
    of its input, and every output segment lies inside the message. *)
Lemma Merger_merge_bytes (condition : MessageSegment -> MessageSegment -> bool)
  (d : bytes) (segments : list MessageSegment) :
  Forall (within d) segments ->
  exists out,
    Merger.merge condition segments = Ok out /\
    join_bytes out = join_bytes segments /\
    Forall (within d) out.
Proof.
  intros Hin. exists (merge_runs condition segments).
  split; [apply merge_is_merge_runs|].
  unfold merge_runs.
  pose proof (runs_chain condition segments) as Hchain.
  pose proof (concat_runs condition segments) as Hcat.
  rewrite <- Hcat in Hin.
  destruct (collapse_runs_bytes condition d _ Hchain Hin) as [Hb Hw].
  rewrite Hb, Hcat. now split.
Qed.

(** *** Fixed-length splitter *)

Lemma full_chunks_bytes (d : bytes) (ana : MessageAnalyzer) (off c : Z) :
  data (ana_message ana) = d -> 0 <= off -> 0 <= c ->
  forall n : nat,
    join_bytes (map (fun k => mkSegment ana (off + Z.of_nat k * c) c) (seq 0 n))
    = Py.slice d (Some off) (Some (off + Z.of_nat n * c)).
Proof.
  intros Hd Hoff Hc. induction n as [|n IH].
  - simpl. rewrite Z.add_0_r. symmetry. now apply slice_empty.
  - rewrite seq_S, map_app, join_bytes_app, IH. cbn [map Nat.add].
    unfold join_bytes. cbn [map concat]. rewrite app_nil_r.
    unfold seg_bytes, nextOffset, message. cbn [analyzer offset length].
    rewrite Hd, slice_join by nia. do 2 f_equal. lia.
Qed.

Lemma fixed_chunks_bytes (d : bytes) (ana : MessageAnalyzer) (off L c : Z) :
  data (ana_message ana) = d -> 0 <= off -> 0 < c -> 0 <= L ->
  join_bytes (fixed_chunks ana off L c) = Py.slice d (Some off) (Some (off + L)).
Proof.
  intros Hd Hoff Hc HL. unfold fixed_chunks.
  pose proof (Z.div_mod L c ltac:(lia)) as Hdm.
  pose proof (Z.mod_pos_bound L c Hc) as Hr.
  pose proof (Z.div_pos L c HL Hc) as Hq.
  rewrite join_bytes_app, (full_chunks_bytes d) by (assumption || lia).
  rewrite Z2Nat.id by assumption.
  destruct (L mod c =? 0) eqn:E.
  - apply Z.eqb_eq in E. change (join_bytes []) with (@nil byte).
    rewrite app_nil_r. do 2 f_equal. lia.
  - unfold join_bytes. cbn [map concat]. rewrite app_nil_r.
    unfold seg_bytes, nextOffset, message. cbn [analyzer offset length].
    rewrite Hd, slice_join by nia. do 2 f_equal. lia.
Qed.

Lemma nth_error_split_at {A : Type} (l : list A) (n : nat) (x : A) :
  nth_error l n = Some x -> l = firstn n l ++ x :: skipn (S n) l.
Proof.
  revert l. induction n as [|n IH]; intros [|y l] H; try discriminate.
  - now injection H as ->.
  - simpl in H. simpl. f_equal. now apply IH.
Qed.

(** X9: byte preservation of [SplitFixed.split] for an index inside the
    sequence and a chunk length that is positive or not smaller than the
    target: the call returns and its output has the bytes of its input. *)
Lemma SplitFixed_split_bytes (d : bytes) (segments : list MessageSegment)
  (segmentID chunkLength : Z) (selSeg : MessageSegment) :
  0 <= segmentID ->
  nth_error segments (Z.to_nat segmentID) = Some selSeg ->
  within d selSeg ->
  0 < chunkLength \/ length selSeg <= chunkLength ->
  exists out,
    SplitFixed.split segments segmentID chunkLength = Ok out /\
    join_bytes out = join_bytes segments.
Proof.
  intros Hid Hsel Hw Hc. unfold SplitFixed.split.
  rewrite index_nonneg, Hsel by assumption. cbn [Py.bind].
  destruct (chunkLength <? length selSeg) eqn:E;
    [|exists segments; now split].
  apply Z.ltb_lt in E. pose proof Hw as (Hd & Ho & Hl & Hn).
  unfold nextOffset.
  destruct (range_chunks (analyzer selSeg) (offset selSeg) (length selSeg)
              chunkLength) as (offs & Hr & Hm); [lia|lia|].
  rewrite Hr. cbn [Py.bind]. rewrite Hm. eexists. split; [reflexivity|].
  rewrite slice_upto, slice_from by lia.
  replace (Z.to_nat (segmentID + 1)) with (S (Z.to_nat segmentID)) by lia.
  rewrite (nth_error_split_at segments _ _ Hsel) at 3.
  rewrite !join_bytes_app, (join_bytes_cons selSeg).
  rewrite (fixed_chunks_bytes d) by (assumption || lia).
  now rewrite (seg_bytes_within d selSeg Hw).
Qed.

(** *** Common-value cropper *)

Lemma Forall_one {A : Type} (P : A -> Prop) (x : A) : P x -> Forall P [x].
Proof. intros H. constructor; [exact H|constructor]. Qed.

Lemma find_from_bounds (sub bstring : bytes) :
  forall i : Z,
    find_from i bstring sub = -1 \/
    (i <= find_from i bstring sub /\
     find_from i bstring sub - i + Py.len sub <= Py.len bstring).
Proof.
  induction bstring as [|b rest IH]; intros i; simpl.
  - destruct (starts_with sub []) eqn:E; [|now left].
    right. apply starts_with_spec in E. destruct E as (post & E).
    destruct sub; [|discriminate]. cbn. lia.
  - destruct (starts_with sub (b :: rest)) eqn:E.
    + right. apply starts_with_spec in E. destruct E as (post & E).
      rewrite E, len_app. pose proof (len_nonneg post). lia.
    + destruct (IH (i + 1)) as [H|[H1 H2]]; [now left|right].
      rewrite len_cons. lia.
Qed.

Lemma crop_bytes (d : bytes) (seg : MessageSegment) (moco : list bytes) :
  within d seg ->
  forall added,
    CropDistinct.crop seg moco = Some added ->
    join_bytes added = seg_bytes seg /\ Forall (within d) added.
Proof.
  intros Hw. induction moco as [|comfeat rest IH]; intros added; simpl;
    [discriminate|].
  destruct (find (seg_bytes seg) comfeat =? -1) eqn:Enot; [apply IH|].
  apply Z.eqb_neq in Enot.
  destruct (find_from_bounds comfeat (seg_bytes seg) 0) as [H|[Hlo Hhi]];
    [contradiction|].
  fold (find (seg_bytes seg) comfeat) in Hlo, Hhi.
  set (comoff := find (seg_bytes seg) comfeat) in *.
  rewrite (len_seg_bytes d seg Hw) in Hhi.
  pose proof (len_nonneg comfeat) as Hfeat.
  set (featlen := Py.len comfeat) in *.
  destruct (length seg =? featlen) eqn:Esame.
  { intros [= <-]. split; [|now apply Forall_one].
    unfold join_bytes. simpl. apply app_nil_r. }
  pose proof Hw as (Hd & Ho & Hl & Hn). unfold nextOffset in Hn.
  intros [= <-].
  assert (Hleft :
    join_bytes (if 0 <? comoff
                then [mkSegment (analyzer seg) (offset seg) comoff] else [])
    = Py.slice d (Some (offset seg)) (Some (offset seg + comoff)) /\
    Forall (within d)
      (if 0 <? comoff
       then [mkSegment (analyzer seg) (offset seg) comoff] else [])).
  { destruct (0 <? comoff) eqn:E.
    - assert (Hw' : within d (mkSegment (analyzer seg) (offset seg) comoff))
        by (apply within_mk; (assumption || lia)).
      split; [|now apply Forall_one].
      unfold join_bytes. cbn [map concat].
      now rewrite app_nil_r, (seg_bytes_within d _ Hw').
    - apply Z.ltb_ge in E. assert (comoff = 0) as -> by lia.
      split; [|constructor]. rewrite Z.add_0_r. symmetry.
      now apply slice_empty. }
  assert (Hright :
    join_bytes (if 0 <? length seg - comoff - featlen
                then [mkSegment (analyzer seg) (offset seg + comoff + featlen)
                        (length seg - comoff - featlen)] else [])
    = Py.slice d (Some (offset seg + comoff + featlen))
        (Some (offset seg + length seg)) /\
    Forall (within d)
      (if 0 <? length seg - comoff - featlen
       then [mkSegment (analyzer seg) (offset seg + comoff + featlen)
               (length seg - comoff - featlen)] else [])).
  { destruct (0 <? length seg - comoff - featlen) eqn:E.
    - assert (Hw' : within d
                (mkSegment (analyzer seg) (offset seg + comoff + featlen)
                   (length seg - comoff - featlen)))
        by (apply within_mk; (assumption || lia)).
      split; [|now apply Forall_one].
      unfold join_bytes. cbn [map concat].
      rewrite app_nil_r, (seg_bytes_within d _ Hw'). cbn [offset length].
      do 2 f_equal. lia.
    - apply Z.ltb_ge in E.
      replace (offset seg + comoff + featlen) with (offset seg + length seg)
        by lia.
      split; [|constructor]. symmetry. apply slice_empty. lia. }
  destruct Hleft as [Hlb Hlw], Hright as [Hrb Hrw].
  assert (Hwc : within d (mkSegment (analyzer seg) (offset seg + comoff) featlen))
    by (apply within_mk; (assumption || lia)).
  split.
  - rewrite join_bytes_app, join_bytes_cons, Hlb, Hrb.
    rewrite (seg_bytes_within d _ Hwc). cbn [offset length].
    rewrite (seg_bytes_within d seg Hw).
    rewrite slice_join by lia. rewrite slice_join by lia. reflexivity.
  - apply Forall_app. split; [assumption|]. now constructor.
Qed.

Lemma CropDistinct_split_loop (d : bytes) (moco : list bytes)
  (segments : list MessageSegment) :
  Forall (within d) segments ->
  forall newmsg,
    Forall (within d) newmsg ->
    join_bytes (fold_left (CropDistinct.split_body moco) segments newmsg)
    = join_bytes newmsg ++ join_bytes segments /\
    Forall (within d) (fold_left (CropDistinct.split_body moco) segments newmsg).
Proof.
  induction 1 as [|seg segments Hseg Hsegs IH]; intros newmsg Hnew; simpl.
  - split; [now rewrite app_nil_r|assumption].
  - unfold CropDistinct.split_body at 2 4.
    destruct (CropDistinct.crop seg moco) as [added|] eqn:E.
    + destruct (crop_bytes d seg moco Hseg added E) as [Hb Hw].
      destruct (IH (newmsg ++ added)) as [IHb IHw];
        [apply Forall_app; now split|].
      split; [|exact IHw].
      rewrite IHb, join_bytes_app, Hb, join_bytes_cons. now rewrite app_assoc.
    + destruct (IH (newmsg ++ [seg])) as [IHb IHw];
        [apply Forall_app; split; [assumption|now apply Forall_one]|].
      split; [|exact IHw].
      rewrite IHb, join_bytes_app, (join_bytes_cons seg segments).
      change (join_bytes [seg]) with (seg_bytes seg ++ []).
      now rewrite app_nil_r, <- app_assoc.
Qed.

(** X10: byte preservation of [CropDistinct.split], for any list of values
    to crop: on segments inside one message the output has the bytes of the
    input and every output segment lies inside the message. *)
Lemma CropDistinct_split_bytes (d : bytes) (moco : list bytes)
  (segments : list MessageSegment) :
  Forall (within d) segments ->
  join_bytes (CropDistinct.split segments moco) = join_bytes segments /\
  Forall (within d) (CropDistinct.split segments moco).
Proof.
  intros H. unfold CropDistinct.split.
  now destruct (CropDistinct_split_loop d moco segments H [] (Forall_nil _)).
Qed.

(** *** Loops over a stack *)

(** A loop whose body keeps an invariant and decreases a measure runs to an
    empty stack within the measure's number of iterations. *)
Lemma while_nonempty_invariant {S X : Type} (stack : S -> list X)
  (body : S -> Py.result S) (Inv : S -> Prop) (mu : S -> nat) :
  (forall s, Inv s -> stack s <> [] ->
             exists s', body s = Ok s' /\ Inv s' /\ (mu s' < mu s)%nat) ->
  forall (fuel : nat) (s : S),
    Inv s -> (mu s <= fuel)%nat ->
    exists s',
      Py.while_nonempty fuel stack body s = Ok s' /\ Inv s' /\ stack s' = [].
Proof.
  intros Hstep. induction fuel as [|fuel IH]; intros s Hinv Hmu.
  - destruct (stack s) eqn:Hs.
    + exists s. rewrite while_nonempty_done by assumption. now repeat split.
    + destruct (Hstep s Hinv) as (s' & _ & _ & Hlt);
        [rewrite Hs; discriminate|lia].
  - destruct (stack s) eqn:Hs.
    + exists s. rewrite while_nonempty_done by assumption. now repeat split.
    + destruct (Hstep s Hinv) as (s2 & Hbody & Hinv2 & Hlt);
        [rewrite Hs; discriminate|].
      rewrite while_nonempty_step by (rewrite Hs; discriminate).
      rewrite Hbody. cbn [Py.bind]. apply IH; [assumption|lia].
Qed.

(** *** Moving a boundary between two adjacent segments *)

Lemma seg_bytes_empty (d : bytes) (seg : MessageSegment) :
  within d seg -> length seg = 0 -> seg_bytes seg = [].
Proof.
  intros Hw H0. rewrite (seg_bytes_within d seg Hw), H0, Z.add_0_r.
  apply slice_empty. now destruct Hw as (_ & Ho & _).
Qed.

(** Moving the boundary between two adjacent segments by [shift], within
    what the two segments can give, keeps both inside the message and keeps
    their joint bytes. *)
Lemma shifted_pair_bytes (d : bytes) (segl segc : MessageSegment) (shift : Z) :
  within d segl -> within d segc ->
  offset segl + length segl = offset segc ->
  - length segl <= shift <= length segc ->
  within d (mkSegment (analyzer segl) (offset segl) (length segl + shift)) /\
  within d (mkSegment (analyzer segc) (offset segc + shift)
              (length segc - shift)) /\
  seg_bytes (mkSegment (analyzer segl) (offset segl) (length segl + shift))
  ++ seg_bytes (mkSegment (analyzer segc) (offset segc + shift)
                  (length segc - shift))
  = seg_bytes segl ++ seg_bytes segc.
Proof.
  intros Hl Hc Hadj Hshift.
  pose proof Hl as (_ & Hlo & Hll & Hln).
  pose proof Hc as (_ & Hco & Hcl & Hcn). unfold nextOffset in *.
  assert (Hl' : within d (mkSegment (analyzer segl) (offset segl)
                            (length segl + shift)))
    by (apply within_mk; (assumption || lia)).
  assert (Hc' : within d (mkSegment (analyzer segc) (offset segc + shift)
                            (length segc - shift)))
    by (apply within_mk; (assumption || lia)).
  split; [assumption|]. split; [assumption|].
  rewrite (seg_bytes_within d _ Hl'), (seg_bytes_within d _ Hc').
  rewrite (seg_bytes_within d _ Hl), (seg_bytes_within d _ Hc).
  cbn [offset length].
  replace (offset segc + shift) with (offset segl + (length segl + shift))
    by lia.
  replace (offset segl + (length segl + shift) + (length segc - shift))
    with (offset segc + length segc) by lia.
  rewrite slice_join by lia. rewrite <- Hadj.
  rewrite slice_join by lia. reflexivity.
Qed.

(** *** Frequency-guided resplit *)

Lemma lookupLeastFrequent_total (table : Counter.t) (seg : MessageSegment) :
  exists shift,
    Resplit2LeastFrequentPair.lookupLeastFrequent (Some table) seg = Ok shift /\
    -1 <= shift <= 1.
Proof.
  destruct (inner_boundaryb (data (message seg)) (offset seg)) eqn:Einner.
  - apply inner_boundaryb_spec in Einner.
    rewrite lookupLeastFrequent_inner by assumption.
    destruct (Resplit2LeastFrequentPair.windows (data (message seg))
                (offset seg)) as [[across before] after].
    cbn [Resplit2LeastFrequentPair.lookup Py.bind].
    set (cA := Counter.get table across).
    set (cB := Counter.get table before).
    set (cAf := Counter.get table after).
    destruct (Z.min (Z.min cA cB) cAf =? cA) eqn:EA;
      [exists 0; split; [reflexivity|lia]|].
    destruct (Z.min (Z.min cA cB) cAf =? cB) eqn:EB;
      [exists (-1); split; [reflexivity|lia]|].
    destruct (Z.min (Z.min cA cB) cAf =? cAf) eqn:EAf;
      [exists 1; split; [reflexivity|lia]|].
    apply Z.eqb_neq in EA, EB, EAf. lia.
  - assert (Hout : ~ inner_boundary (data (message seg)) (offset seg)).
    { intros H. apply inner_boundaryb_spec in H. congruence. }
    rewrite lookupLeastFrequent_outer by assumption.
    exists 0. split; [reflexivity|lia].
Qed.

(** One iteration keeps the bytes of the two segments it looks at. *)
Lemma Resplit2_split_body_bytes (d : bytes) (table : Counter.t)
  (stack acc : list MessageSegment) (segl segc : MessageSegment) :
  within d segl -> within d segc ->
  exists (acc' : list MessageSegment) (last : MessageSegment),
    Resplit2LeastFrequentPair.split_body (Some table)
      (Resplit2LeastFrequentPair.mkState (stack ++ [segc]) (acc ++ [segl]))
    = Ok (Resplit2LeastFrequentPair.mkState stack (acc ++ acc' ++ [last])) /\
    Forall (within d) (acc' ++ [last]) /\
    join_bytes (acc' ++ [last]) = seg_bytes segl ++ seg_bytes segc.
Proof.
  intros Hl Hc.
  assert (Hkeep : Forall (within d) ([segl] ++ [segc]) /\
                  join_bytes ([segl] ++ [segc]) = seg_bytes segl ++ seg_bytes segc).
  { split; [now repeat (constructor; try assumption)|].
    unfold join_bytes. simpl. now rewrite app_nil_r. }
  unfold Resplit2LeastFrequentPair.split_body.
  cbn [Resplit2LeastFrequentPair.segmentStack
       Resplit2LeastFrequentPair.mangledSegments].
  rewrite pop_app. cbn [Py.bind]. rewrite index_last. cbn [Py.bind].
  destruct (offset segl + length segl =? offset segc) eqn:Eadj;
    [|exists [segl], segc; rewrite <- app_assoc; now split].
  apply Z.eqb_eq in Eadj.
  destruct (lookupLeastFrequent_total table segc) as (shift & Hshift & Hrange).
  rewrite Hshift. cbn [Py.bind].
  destruct (((shift <? 0) && (- length segl <=? shift))
            || ((0 <? shift) && (shift <=? length segc))) eqn:Eguard;
    [|exists [segl], segc; rewrite <- app_assoc; now split].
  assert (Hgive : - length segl <= shift <= length segc).
  { pose proof Hl as (_ & _ & Hll & _). pose proof Hc as (_ & _ & Hcl & _).
    apply orb_true_iff in Eguard.
    destruct Eguard as [E|E]; apply andb_true_iff in E; destruct E as [E1 E2].
    - apply Z.ltb_lt in E1. apply Z.leb_le in E2. lia.
    - apply Z.ltb_lt in E1. apply Z.leb_le in E2. lia. }
  destruct (shifted_pair_bytes d segl segc shift Hl Hc Eadj Hgive)
    as (Hl' & Hc' & Hbytes).
  destruct (length segl =? - shift) eqn:Eused; cbn [negb].
  - apply Z.eqb_eq in Eused. rewrite del_last_app. cbn [Py.bind].
    exists [], (mkSegment (analyzer segc) (offset segc + shift)
                  (length segc - shift)).
    split; [reflexivity|]. split; [now apply Forall_one|].
    rewrite <- Hbytes.
    rewrite (seg_bytes_empty d _ Hl') by (cbn [length]; lia).
    unfold join_bytes. simpl. now rewrite app_nil_r.
  - rewrite set_last_app. cbn [Py.bind].
    exists [mkSegment (analyzer segl) (offset segl) (length segl + shift)],
           (mkSegment (analyzer segc) (offset segc + shift)
              (length segc - shift)).
    rewrite <- app_assoc. split; [reflexivity|].
    split; [now repeat (constructor; try assumption)|].
    rewrite <- Hbytes. unfold join_bytes. simpl. now rewrite app_nil_r.
Qed.

(** X11: byte preservation of [Resplit2LeastFrequentPair.split] once the
    table is built: on a non-empty sequence inside one message the call
    returns, its output has the bytes of its input, and every output
    segment lies inside the message. *)
Lemma Resplit2_split_bytes (d : bytes) (table : Counter.t)
  (segments : list MessageSegment) :
  segments <> [] -> Forall (within d) segments ->
  exists out,
    Resplit2LeastFrequentPair.split (Some table) segments = Ok out /\
    join_bytes out = join_bytes segments /\
    Forall (within d) out.
Proof.
  intros Hne Hin. unfold Resplit2LeastFrequentPair.split.
  rewrite slice_from_1.
  destruct segments as [|seg0 rest]; [contradiction|].
  rewrite index_head. cbn [Py.bind tl].
  destruct (1 <? Py.len (seg0 :: rest)) eqn:Elen.
  2:{ destruct rest as [|r rest].
      - exists [seg0]. now repeat split.
      - apply Z.ltb_ge in Elen. rewrite !len_cons in Elen.
        pose proof (len_nonneg rest). lia. }
  set (Inv := fun s : Resplit2LeastFrequentPair.state =>
    (exists acc segl,
        Resplit2LeastFrequentPair.mangledSegments s = acc ++ [segl]) /\
    Forall (within d) (Resplit2LeastFrequentPair.mangledSegments s) /\
    Forall (within d) (Resplit2LeastFrequentPair.segmentStack s) /\
    join_bytes (Resplit2LeastFrequentPair.mangledSegments s)
    ++ join_bytes (rev (Resplit2LeastFrequentPair.segmentStack s))
    = join_bytes (seg0 :: rest)).
  destruct (while_nonempty_invariant Resplit2LeastFrequentPair.segmentStack
              (Resplit2LeastFrequentPair.split_body (Some table)) Inv
              (fun s => Datatypes.length
                          (Resplit2LeastFrequentPair.segmentStack s)))
    with (fuel := Datatypes.length (seg0 :: rest))
         (s := Resplit2LeastFrequentPair.mkState (rev rest) [seg0])
    as (s' & Hrun & Hinv & Hdone).
  - intros [stack mangled] ((acc & segl & Hm) & Hwm & Hws & Hb) Hstack.
    cbn [Resplit2LeastFrequentPair.segmentStack
         Resplit2LeastFrequentPair.mangledSegments] in *.
    subst mangled.
    destruct stack as [|segc stack _] using rev_ind; [contradiction|].
    apply Forall_app in Hwm, Hws.
    destruct Hwm as [Hwacc Hwl], Hws as [Hwstack Hwc].
    inversion Hwl as [|? ? Hsegl _]; subst.
    inversion Hwc as [|? ? Hsegc _]; subst.
    destruct (Resplit2_split_body_bytes d table stack acc segl segc Hsegl Hsegc)
      as (acc' & last & Hbody & Hw' & Hb').
    eexists. split; [exact Hbody|]. unfold Inv.
    cbn [Resplit2LeastFrequentPair.segmentStack
         Resplit2LeastFrequentPair.mangledSegments].
    split; [|rewrite length_app; simpl; lia].
    split; [exists (acc ++ acc'), last; now rewrite app_assoc|].
    split; [apply Forall_app; now split|]. split; [assumption|].
    rewrite <- Hb, rev_app_distr. cbn [rev app].
    rewrite (join_bytes_app acc (acc' ++ [last])), Hb'.
    rewrite (join_bytes_app acc [segl]), (join_bytes_cons segc).
    change (join_bytes [segl]) with (seg_bytes segl ++ []).
    rewrite app_nil_r, <- !app_assoc. reflexivity.
  - unfold Inv. cbn [Resplit2LeastFrequentPair.segmentStack
                     Resplit2LeastFrequentPair.mangledSegments].
    inversion Hin as [|? ? H0 Hrest]; subst.
    split; [now exists [], seg0|]. split; [now apply Forall_one|].
    split; [now apply Forall_rev|]. rewrite rev_involutive.
    unfold join_bytes. simpl. now rewrite app_nil_r.
  - cbn. rewrite length_rev. lia.
  - rewrite Hrun. cbn [Py.bind]. eexists. split; [reflexivity|].
    destruct Hinv as (_ & Hwm & _ & Hb). rewrite Hdone in Hb.
    cbn in Hb. rewrite app_nil_r in Hb. now split.
Qed.

(** *** Split relocation on more than one segment *)

Lemma snoc_is_cons {A : Type} (l : list A) (x : A) :
  exists y l', l ++ [x] = y :: l'.
Proof. destruct l as [|y l]; simpl; eauto. Qed.

Section RelocateFacts.

Variable d : bytes.
Variable toTheLeft : MessageSegment -> Z.
Variable toTheRight : MessageSegment -> Z.

(** What the relocation functions must respect: never more bytes than the
    neighbour holds. *)
Hypothesis toTheLeft_bound :
  forall seg, within d seg -> 0 <= toTheLeft seg.
Hypothesis toTheRight_bound :
  forall seg, within d seg -> toTheRight seg <= length seg.

Lemma integrate_left_bytes (mangled : list MessageSegment)
  (segc : MessageSegment) :
  Forall (within d) mangled -> within d segc ->
  exists mangled' segc',
    RelocateSplits.integrate_left toTheLeft mangled segc = Ok (mangled', segc') /\
    Forall (within d) mangled' /\ within d segc' /\
    join_bytes mangled' ++ seg_bytes segc' = join_bytes mangled ++ seg_bytes segc.
Proof.
  intros Hm Hc. unfold RelocateSplits.integrate_left.
  destruct mangled as [|segl acc _] using rev_ind;
    [exists [], segc; unchanged|].
  destruct (snoc_is_cons acc segl) as (y & l' & E).
  rewrite E. cbv beta iota. rewrite <- E. clear E y l'.
  rewrite index_last. cbn [Py.bind].
  apply Forall_app in Hm. destruct Hm as [Hacc Hl].
  inversion Hl as [|? ? Hsegl _]; subst.
  assert (Hsame : Forall (within d) (acc ++ [segl]))
    by (apply Forall_app; split; [assumption|now apply Forall_one]).
  destruct (offset segl + length segl =? offset segc) eqn:Eadj;
    [|exists (acc ++ [segl]), segc; unchanged].
  apply Z.eqb_eq in Eadj.
  destruct (toTheLeft segl <? length segl) eqn:Elt;
    [|exists (acc ++ [segl]), segc; unchanged].
  apply Z.ltb_lt in Elt. pose proof (toTheLeft_bound segl Hsegl) as Hpos.
  pose proof Hc as (_ & _ & Hcl & _).
  destruct (shifted_pair_bytes d segl segc (toTheLeft segl - length segl)
              Hsegl Hc Eadj ltac:(lia)) as (Hl' & Hc' & Hbytes).
  replace (length segl + (toTheLeft segl - length segl)) with (toTheLeft segl)
    in * by lia.
  replace (offset segc + (toTheLeft segl - length segl))
    with (offset segc - (length segl - toTheLeft segl)) in * by lia.
  replace (length segc - (toTheLeft segl - length segl))
    with (length segc + (length segl - toTheLeft segl)) in * by lia.
  rewrite join_bytes_app. change (join_bytes [segl]) with (seg_bytes segl ++ []).
  rewrite app_nil_r, <- app_assoc, <- Hbytes.
  destruct (0 <? toTheLeft segl) eqn:Epos.
  - rewrite set_last_app. cbn [Py.bind]. eexists _, _.
    split; [reflexivity|].
    split; [apply Forall_app; split; [assumption|now apply Forall_one]|].
    split; [assumption|].
    rewrite join_bytes_app, <- app_assoc. unfold join_bytes at 2.
    cbn [map concat]. now rewrite app_nil_r.
  - rewrite del_last_app. cbn [Py.bind]. eexists _, _.
    split; [reflexivity|]. split; [assumption|]. split; [assumption|].
    apply Z.ltb_ge in Epos.
    rewrite (seg_bytes_empty d _ Hl') by (cbn [length]; lia).
    reflexivity.
Qed.

Lemma integrate_right_bytes (stack : list MessageSegment)
  (segc : MessageSegment) :
  Forall (within d) stack -> within d segc ->
  exists stack' segc',
    RelocateSplits.integrate_right toTheRight stack segc = Ok (stack', segc') /\
    Forall (within d) stack' /\ within d segc' /\
    (Datatypes.length stack' <= Datatypes.length stack)%nat /\
    seg_bytes segc' ++ join_bytes (rev stack')
    = seg_bytes segc ++ join_bytes (rev stack).
Proof.
  intros Hs Hc. unfold RelocateSplits.integrate_right.
  destruct stack as [|segr st _] using rev_ind;
    [exists [], segc; unchanged|].
  destruct (snoc_is_cons st segr) as (y & l' & E).
  rewrite E. cbv beta iota. rewrite <- E. clear E y l'.
  rewrite index_last. cbn [Py.bind].
  apply Forall_app in Hs. destruct Hs as [Hst Hr].
  inversion Hr as [|? ? Hsegr _]; subst.
  assert (Hsame : Forall (within d) (st ++ [segr]))
    by (apply Forall_app; split; [assumption|now apply Forall_one]).
  destruct (offset segc + length segc =? offset segr) eqn:Eadj;
    [|exists (st ++ [segr]), segc; unchanged].
  apply Z.eqb_eq in Eadj.
  destruct (0 <? toTheRight segr) eqn:Epos;
    [|exists (st ++ [segr]), segc; unchanged].
  apply Z.ltb_lt in Epos. pose proof (toTheRight_bound segr Hsegr) as Hle.
  pose proof Hc as (_ & _ & Hcl & _).
  destruct (shifted_pair_bytes d segc segr (toTheRight segr)
              Hc Hsegr Eadj ltac:(lia)) as (Hc' & Hr' & Hbytes).
  rewrite rev_app_distr. cbn [rev app]. rewrite join_bytes_cons, app_assoc.
  rewrite <- Hbytes.
  destruct (0 <? length segr - toTheRight segr) eqn:Erest.
  - rewrite set_last_app. cbn [Py.bind]. eexists _, _.
    split; [reflexivity|].
    split; [apply Forall_app; split; [assumption|now apply Forall_one]|].
    split; [assumption|]. split; [rewrite !length_app; simpl; lia|].
    rewrite rev_app_distr. cbn [rev app].
    now rewrite join_bytes_cons, app_assoc.
  - rewrite del_last_app. cbn [Py.bind]. eexists _, _.
    split; [reflexivity|]. split; [assumption|]. split; [assumption|].
    split; [rewrite length_app; simpl; lia|].
    apply Z.ltb_ge in Erest.
    rewrite (seg_bytes_empty d _ Hr') by (cbn [length]; lia).
    now rewrite app_nil_r.
Qed.

(** Byte preservation of [RelocateSplits.split] on two or more segments. *)
Lemma RelocateSplits_split_bytes (segments : list MessageSegment) :
  (1 < Datatypes.length segments)%nat ->
  Forall (within d) segments ->
  exists out,
    RelocateSplits.split toTheLeft toTheRight segments = Ok out /\
    join_bytes out = join_bytes segments /\
    Forall (within d) out.
Proof.
  intros Hlen Hin. unfold RelocateSplits.split.
  replace (1 <? Py.len segments) with true
    by (symmetry; apply Z.ltb_lt; unfold Py.len; lia).
  set (Inv := fun s : RelocateSplits.state =>
    Forall (within d) (RelocateSplits.mangledSegments s) /\
    Forall (within d) (RelocateSplits.segmentStack s) /\
    join_bytes (RelocateSplits.mangledSegments s)
    ++ join_bytes (rev (RelocateSplits.segmentStack s))
    = join_bytes segments).
  destruct (while_nonempty_invariant RelocateSplits.segmentStack
              (RelocateSplits.split_body toTheLeft toTheRight) Inv
              (fun s => Datatypes.length (RelocateSplits.segmentStack s)))
    with (fuel := Datatypes.length segments)
         (s := RelocateSplits.mkState (rev segments) [])
    as (s' & Hrun & Hinv & Hdone).
  - intros [stack mangled] (Hwm & Hws & Hb) Hstack.
    cbn [RelocateSplits.segmentStack RelocateSplits.mangledSegments] in *.
    destruct stack as [|segc stack _] using rev_ind; [contradiction|].
    apply Forall_app in Hws. destruct Hws as [Hwstack Hwc].
    inversion Hwc as [|? ? Hsegc _]; subst.
    rewrite rev_app_distr in Hb. cbn [rev app] in Hb.
    rewrite join_bytes_cons in Hb.
    unfold RelocateSplits.split_body, Inv.
    cbn [RelocateSplits.segmentStack RelocateSplits.mangledSegments].
    rewrite pop_app. cbn [Py.bind].
    destruct (negb (isPrintable (seg_bytes segc))).
    + eexists. split; [reflexivity|].
      cbn [RelocateSplits.segmentStack RelocateSplits.mangledSegments].
      split; [|rewrite length_app; simpl; lia].
      split; [apply Forall_app; split; [assumption|now apply Forall_one]|].
      split; [assumption|].
      rewrite join_bytes_app. change (join_bytes [segc]) with (seg_bytes segc ++ []).
      now rewrite app_nil_r, <- app_assoc.
    + destruct (integrate_left_bytes mangled segc Hwm Hsegc)
        as (mangled' & segc' & Hleft & Hwm' & Hwc' & Hbl).
      rewrite Hleft. cbn [Py.bind].
      destruct (integrate_right_bytes stack segc' Hwstack Hwc')
        as (stack' & segc'' & Hright & Hws' & Hwc'' & Hlen' & Hbr).
      rewrite Hright. cbn [Py.bind]. eexists. split; [reflexivity|].
      cbn [RelocateSplits.segmentStack RelocateSplits.mangledSegments].
      split; [|rewrite length_app; simpl; lia].
      split; [apply Forall_app; split; [assumption|now apply Forall_one]|].
      split; [assumption|].
      rewrite join_bytes_app. change (join_bytes [segc'']) with (seg_bytes segc'' ++ []).
      rewrite app_nil_r, <- app_assoc, Hbr, app_assoc, Hbl, <- app_assoc.
      exact Hb.
  - unfold Inv. cbn [RelocateSplits.segmentStack RelocateSplits.mangledSegments].
    split; [constructor|]. split; [now apply Forall_rev|].
    now rewrite rev_involutive.
  - cbn. rewrite length_rev. lia.
  - rewrite Hrun. cbn [Py.bind]. eexists. split; [reflexivity|].
    destruct Hinv as (Hwm & _ & Hb). rewrite Hdone in Hb.
    cbn in Hb. rewrite app_nil_r in Hb. now split.
Qed.

End RelocateFacts.

Lemma toTheLeft_loop_bound (chars : bytes) :
  forall splitpos : Z,
    splitpos - Py.len chars
    <= ResplitConsecutiveChars.toTheLeft_loop chars splitpos <= splitpos.
Proof.
  induction chars as [|char rest IH]; intros splitpos; simpl.
  - cbn. lia.
  - rewrite len_cons. pose proof (len_nonneg rest).
    destruct (isPrintableChar (int_of_byte char)); [|lia].
    specialize (IH (splitpos - 1)). lia.
Qed.

Lemma toTheRight_loop_bound (chars : bytes) :
  forall splitpos : Z,
    splitpos
    <= ResplitConsecutiveChars.toTheRight_loop chars splitpos
    <= splitpos + Py.len chars.
Proof.
  induction chars as [|char rest IH]; intros splitpos; simpl.
  - cbn. lia.
  - rewrite len_cons. pose proof (len_nonneg rest).
    destruct (isPrintableChar (int_of_byte char)); [|lia].
    specialize (IH (splitpos + 1)). lia.
Qed.

(** X12: byte preservation of [ResplitConsecutiveChars.split], that is
    of [RelocateSplits.split] with the two character scans, on two or more
    segments inside one message: the call returns, its output has the
    bytes of its input, and every output segment lies inside the message. *)
Lemma ResplitConsecutiveChars_split_bytes (d : bytes)
  (segments : list MessageSegment) :
  (1 < Datatypes.length segments)%nat ->
  Forall (within d) segments ->
  exists out,
    ResplitConsecutiveChars.split segments = Ok out /\
    join_bytes out = join_bytes segments /\
    Forall (within d) out.
Proof.
  apply RelocateSplits_split_bytes.
  - intros seg Hw. unfold ResplitConsecutiveChars.toTheLeft.
    pose proof (toTheLeft_loop_bound (rev (seg_bytes seg)) (length seg)) as H.
    unfold Py.len in H. rewrite length_rev in H.
    fold (Py.len (seg_bytes seg)) in H.
    rewrite (len_seg_bytes d seg Hw) in H. lia.
  - intros seg Hw. unfold ResplitConsecutiveChars.toTheRight.
    pose proof (toTheRight_loop_bound (seg_bytes seg) 0) as H.
    rewrite (len_seg_bytes d seg Hw) in H. lia.
Qed.

(** Two adjacent all-text segments come back as one. *)
Lemma ResplitConsecutiveChars_split_text :
  ResplitConsecutiveChars.split
    [mkSegment ana_abcd 0 2; mkSegment ana_abcd 2 2]
  = Ok [mkSegment ana_abcd 0 4].
Proof. reflexivity. Qed.

(** *** Cumulative char-run merger on gapless sequences *)

Lemma gapless_app (l1 l2 : list MessageSegment) :
  gapless (l1 ++ l2) -> gapless l1 /\ gapless l2.
Proof.
  induction l1 as [|a l1 IH]; intros H; [now split|].
  destruct l1 as [|b l1].
  - split; [exact I|]. destruct l2; [exact I|]. now destruct H.
  - destruct H as [Hab H]. destruct (IH H) as [H1 H2]. now repeat split.
Qed.

Section CumulativeBytes.

Variable isExtendedCharSeq : bytes -> bool.

(** One iteration in full: the top of the stack joins the buffer, or the
    buffer with the new segment is cut into a front part, which is emitted as
    one spanning segment, and a back part, which returns to the stack in
    order. *)
Lemma merge_body_effect (s : CumulativeCharMerger.state)
  (rest : list MessageSegment) (top : MessageSegment) :
  CumulativeCharMerger.segmentStack s = rest ++ [top] ->
  exists s',
    CumulativeCharMerger.merge_body isExtendedCharSeq s = Ok s' /\
    ((CumulativeCharMerger.segmentStack s' = rest /\
      CumulativeCharMerger.newmsg s' = CumulativeCharMerger.newmsg s /\
      CumulativeCharMerger.workingStack s'
      = CumulativeCharMerger.workingStack s ++ [top])
     \/
     (CumulativeCharMerger.workingStack s' = [] /\
      exists first consumed back,
        CumulativeCharMerger.workingStack s ++ [top]
        = (first :: consumed) ++ back /\
        CumulativeCharMerger.newmsg s'
        = CumulativeCharMerger.newmsg s
          ++ [mkSegment (analyzer first) (offset first)
                (Py.sum (map length (first :: consumed)))] /\
        CumulativeCharMerger.segmentStack s' = rest ++ rev back)).
Proof.
  intros Hstack. unfold CumulativeCharMerger.merge_body.
  rewrite Hstack, pop_app. cbn [Py.bind].
  set (ws := CumulativeCharMerger.workingStack s).
  destruct (CumulativeCharMerger.too_short (ws ++ [top]));
    [eexists; split; [reflexivity|left; auto]|].
  destruct (CumulativeCharMerger.char_test isExtendedCharSeq (ws ++ [top]));
    [eexists; split; [reflexivity|left; auto]|].
  assert (Hone : forall x : MessageSegment,
             mkSegment (analyzer x) (offset x) (Py.sum (map length [x])) = x).
  { intros x. cbn [map]. rewrite sum_cons. change (Py.sum []) with 0.
    now rewrite Z.add_0_r, segment_eta. }
  destruct (CumulativeCharMerger.isCharCand s).
  - destruct ws as [|w0 [|w1 ws]].
    + eexists. split; [reflexivity|right].
      cbn [CumulativeCharMerger.workingStack CumulativeCharMerger.newmsg
           CumulativeCharMerger.segmentStack].
      split; [reflexivity|].
      exists top, [], []. split; [reflexivity|].
      split; [rewrite ?Hone; reflexivity
             |cbn [rev app]; rewrite ?app_nil_r; reflexivity].
    + eexists. split; [reflexivity|right].
      cbn [CumulativeCharMerger.workingStack CumulativeCharMerger.newmsg
           CumulativeCharMerger.segmentStack].
      split; [reflexivity|].
      exists w0, [], [top]. split; [reflexivity|].
      split; [rewrite ?Hone; reflexivity
             |cbn [rev app]; rewrite ?app_nil_r; reflexivity].
    + unfold CumulativeCharMerger.merged.
      rewrite index_last, slice_drop_last, removelast_last.
      replace (2 <? Py.len ((w0 :: w1 :: ws) ++ [top])) with true
        by (symmetry; apply Z.ltb_lt; unfold Py.len; rewrite length_app;
            simpl Datatypes.length; lia).
      replace (1 <? Py.len ((w0 :: w1 :: ws) ++ [top])) with true
        by (symmetry; apply Z.ltb_lt; unfold Py.len; rewrite length_app;
            simpl Datatypes.length; lia).
      change (Py.index ((w0 :: w1 :: ws) ++ [top]) 0) with (Ok w0).
      cbn [Py.bind]. eexists. split; [reflexivity|right].
      cbn [CumulativeCharMerger.workingStack CumulativeCharMerger.newmsg
           CumulativeCharMerger.segmentStack].
      split; [reflexivity|].
      exists w0, (w1 :: ws), [top]. split; [reflexivity|].
      split; [rewrite ?Hone; reflexivity
             |cbn [rev app]; rewrite ?app_nil_r; reflexivity].
  - destruct (index_0_snoc ws top) as (first & Hfirst & Hhd).
    rewrite Hfirst. cbn [Py.bind]. eexists. split; [reflexivity|right].
    cbn [CumulativeCharMerger.workingStack CumulativeCharMerger.newmsg
         CumulativeCharMerger.segmentStack].
    split; [reflexivity|].
    exists first, [], (tl (ws ++ [top])).
    rewrite Hone, slice_from_1. split; [|now split].
    destruct ws as [|w ws']; simpl in *; now subst.
Qed.

Lemma merge_flush_cases (s : CumulativeCharMerger.state) :
  CumulativeCharMerger.merge_flush s
  = Ok (CumulativeCharMerger.newmsg s
        ++ match CumulativeCharMerger.workingStack s with
           | first :: _ :: _ =>
               if CumulativeCharMerger.isCharCand s
               then [mkSegment (analyzer first) (offset first)
                       (Py.sum (map length
                                  (CumulativeCharMerger.workingStack s)))]
               else CumulativeCharMerger.workingStack s
           | _ => CumulativeCharMerger.workingStack s
           end).
Proof.
  unfold CumulativeCharMerger.merge_flush, CumulativeCharMerger.merged.
  destruct (CumulativeCharMerger.workingStack s) as [|first [|second others]];
    try reflexivity.
  replace (1 <? Py.len (first :: second :: others)) with true
    by (symmetry; apply Z.ltb_lt; rewrite !len_cons;
        pose proof (len_nonneg others); lia).
  rewrite index_head. now destruct (CumulativeCharMerger.isCharCand s).
Qed.

(** X13: byte preservation of [CumulativeCharMerger.merge] on a gapless
    sequence inside one message, whatever the character test: the call
    returns, its output has the bytes of its input, and every output
    segment lies inside the message. *)
Lemma CumulativeCharMerger_merge_bytes (d : bytes)
  (segments : list MessageSegment) :
  Forall (within d) segments -> gapless segments ->
  exists out,
    CumulativeCharMerger.merge isExtendedCharSeq segments = Ok out /\
    join_bytes out = join_bytes segments /\
    Forall (within d) out.
Proof.
  intros Hin Hgap.
  unfold CumulativeCharMerger.merge, CumulativeCharMerger.merge_fuel.
  set (todo := fun s : CumulativeCharMerger.state =>
    CumulativeCharMerger.workingStack s
    ++ rev (CumulativeCharMerger.segmentStack s)).
  set (Inv := fun s : CumulativeCharMerger.state =>
    Forall (within d) (CumulativeCharMerger.newmsg s) /\
    Forall (within d) (todo s) /\ gapless (todo s) /\
    join_bytes (CumulativeCharMerger.newmsg s) ++ join_bytes (todo s)
    = join_bytes segments).
  destruct (while_nonempty_invariant CumulativeCharMerger.segmentStack
              (CumulativeCharMerger.merge_body isExtendedCharSeq) Inv
              remaining_work)
    with (fuel := CumulativeCharMerger.budget segments)
         (s := CumulativeCharMerger.initial segments)
    as (s' & Hrun & Hinv & Hdone).
  - intros s (Hwn & Hwt & Hgt & Hb) Hstack. unfold todo in *.
    destruct (CumulativeCharMerger.segmentStack s) as [|top rest _] eqn:Hs
      using rev_ind; [contradiction|].
    destruct (merge_body_effect s rest top Hs) as (s2 & Hbody & Hcases).
    exists s2. split; [exact Hbody|].
    split; [|apply (merge_body_decreases isExtendedCharSeq s s2);
             [rewrite Hs; apply snoc_not_nil|exact Hbody]].
    rewrite rev_app_distr in Hwt, Hgt, Hb. cbn [rev app] in Hwt, Hgt, Hb.
    unfold Inv, todo.
    destruct Hcases as [(H1 & H2 & H3)
                       | (H1 & first & consumed & back & Hcut & H2 & H3)].
    + rewrite H1, H2, H3, <- app_assoc. cbn [app]. now repeat split.
    + change (CumulativeCharMerger.workingStack s ++ top :: rev rest)
        with (CumulativeCharMerger.workingStack s ++ [top] ++ rev rest)
        in Hwt, Hgt, Hb.
      rewrite app_assoc, Hcut, <- app_assoc in Hwt, Hgt, Hb.
      apply Forall_app in Hwt. destruct Hwt as [Hwfront Hwback].
      apply gapless_app in Hgt. destruct Hgt as [Hgfront Hgback].
      destruct (spanning_segment_bytes d first consumed Hwfront Hgfront)
        as [Hwspan Hbspan].
      rewrite H1, H2, H3, rev_app_distr, rev_involutive. cbn [app].
      split; [apply Forall_app; split; [assumption|now apply Forall_one]|].
      split; [assumption|]. split; [assumption|].
      rewrite <- Hb, !join_bytes_app.
      change (join_bytes [mkSegment (analyzer first) (offset first)
                            (Py.sum (map length (first :: consumed)))])
        with (seg_bytes (mkSegment (analyzer first) (offset first)
                           (Py.sum (map length (first :: consumed)))) ++ []).
      rewrite app_nil_r, Hbspan, <- !app_assoc. reflexivity.
  - unfold Inv, todo, CumulativeCharMerger.initial.
    cbn [CumulativeCharMerger.newmsg CumulativeCharMerger.workingStack
         CumulativeCharMerger.segmentStack app].
    rewrite rev_involutive. now repeat split.
  - unfold remaining_work, CumulativeCharMerger.budget,
      CumulativeCharMerger.initial. cbn. rewrite length_rev. nia.
  - rewrite Hrun. cbn [Py.bind]. rewrite merge_flush_cases.
    eexists. split; [reflexivity|].
    destruct Hinv as (Hwn & Hwt & Hgt & Hb). unfold todo in *.
    rewrite Hdone in *. cbn [rev] in *. rewrite app_nil_r in *.
    destruct (CumulativeCharMerger.workingStack s')
      as [|first [|second others]] eqn:Hws;
      try (split; [now rewrite join_bytes_app|now apply Forall_app]).
    destruct (CumulativeCharMerger.isCharCand s');
      [|split; [now rewrite join_bytes_app|now apply Forall_app]].
    destruct (spanning_segment_bytes d first (second :: others) Hwt Hgt)
      as [Hwspan Hbspan].
    split; [|apply Forall_app; split; [assumption|now apply Forall_one]].
    rewrite <- Hb, join_bytes_app. f_equal.
    unfold join_bytes at 1. cbn [map concat]. now rewrite app_nil_r.
Qed.

End CumulativeBytes.

(** ** Iteration budgets

    The loops of the two [split] methods take one segment off the stack in
    every iteration and never put one back, so the budget of one iteration
    per input segment is never used up, on any input. *)

Lemma while_nonempty_fuel {S X : Type} (stack : S -> list X)
  (body : S -> Py.result S) :
  (forall s, stack s <> [] ->
             match body s with
             | Ok s' => (Datatypes.length (stack s')
                         < Datatypes.length (stack s))%nat
             | Raise _ => True
             | OutOfFuel => False
             end) ->
  forall (fuel : nat) (s : S),
    (Datatypes.length (stack s) <= fuel)%nat ->
    Py.while_nonempty fuel stack body s <> OutOfFuel.
Proof.
  intros Hbody. induction fuel as [|fuel IH]; intros s Hfuel.
  - destruct (stack s) eqn:Hs; [|simpl in Hfuel; lia].
    rewrite while_nonempty_done by assumption. discriminate.
  - destruct (stack s) eqn:Hs.
    + rewrite while_nonempty_done by assumption. discriminate.
    + rewrite while_nonempty_step by (rewrite Hs; discriminate).
      specialize (Hbody s ltac:(rewrite Hs; discriminate)).
      destruct (body s) as [s'| |]; cbn [Py.bind];
        [|discriminate|contradiction].
      apply IH. rewrite Hs in Hbody. simpl in Hbody, Hfuel. lia.
Qed.

Lemma index_fuel {A : Type} (l : list A) (i : Z) : Py.index l i <> OutOfFuel.
Proof.
  unfold Py.index.
  destruct ((if i <? 0 then i + Py.len l else i) <? 0); [discriminate|].
  destruct (nth_error l _); discriminate.
Qed.

Lemma set_last_length {A : Type} (l : list A) (v : A) :
  match Py.set_last l v with
  | Ok l' => Datatypes.length l' = Datatypes.length l
  | Raise _ => True
  | OutOfFuel => False
  end.
Proof.
  destruct l as [|x l _] using rev_ind; [exact I|].
  rewrite set_last_app, !length_app. reflexivity.
Qed.

Lemma del_last_length {A : Type} (l : list A) :
  match Py.del_last l with
  | Ok l' => S (Datatypes.length l') = Datatypes.length l
  | Raise _ => True
  | OutOfFuel => False
  end.
Proof.
  destruct l as [|x l _] using rev_ind; [exact I|].
  rewrite del_last_app, length_app. simpl. lia.
Qed.

Lemma lookupLeastFrequent_fuel (pairFrequencies : option Counter.t)
  (seg : MessageSegment) :
  Resplit2LeastFrequentPair.lookupLeastFrequent pairFrequencies seg
  <> OutOfFuel.
Proof.
  destruct (inner_boundaryb (data (message seg)) (offset seg)) eqn:Einner.
  - apply inner_boundaryb_spec in Einner.
    rewrite lookupLeastFrequent_inner by assumption.
    destruct (Resplit2LeastFrequentPair.windows (data (message seg))
                (offset seg)) as [[across before] after].
    destruct pairFrequencies as [table|]; [|discriminate].
    cbn [Resplit2LeastFrequentPair.lookup Py.bind].
    repeat match goal with
           | |- context [if ?b then _ else _] => destruct b
           end; discriminate.
  - rewrite lookupLeastFrequent_outer; [discriminate|].
    intros H. apply inner_boundaryb_spec in H. congruence.
Qed.

Lemma Resplit2_split_body_fuel (pairFrequencies : option Counter.t)
  (s : Resplit2LeastFrequentPair.state) :
  Resplit2LeastFrequentPair.segmentStack s <> [] ->
  match Resplit2LeastFrequentPair.split_body pairFrequencies s with
  | Ok s' =>
      (Datatypes.length (Resplit2LeastFrequentPair.segmentStack s')
       < Datatypes.length (Resplit2LeastFrequentPair.segmentStack s))%nat
  | Raise _ => True
  | OutOfFuel => False
  end.
Proof.
  intros Hne. unfold Resplit2LeastFrequentPair.split_body.
  destruct (Resplit2LeastFrequentPair.segmentStack s) as [|segc stack _]
    using rev_ind; [contradiction|].
  rewrite pop_app, length_app. cbn [Py.bind].
  set (mangled := Resplit2LeastFrequentPair.mangledSegments s).
  pose proof (index_fuel mangled (-1)) as Hindex.
  destruct (Py.index mangled (-1)) as [segl| |]; cbn [Py.bind];
    [|exact I|congruence].
  destruct (offset segl + length segl =? offset segc); [|simpl; lia].
  pose proof (lookupLeastFrequent_fuel pairFrequencies segc) as Hlookup.
  destruct (Resplit2LeastFrequentPair.lookupLeastFrequent pairFrequencies segc)
    as [splitshift| |]; cbn [Py.bind]; [|exact I|congruence].
  destruct (((splitshift <? 0) && (- length segl <=? splitshift))
            || ((0 <? splitshift) && (splitshift <=? length segc)));
    [|simpl; lia].
  destruct (negb (length segl =? - splitshift)).
  - pose proof (set_last_length mangled
                  (mkSegment (analyzer segl) (offset segl)
                     (length segl + splitshift))) as Hset.
    destruct (Py.set_last mangled _) as [mangled'| |]; cbn [Py.bind];
      [simpl; lia|exact I|contradiction].
  - pose proof (del_last_length mangled) as Hdel.
    destruct (Py.del_last mangled) as [mangled'| |]; cbn [Py.bind];
      [simpl; lia|exact I|contradiction].
Qed.

(** [Resplit2LeastFrequentPair.split] never runs out of its budget. *)
Lemma Resplit2_split_fuel (pairFrequencies : option Counter.t)
  (segments : list MessageSegment) :
  Resplit2LeastFrequentPair.split pairFrequencies segments <> OutOfFuel.
Proof.
  unfold Resplit2LeastFrequentPair.split. rewrite slice_from_1.
  destruct segments as [|seg0 rest]; [discriminate|].
  rewrite index_head. cbn [Py.bind tl].
  destruct (1 <? Py.len (seg0 :: rest)); [|discriminate].
  pose proof (while_nonempty_fuel Resplit2LeastFrequentPair.segmentStack
                (Resplit2LeastFrequentPair.split_body pairFrequencies)
                (Resplit2_split_body_fuel pairFrequencies)
                (Datatypes.length (seg0 :: rest))
                (Resplit2LeastFrequentPair.mkState (rev rest) [seg0])) as H.
  destruct (Py.while_nonempty _ _ _ _) as [s'| |]; cbn [Py.bind];
    [discriminate|discriminate|].
  exfalso. apply H; [cbn; rewrite length_rev; lia|reflexivity].
Qed.

(** [CumulativeCharMerger.merge] never runs out of its budget. *)
Lemma CumulativeCharMerger_merge_fuel (isExtendedCharSeq : bytes -> bool)
  (segments : list MessageSegment) :
  CumulativeCharMerger.merge isExtendedCharSeq segments <> OutOfFuel.
Proof.
  unfold CumulativeCharMerger.merge, CumulativeCharMerger.merge_fuel.
  destruct (merge_loop_terminates isExtendedCharSeq
              (CumulativeCharMerger.budget segments)
              (CumulativeCharMerger.initial segments)) as (s' & _ & Hrun).
  - unfold remaining_work, CumulativeCharMerger.budget,
      CumulativeCharMerger.initial. cbn. rewrite length_rev. nia.
  - rewrite Hrun.
    + cbn [Py.bind]. destruct (merge_flush_ok s') as (out & ->). discriminate.
    + unfold remaining_work, CumulativeCharMerger.budget,
        CumulativeCharMerger.initial. cbn. rewrite length_rev. nia.
Qed.

Section RelocateFuel.

Variable toTheLeft : MessageSegment -> Z.
Variable toTheRight : MessageSegment -> Z.

Lemma integrate_left_fuel (mangled : list MessageSegment)
  (segc : MessageSegment) :
  RelocateSplits.integrate_left toTheLeft mangled segc <> OutOfFuel.
Proof.
  unfold RelocateSplits.integrate_left.
  destruct mangled as [|m0 mangled0]; [discriminate|].
  set (mangled := m0 :: mangled0).
  pose proof (index_fuel mangled (-1)) as Hindex.
  destruct (Py.index mangled (-1)) as [segl| |]; cbn [Py.bind];
    [|discriminate|congruence].
  destruct (offset segl + length segl =? offset segc); [|discriminate].
  destruct (toTheLeft segl <? length segl); [|discriminate].
  destruct (0 <? toTheLeft segl).
  - pose proof (set_last_length mangled
                  (mkSegment (analyzer segl) (offset segl) (toTheLeft segl)))
      as Hset.
    destruct (Py.set_last mangled _) as [mangled'| |]; cbn [Py.bind];
      [discriminate|discriminate|contradiction].
  - pose proof (del_last_length mangled) as Hdel.
    destruct (Py.del_last mangled) as [mangled'| |]; cbn [Py.bind];
      [discriminate|discriminate|contradiction].
Qed.

Lemma integrate_right_fuel (stack : list MessageSegment)
  (segc : MessageSegment) :
  match RelocateSplits.integrate_right toTheRight stack segc with
  | Ok (stack', _) =>
      (Datatypes.length stack' <= Datatypes.length stack)%nat
  | Raise _ => True
  | OutOfFuel => False
  end.
Proof.
  unfold RelocateSplits.integrate_right.
  destruct stack as [|s0 stack0]; [simpl; lia|].
  set (stack := s0 :: stack0).
  pose proof (index_fuel stack (-1)) as Hindex.
  destruct (Py.index stack (-1)) as [segr| |]; cbn [Py.bind];
    [|exact I|congruence].
  destruct (offset segc + length segc =? offset segr); [|lia].
  destruct (0 <? toTheRight segr); [|lia].
  destruct (0 <? length segr - toTheRight segr).
  - pose proof (set_last_length stack
                  (mkSegment (analyzer segr) (offset segr + toTheRight segr)
                     (length segr - toTheRight segr))) as Hset.
    destruct (Py.set_last stack _) as [stack'| |]; cbn [Py.bind];
      [lia|exact I|contradiction].
  - pose proof (del_last_length stack) as Hdel.
    destruct (Py.del_last stack) as [stack'| |]; cbn [Py.bind];
      [lia|exact I|contradiction].
Qed.

Lemma RelocateSplits_split_body_fuel (s : RelocateSplits.state) :
  RelocateSplits.segmentStack s <> [] ->
  match RelocateSplits.split_body toTheLeft toTheRight s with
  | Ok s' =>
      (Datatypes.length (RelocateSplits.segmentStack s')
       < Datatypes.length (RelocateSplits.segmentStack s))%nat
  | Raise _ => True
  | OutOfFuel => False
  end.
Proof.
  intros Hne. unfold RelocateSplits.split_body.
  destruct (RelocateSplits.segmentStack s) as [|segc stack _]
    using rev_ind; [contradiction|].
  rewrite pop_app, length_app. cbn [Py.bind].
  destruct (negb (isPrintable (seg_bytes segc))); [simpl; lia|].
  pose proof (integrate_left_fuel (RelocateSplits.mangledSegments s) segc)
    as Hleft.
  destruct (RelocateSplits.integrate_left toTheLeft _ segc)
    as [[mangled' segc']| |]; cbn [Py.bind]; [|exact I|congruence].
  pose proof (integrate_right_fuel stack segc') as Hright.
  destruct (RelocateSplits.integrate_right toTheRight stack segc')
    as [[stack' segc'']| |]; cbn [Py.bind]; [simpl; lia|exact I|contradiction].
Qed.

(** [RelocateSplits.split] never runs out of its budget. *)
Lemma RelocateSplits_split_fuel (segments : list MessageSegment) :
  RelocateSplits.split toTheLeft toTheRight segments <> OutOfFuel.
Proof.
  unfold RelocateSplits.split.
  destruct (1 <? Py.len segments); [|discriminate].
  pose proof (while_nonempty_fuel RelocateSplits.segmentStack
                (RelocateSplits.split_body toTheLeft toTheRight)
                RelocateSplits_split_body_fuel
                (Datatypes.length segments)
                (RelocateSplits.mkState (rev segments) [])) as H.
  destruct (Py.while_nonempty _ _ _ _) as [s'| |]; cbn [Py.bind];
    [discriminate|discriminate|].
  exfalso. apply H; [cbn; rewrite length_rev; lia|reflexivity].
Qed.

End RelocateFuel.

(* ================================================================== *)
(** * Part III: further properties of the module                       *)
(* ================================================================== *)

(** ** Overlap predicate *)

(** The doctest of [isOverlapping]: no two of the four separate segments
    overlap, the two overlapping pairs do, in either order. *)
Lemma isOverlapping_doctest :
  let s02 := mkSegment ana_doctest 0 2 in
  let s53 := mkSegment ana_doctest 5 3 in
  let s86 := mkSegment ana_doctest 8 6 in
  let s172 := mkSegment ana_doctest 17 2 in
  map (fun p => isOverlapping same_data (fst p) (snd p))
      [(s02, s53); (s02, s86); (s02, s172); (s53, s86); (s53, s172);
       (s86, s172)]
  = [false; false; false; false; false; false] /\
  isOverlapping same_data (mkSegment ana_doctest 0 2) (mkSegment ana_doctest 1 3)
  = true /\
  isOverlapping same_data (mkSegment ana_doctest 7 6) (mkSegment ana_doctest 5 6)
  = true /\
  isOverlapping same_data (mkSegment ana_doctest 1 3) (mkSegment ana_doctest 0 2)
  = true /\
  isOverlapping same_data (mkSegment ana_doctest 5 6) (mkSegment ana_doctest 7 6)
  = true.
Proof. repeat split; reflexivity. Qed.

(** X1: two segments of positive length overlap, by [isOverlapping],
    exactly when their messages are equal and some byte position lies in
    both half-open ranges [offset, nextOffset). *)
Theorem isOverlapping_common_position
  (message_eq : RawMessage -> RawMessage -> bool)
  (segA segB : MessageSegment) :
  0 < length segA -> 0 < length segB ->
  (isOverlapping message_eq segA segB = true <->
   message_eq (message segA) (message segB) = true /\
   exists p, offset segA <= p < nextOffset segA /\
             offset segB <= p < nextOffset segB).
Proof.
  intros HA HB. unfold isOverlapping, nextOffset.
  destruct (message_eq (message segA) (message segB)); cbn [andb].
  - destruct ((offset segA <? offset segB + length segB)
              && (offset segB <? offset segA + length segA)) eqn:E.
    + apply andb_true_iff in E. destruct E as [E1 E2].
      apply Z.ltb_lt in E1, E2. split; [intros _|reflexivity].
      split; [reflexivity|].
      exists (Z.max (offset segA) (offset segB)). lia.
    + split; [discriminate|]. intros (_ & p & Hp1 & Hp2).
      apply andb_false_iff in E.
      destruct E as [E|E]; apply Z.ltb_ge in E; lia.
  - split; [discriminate|]. intros (H & _). discriminate.
Qed.

Lemma isOverlapping_common_position_witness :
  isOverlapping same_data (mkSegment ana_doctest 0 2) (mkSegment ana_doctest 1 3)
  = true <->
  same_data (message (mkSegment ana_doctest 0 2))
            (message (mkSegment ana_doctest 1 3)) = true /\
  exists p, offset (mkSegment ana_doctest 0 2) <= p
            < nextOffset (mkSegment ana_doctest 0 2) /\
            offset (mkSegment ana_doctest 1 3) <= p
            < nextOffset (mkSegment ana_doctest 1 3).
Proof.
  apply (isOverlapping_common_position same_data
           (mkSegment ana_doctest 0 2) (mkSegment ana_doctest 1 3)).
  - simpl. lia.
  - simpl. lia.
Defined.

(** ** Char-run relocation: the two relocation functions *)

Lemma isPrintable_app (a b : bytes) :
  isPrintable (a ++ b) = isPrintable a && isPrintable b.
Proof.
  induction a as [|x a IH]; simpl; [reflexivity|].
  now destruct (isPrintableChar (int_of_byte x)).
Qed.






(** ** Building the corpus frequency table *)

Lemma for_each_app {A X : Type} (body : A -> X -> Py.result A)
  (l1 l2 : list X) (acc : A) :
  Py.for_each body (l1 ++ l2) acc
  = Py.bind (Py.for_each body l1 acc) (Py.for_each body l2).
Proof.
  revert acc. induction l1 as [|x l1 IH]; intros acc; simpl; [reflexivity|].
  destruct (body acc x); simpl; auto.
Qed.

(** A loop whose body keeps a property of the accumulator on the elements
    it returns on. *)
Lemma for_each_preserves {A X : Type} (body : A -> X -> Py.result A)
  (P : A -> Prop) (xs : list X) :
  (forall acc x acc', In x xs -> P acc -> body acc x = Ok acc' -> P acc') ->
  forall acc acc', P acc -> Py.for_each body xs acc = Ok acc' -> P acc'.
Proof.
  induction xs as [|x xs IH]; intros Hbody acc acc' Hacc Hrun; simpl in Hrun.
  - now injection Hrun as <-.
  - destruct (body acc x) as [acc1| |] eqn:E; try discriminate.
    cbn [Py.bind] in Hrun. apply (IH ltac:(intros; eapply Hbody; eauto; now right) acc1);
      [|assumption].
    apply (Hbody acc x); [now left|assumption|assumption].
Qed.

(** The guards of [count_boundary] let exactly the inner boundaries
    through, and the assertion on the window lengths holds for them. *)
Lemma count_boundary_value (msgbytes : bytes) (freq : Counter.t)
  (fieldboundary : Z) :
  Resplit2LeastFrequentPair.count_boundary msgbytes freq fieldboundary
  = Ok (if inner_boundaryb msgbytes fieldboundary
        then let '(across, before, after) :=
               Resplit2LeastFrequentPair.windows msgbytes fieldboundary in
             Counter.update freq [across; before; after]
        else freq).
Proof.
  unfold Resplit2LeastFrequentPair.count_boundary.
  change Resplit2LeastFrequentPair.CHUNKLEN with 2.
  destruct (inner_boundaryb msgbytes fieldboundary) eqn:Einner.
  - apply inner_boundaryb_spec in Einner.
    pose proof (windows_ok_inner _ _ Einner) as Hok.
    destruct Einner as [H1 H2].
    destruct (fieldboundary =? 0) eqn:E0; [apply Z.eqb_eq in E0; lia|].
    destruct (fieldboundary =? Py.len msgbytes) eqn:E1;
      [apply Z.eqb_eq in E1; lia|].
    destruct (fieldboundary <? 2) eqn:E2; [apply Z.ltb_lt in E2; lia|].
    destruct (Py.len msgbytes <? fieldboundary + 2) eqn:E3;
      [apply Z.ltb_lt in E3; lia|].
    cbn [orb].
    destruct (Resplit2LeastFrequentPair.windows msgbytes fieldboundary)
      as [[across before] after].
    now rewrite Hok.
  - destruct (fieldboundary =? 0) eqn:E0; [reflexivity|].
    destruct (fieldboundary =? Py.len msgbytes) eqn:E1; [reflexivity|].
    destruct (fieldboundary <? 2) eqn:E2; [reflexivity|].
    destruct (Py.len msgbytes <? fieldboundary + 2) eqn:E3; [reflexivity|].
    apply Z.ltb_ge in E2, E3.
    assert (inner_boundaryb msgbytes fieldboundary = true)
      by (apply inner_boundaryb_spec; split; lia).
    congruence.
Qed.

Lemma Counter_add_keylen (c : Counter.t) (k : bytes) (n : Z) :
  Forall (fun e => Py.len (fst e) = n) c -> Py.len k = n ->
  Forall (fun e => Py.len (fst e) = n) (Counter.add c k).
Proof.
  intros Hc Hk. induction Hc as [|[k0 m] rest Hk0 Hrest IH]; simpl.
  - now repeat constructor.
  - destruct (bytes_eqb k0 k); constructor; assumption.
Qed.

Lemma Counter_add_ok (c : Counter.t) (k : bytes) :
  table_ok c -> Py.len k = Resplit2LeastFrequentPair.CHUNKLEN ->
  table_ok (Counter.add c k).
Proof.
  intros [Hnd Hall] Hk. split.
  - rewrite Counter_add_keys.
    destruct (in_dec (list_eq_dec Byte.byte_eq_dec) k (map fst c));
      [assumption|now apply NoDup_snoc].
  - assert (Hlen : Forall (fun e => Py.len (fst e)
                                     = Resplit2LeastFrequentPair.CHUNKLEN) c)
      by (eapply Forall_impl; [|exact Hall]; now intros e [H _]).
    assert (Hpos : Forall (fun e => 0 < snd e) c)
      by (eapply Forall_impl; [|exact Hall]; now intros e [_ H]).
    pose proof (Counter_add_keylen c k _ Hlen Hk) as Hlen'.
    pose proof (Counter_add_positive c k Hpos) as Hpos'.
    rewrite Forall_forall in *. intros e He. split; auto.
Qed.

Lemma Counter_get_nonneg (c : Counter.t) (k : bytes) :
  table_ok c -> 0 <= Counter.get c k.
Proof.
  intros [_ Hall]. induction Hall as [|[k0 n] rest [_ Hn] Hrest IH]; simpl.
  - lia.
  - simpl in Hn. destruct (bytes_eqb k0 k); lia.
Qed.

(** One boundary: the table stays well formed, no count decreases, and the
    windows of an inner boundary are counted. *)
Lemma count_boundary_step (msgbytes : bytes) (freq freq' : Counter.t)
  (fieldboundary : Z) :
  table_ok freq ->
  Resplit2LeastFrequentPair.count_boundary msgbytes freq fieldboundary
  = Ok freq' ->
  table_ok freq' /\
  (forall k, Counter.get freq k <= Counter.get freq' k) /\
  (inner_boundary msgbytes fieldboundary -> counted freq' msgbytes fieldboundary).
Proof.
  intros Hok. rewrite count_boundary_value.
  destruct (inner_boundaryb msgbytes fieldboundary) eqn:Einner.
  - apply inner_boundaryb_spec in Einner.
    pose proof (windows_ok_inner _ _ Einner) as Hlens.
    unfold counted.
    destruct (Resplit2LeastFrequentPair.windows msgbytes fieldboundary)
      as [[across before] after].
    intros Hrun. injection Hrun as <-.
    unfold Resplit2LeastFrequentPair.windows_ok in Hlens.
    apply andb_true_iff in Hlens. destruct Hlens as [Hlens H3].
    apply andb_true_iff in Hlens. destruct Hlens as [H1 H2].
    apply Z.eqb_eq in H1, H2, H3.
    split; [|split].
    + now repeat apply Counter_add_ok.
    + intros k. rewrite !Counter_get_add.
      repeat match goal with
             | |- context [bytes_eqb ?a ?b] => destruct (bytes_eqb a b)
             end; lia.
    + intros _.
      pose proof (Counter_get_nonneg freq across Hok).
      pose proof (Counter_get_nonneg freq before Hok).
      pose proof (Counter_get_nonneg freq after Hok).
      rewrite !Counter_get_add, !bytes_eqb_refl.
      repeat match goal with
             | |- context [bytes_eqb ?a ?b] => destruct (bytes_eqb a b)
             end; lia.
  - intros Hrun. injection Hrun as <-.
    split; [assumption|]. split; [intros k; lia|].
    intros H. apply inner_boundaryb_spec in H. congruence.
Qed.

Lemma counted_mono (freq freq' : Counter.t) (d : bytes) (boundary : Z) :
  (forall k, Counter.get freq k <= Counter.get freq' k) ->
  counted freq d boundary -> counted freq' d boundary.
Proof.
  intros Hmono. unfold counted.
  destruct (Resplit2LeastFrequentPair.windows d boundary)
    as [[across before] after].
  intros (H1 & H2 & H3).
  pose proof (Hmono across). pose proof (Hmono before).
  pose proof (Hmono after). lia.
Qed.

(** The boundaries of one message. *)
Lemma count_boundaries (msgbytes : bytes) (offsets : list Z) :
  forall freq freq',
    table_ok freq ->
    Py.for_each (Resplit2LeastFrequentPair.count_boundary msgbytes) offsets freq
    = Ok freq' ->
    table_ok freq' /\
    (forall k, Counter.get freq k <= Counter.get freq' k) /\
    (forall b, In b offsets -> inner_boundary msgbytes b ->
               counted freq' msgbytes b).
Proof.
  induction offsets as [|b0 offsets IH]; intros freq freq' Hok Hrun;
    simpl in Hrun.
  - injection Hrun as <-. split; [assumption|]. split; [intros; lia|].
    intros b [].
  - destruct (Resplit2LeastFrequentPair.count_boundary msgbytes freq b0)
      as [freq1| |] eqn:E; try discriminate.
    cbn [Py.bind] in Hrun.
    destruct (count_boundary_step _ _ _ _ Hok E) as (Hok1 & Hmono1 & Hhit1).
    destruct (IH freq1 freq' Hok1 Hrun) as (Hok' & Hmono' & Hhit').
    split; [assumption|]. split.
    + intros k. specialize (Hmono1 k). specialize (Hmono' k). lia.
    + intros b [<-|Hb] Hinner; [|now apply Hhit'].
      apply (counted_mono freq1); [assumption|now apply Hhit1].
Qed.

(** One message. *)
Lemma count_message_step (freq freq' : Counter.t)
  (segsList : list MessageSegment) :
  table_ok freq ->
  Resplit2LeastFrequentPair.count_message freq segsList = Ok freq' ->
  table_ok freq' /\
  (forall k, Counter.get freq k <= Counter.get freq' k) /\
  (forall seg0 seg,
      hd_error segsList = Some seg0 -> In seg segsList ->
      inner_boundary (data (message seg0)) (offset seg) ->
      counted freq' (data (message seg0)) (offset seg)).
Proof.
  intros Hok. unfold Resplit2LeastFrequentPair.count_message.
  destruct segsList as [|seg0 rest]; [discriminate|].
  rewrite index_head. cbn [Py.bind]. intros Hrun.
  destruct (count_boundaries _ _ _ _ Hok Hrun) as (Hok' & Hmono & Hhit).
  split; [assumption|]. split; [assumption|].
  intros s0 seg [= <-] Hin Hinner. apply Hhit; [|assumption].
  now apply in_map.
Qed.

Lemma count_message_runs (freq : Counter.t) (seg0 : MessageSegment)
  (rest : list MessageSegment) :
  exists freq',
    Resplit2LeastFrequentPair.count_message freq (seg0 :: rest) = Ok freq'.
Proof.
  unfold Resplit2LeastFrequentPair.count_message.
  rewrite index_head. cbn [Py.bind].
  generalize (map offset (seg0 :: rest)). intros offsets. revert freq.
  induction offsets as [|b offsets IH]; intros freq; simpl; [eauto|].
  rewrite count_boundary_value. cbn [Py.bind]. apply IH.
Qed.

(** X4: [countPairFrequencies] fails exactly on a corpus that holds a
    message without segments, with the IndexError of [segsList[0]];
    on every other corpus it returns a table, so the assertion on the
    window lengths never fires. *)
Theorem countPairFrequencies_fails_on_empty_message
  (allMsgsSegs : list (list MessageSegment)) :
  (In [] allMsgsSegs ->
   Resplit2LeastFrequentPair.countPairFrequencies allMsgsSegs
   = Raise IndexError) /\
  (~ In [] allMsgsSegs ->
   exists table,
     Resplit2LeastFrequentPair.countPairFrequencies allMsgsSegs = Ok table).
Proof.
  unfold Resplit2LeastFrequentPair.countPairFrequencies.
  generalize (@nil (bytes * Z)). 
  induction allMsgsSegs as [|segsList corpus IH]; intros freq.
  - split; [intros []|intros _; simpl; eauto].
  - cbn [Py.for_each]. destruct segsList as [|seg0 rest].
    + split; [reflexivity|]. intros H. exfalso. apply H. now left.
    + destruct (count_message_runs freq seg0 rest) as (freq1 & Hone).
      rewrite Hone. cbn [Py.bind]. destruct (IH freq1) as [IHfail IHok].
      split.
      * intros [H|H]; [discriminate|now apply IHfail].
      * intros H. apply IHok. intros Hin. apply H. now right.
Qed.

(** X5: in a table built by [countPairFrequencies] every key is a window
    of exactly two bytes, no window has two entries, and every count is
    positive. *)
Theorem countPairFrequencies_table_ok
  (allMsgsSegs : list (list MessageSegment)) (table : Counter.t) :
  Resplit2LeastFrequentPair.countPairFrequencies allMsgsSegs = Ok table ->
  NoDup (map fst table) /\
  Forall (fun e => Py.len (fst e) = 2 /\ 0 < snd e) table.
Proof.
  intros Hrun.
  apply (for_each_preserves Resplit2LeastFrequentPair.count_message table_ok
           allMsgsSegs) with (acc := []) (acc' := table).
  - intros acc segs acc' _ Hacc Hone.
    now destruct (count_message_step acc acc' segs Hacc Hone).
  - split; constructor.
  - exact Hrun.
Qed.

Lemma countPairFrequencies_table_ok_witness :
  NoDup (map fst table_pqrs) /\
  Forall (fun e => Py.len (fst e) = 2 /\ 0 < snd e) table_pqrs.
Proof.
  apply (countPairFrequencies_table_ok corpus_pqrs table_pqrs).
  reflexivity.
Defined.

(** Later messages only add to the counts. *)
Lemma count_messages_mono (corpus : list (list MessageSegment))
  (freq freq' : Counter.t) :
  table_ok freq ->
  Py.for_each Resplit2LeastFrequentPair.count_message corpus freq = Ok freq' ->
  table_ok freq' /\ forall k, Counter.get freq k <= Counter.get freq' k.
Proof.
  intros Hok Hrun.
  apply (for_each_preserves Resplit2LeastFrequentPair.count_message
           (fun a => table_ok a /\
                     forall k, Counter.get freq k <= Counter.get a k)
           corpus) with (acc := freq) (acc' := freq').
  - intros acc segs acc' _ [Hacc Hmono] Hone.
    destruct (count_message_step acc acc' segs Hacc Hone) as (H1 & H2 & _).
    split; [assumption|]. intros k. specialize (Hmono k).
    specialize (H2 k). lia.
  - split; [assumption|intros; lia].
  - exact Hrun.
Qed.

(** X6: after [countPairFrequencies] has run over a corpus, the three
    windows at every inner segment boundary of every message of the corpus
    (taken, as the loop does, in the bytes of the message of the list's
    first segment) have a count of at least one in the table. *)
Theorem countPairFrequencies_counts_boundaries
  (allMsgsSegs : list (list MessageSegment)) (table : Counter.t)
  (segsList : list MessageSegment) (seg0 seg : MessageSegment) :
  Resplit2LeastFrequentPair.countPairFrequencies allMsgsSegs = Ok table ->
  In segsList allMsgsSegs -> hd_error segsList = Some seg0 ->
  In seg segsList ->
  inner_boundary (data (message seg0)) (offset seg) ->
  counted table (data (message seg0)) (offset seg).
Proof.
  unfold Resplit2LeastFrequentPair.countPairFrequencies.
  intros Hrun Hin Hhd Hseg Hinner.
  destruct (in_split _ _ Hin) as (pre & post & ->).
  rewrite for_each_app in Hrun.
  destruct (Py.for_each Resplit2LeastFrequentPair.count_message pre [])
    as [freq1| |] eqn:Epre; try discriminate.
  cbn [Py.bind Py.for_each] in Hrun.
  destruct (Resplit2LeastFrequentPair.count_message freq1 segsList)
    as [freq2| |] eqn:Eone; try discriminate.
  cbn [Py.bind] in Hrun.
  assert (Hok0 : table_ok []) by (split; constructor).
  destruct (count_messages_mono pre [] freq1 Hok0 Epre) as [Hok1 _].
  destruct (count_message_step freq1 freq2 segsList Hok1 Eone)
    as (Hok2 & _ & Hhit).
  destruct (count_messages_mono post freq2 table Hok2 Hrun) as [_ Hmono].
  apply (counted_mono freq2); [assumption|].
  now apply Hhit.
Qed.

Lemma countPairFrequencies_counts_boundaries_witness :
  counted table_pqrs (data msg_pqrs) 2.
Proof.
  apply (countPairFrequencies_counts_boundaries corpus_pqrs table_pqrs
           segs_pqrs (mkSegment ana_pqrs 0 2)
           (mkSegment ana_pqrs 2 2)).
  - reflexivity.
  - simpl. auto.
  - reflexivity.
  - simpl. auto.
  - split; vm_compute; discriminate.
Defined.

(** X7: with a frequency table, [lookupLeastFrequent] always returns one of
    the shifts -1, 0 and 1: its assertion on the window lengths never
    fails, it never falls off its end, and a missing window counts as zero
    instead of raising; a shift other than 0 is only returned at an inner
    boundary. *)
Theorem lookupLeastFrequent_shift (table : Counter.t) (seg : MessageSegment) :
  exists shift,
    Resplit2LeastFrequentPair.lookupLeastFrequent (Some table) seg = Ok shift /\
    (shift = -1 \/ shift = 0 \/ shift = 1) /\
    (shift <> 0 -> inner_boundary (data (message seg)) (offset seg)).
Proof.
  destruct (lookupLeastFrequent_total table seg) as (shift & Hrun & Hrange).
  exists shift. split; [assumption|]. split; [lia|].
  intros Hshift.
  destruct (inner_boundaryb (data (message seg)) (offset seg)) eqn:Einner.
  - now apply inner_boundaryb_spec.
  - assert (Hout : ~ inner_boundary (data (message seg)) (offset seg)).
    { intros H. apply inner_boundaryb_spec in H. congruence. }
    rewrite (lookupLeastFrequent_outer (Some table) seg Hout) in Hrun.
    congruence.
Qed.

(** ** The passes keep the bytes: the message "ABCDEF", 0x00, 0x01 *)

Lemma Merger_merge_bytes_witness :
  exists out,
    Merger.merge MergeConsecutiveChars.condition segs_text = Ok out /\
    join_bytes out = join_bytes segs_text /\
    Forall (within (data msg_text)) out.
Proof.
  apply (Merger_merge_bytes MergeConsecutiveChars.condition (data msg_text)
           segs_text).
  within_list.
Defined.

Lemma SplitFixed_split_bytes_witness :
  exists out,
    SplitFixed.split segs_text 1 1 = Ok out /\
    join_bytes out = join_bytes segs_text.
Proof.
  apply (SplitFixed_split_bytes (data msg_text) segs_text 1 1
           (mkSegment ana_text 2 2)).
  - lia.
  - reflexivity.
  - unfold within; split_all; vm_compute; discriminate.
  - left. lia.
Defined.

Lemma CropDistinct_split_bytes_witness :
  join_bytes (CropDistinct.split segs_text [[x00; x01]; [x42]])
  = join_bytes segs_text /\
  Forall (within (data msg_text))
    (CropDistinct.split segs_text [[x00; x01]; [x42]]).
Proof.
  apply (CropDistinct_split_bytes (data msg_text) [[x00; x01]; [x42]]
           segs_text).
  within_list.
Defined.

Lemma Resplit2_split_bytes_witness :
  exists out,
    Resplit2LeastFrequentPair.split (Some table_pqrs) segs_pqrs = Ok out /\
    join_bytes out = join_bytes segs_pqrs /\
    Forall (within (data msg_pqrs)) out.
Proof.
  apply (Resplit2_split_bytes (data msg_pqrs) table_pqrs segs_pqrs).
  - discriminate.
  - within_list.
Defined.

Lemma ResplitConsecutiveChars_split_bytes_witness :
  exists out,
    ResplitConsecutiveChars.split segs_text = Ok out /\
    join_bytes out = join_bytes segs_text /\
    Forall (within (data msg_text)) out.
Proof.
  apply (ResplitConsecutiveChars_split_bytes (data msg_text) segs_text).
  - simpl. lia.
  - within_list.
Defined.

Lemma CumulativeCharMerger_merge_bytes_witness :
  exists out,
    CumulativeCharMerger.merge isPrintable segs_text = Ok out /\
    join_bytes out = join_bytes segs_text /\
    Forall (within (data msg_text)) out.
Proof.
  apply (CumulativeCharMerger_merge_bytes isPrintable (data msg_text)
           segs_text).
  - within_list.
  - simpl. split_all.
Defined.

(** ** When the cumulative merger leaves a message alone *)

(** X14: [CumulativeCharMerger.merge] returns its input unchanged unless
    some run of consecutive segments with at least [minLen] (6) bytes
    passes the character test: shorter runs are never tested, and a buffer
    that fails the test is emitted segment by segment. *)
Theorem CumulativeCharMerger_merge_unchanged
  (isExtendedCharSeq : bytes -> bool) (segments : list MessageSegment) :
  (forall pre run post,
      segments = pre ++ run ++ post ->
      CumulativeCharMerger.too_short run = false ->
      CumulativeCharMerger.char_test isExtendedCharSeq run = false) ->
  CumulativeCharMerger.merge isExtendedCharSeq segments = Ok segments.
Proof.
  intros Hnone.
  unfold CumulativeCharMerger.merge, CumulativeCharMerger.merge_fuel.
  set (Inv := fun s : CumulativeCharMerger.state =>
    CumulativeCharMerger.isCharCand s = false /\
    CumulativeCharMerger.newmsg s
    ++ CumulativeCharMerger.workingStack s
    ++ rev (CumulativeCharMerger.segmentStack s) = segments).
  destruct (while_nonempty_invariant CumulativeCharMerger.segmentStack
              (CumulativeCharMerger.merge_body isExtendedCharSeq) Inv
              remaining_work)
    with (fuel := CumulativeCharMerger.budget segments)
         (s := CumulativeCharMerger.initial segments)
    as (s' & Hrun & [Hcand Hall] & Hdone).
  - intros s [Hcand Hall] Hstack.
    destruct (CumulativeCharMerger.segmentStack s) as [|top rest _] eqn:Hs
      using rev_ind; [contradiction|].
    assert (Hbody : exists s2,
               CumulativeCharMerger.merge_body isExtendedCharSeq s = Ok s2
               /\ Inv s2).
    { unfold CumulativeCharMerger.merge_body.
      rewrite Hs, pop_app. cbn [Py.bind].
      rewrite rev_app_distr in Hall. cbn [rev app] in Hall.
      destruct (CumulativeCharMerger.too_short
                  (CumulativeCharMerger.workingStack s ++ [top])) eqn:Eshort.
      - eexists. split; [reflexivity|]. split; [exact Hcand|].
        cbn [CumulativeCharMerger.newmsg CumulativeCharMerger.workingStack
             CumulativeCharMerger.segmentStack].
        now rewrite <- app_assoc.
      - rewrite (Hnone (CumulativeCharMerger.newmsg s)
                   (CumulativeCharMerger.workingStack s ++ [top]) (rev rest))
          by first [assumption | rewrite <- Hall, <- app_assoc; reflexivity].
        rewrite Hcand.
        destruct (snoc_is_cons (CumulativeCharMerger.workingStack s) top)
          as (w0 & tail & Ew).
        rewrite Ew, index_head, slice_from_1. cbn [Py.bind tl].
        eexists. split; [reflexivity|]. split; [reflexivity|].
        cbn [CumulativeCharMerger.newmsg CumulativeCharMerger.workingStack
             CumulativeCharMerger.segmentStack app].
        rewrite rev_app_distr, rev_involutive, <- Hall.
        change (CumulativeCharMerger.workingStack s ++ top :: rev rest)
          with (CumulativeCharMerger.workingStack s ++ [top] ++ rev rest).
        rewrite (app_assoc (CumulativeCharMerger.workingStack s)), Ew.
        rewrite <- !app_assoc. reflexivity. }
    destruct Hbody as (s2 & Hbody & Hinv2).
    exists s2. split; [exact Hbody|]. split; [exact Hinv2|].
    apply (merge_body_decreases isExtendedCharSeq s s2);
      [rewrite Hs; apply snoc_not_nil|exact Hbody].
  - split; [reflexivity|]. unfold CumulativeCharMerger.initial.
    cbn [CumulativeCharMerger.newmsg CumulativeCharMerger.workingStack
         CumulativeCharMerger.segmentStack app].
    apply rev_involutive.
  - unfold remaining_work, CumulativeCharMerger.budget,
      CumulativeCharMerger.initial. cbn. rewrite length_rev. nia.
  - rewrite Hrun. cbn [Py.bind]. unfold CumulativeCharMerger.merge_flush.
    rewrite Hcand, andb_false_r. f_equal.
    rewrite Hdone in Hall. cbn [rev] in Hall. now rewrite app_nil_r in Hall.
Qed.

Lemma CumulativeCharMerger_merge_unchanged_witness :
  CumulativeCharMerger.merge (fun _ => false) segs_text = Ok segs_text.
Proof.
  apply (CumulativeCharMerger_merge_unchanged (fun _ => false) segs_text).
  intros pre run post _ _. reflexivity.
Defined.

(** ** Cropping common values *)

Lemma find_absent (m c : bytes) : ~ substring c m -> find m c = -1.
Proof.
  intros H. destruct (find_from_spec c m 0 ltac:(lia)) as [Hiff Hcases].
  fold (find m c) in Hiff, Hcases.
  destruct Hcases as [E|E]; [assumption|].
  exfalso. apply H, Hiff. lia.
Qed.

(** [find] returns the position of the first occurrence. *)
Lemma find_from_first (sub : bytes) :
  forall (bstring : bytes) (i : Z),
    0 <= i -> find_from i bstring sub <> -1 ->
    exists pre post,
      bstring = pre ++ sub ++ post /\
      find_from i bstring sub = i + Py.len pre /\
      forall pre' post',
        bstring = pre' ++ sub ++ post' -> Py.len pre <= Py.len pre'.
Proof.
  induction bstring as [|b rest IH]; intros i Hi Hfound.
  - cbn [find_from] in *.
    destruct (starts_with sub []) eqn:E; [|contradiction].
    apply starts_with_spec in E. destruct E as (post & E).
    exists [], post. split; [exact E|]. split; [cbn; lia|].
    intros pre' post' _. apply len_nonneg.
  - cbn [find_from] in *.
    destruct (starts_with sub (b :: rest)) eqn:E.
    + apply starts_with_spec in E. destruct E as (post & E).
      exists [], post. split; [exact E|]. split; [cbn; lia|].
      intros pre' post' _. apply len_nonneg.
    + destruct (IH (i + 1) ltac:(lia) Hfound)
        as (pre & post & Hcut & Hpos & Hmin).
      exists (b :: pre), post. split; [now rewrite Hcut|].
      split; [rewrite Hpos, len_cons; lia|].
      intros [|b' pre'] post' Hcut'.
      * assert (starts_with sub (b :: rest) = true)
          by (apply starts_with_spec; now exists post').
        congruence.
      * injection Hcut' as _ Hcut'. rewrite !len_cons.
        specialize (Hmin pre' post' Hcut'). lia.
Qed.

Lemma crop_skip (seg : MessageSegment) (skipped rest : list bytes) :
  (forall c, In c skipped -> ~ substring c (seg_bytes seg)) ->
  CropDistinct.crop seg (skipped ++ rest) = CropDistinct.crop seg rest.
Proof.
  induction skipped as [|c skipped IH]; intros H; [reflexivity|].
  cbn [app CropDistinct.crop].
  rewrite (find_absent (seg_bytes seg) c) by (apply H; now left).
  cbn [Z.eqb Pos.eqb]. apply IH. intros c' Hc'. apply H. now right.
Qed.

Lemma CropDistinct_split_acc (moco : list bytes)
  (segments : list MessageSegment) :
  forall newmsg,
    fold_left (CropDistinct.split_body moco) segments newmsg
    = newmsg ++ CropDistinct.split segments moco.
Proof.
  unfold CropDistinct.split.
  induction segments as [|seg segments IH]; intros newmsg; cbn [fold_left].
  - now rewrite app_nil_r.
  - rewrite IH, (IH (CropDistinct.split_body moco [] seg)).
    unfold CropDistinct.split_body.
    destruct (CropDistinct.crop seg moco); cbn [app];
      now rewrite <- app_assoc.
Qed.

(** X15: [CropDistinct.split] treats every segment on its own: the result
    for a sequence is the concatenation of the results for its segments,
    in order. *)
Theorem CropDistinct_split_per_segment (moco : list bytes)
  (segments : list MessageSegment) :
  CropDistinct.split segments moco
  = concat (map (fun seg => CropDistinct.split [seg] moco) segments).
Proof.
  induction segments as [|seg segments IH]; [reflexivity|].
  cbn [map concat]. rewrite <- IH.
  unfold CropDistinct.split at 1. cbn [fold_left].
  rewrite CropDistinct_split_acc. reflexivity.
Qed.

(** X16: [CropDistinct.split] returns the sequence unchanged when none of
    the values occurs in the bytes of any segment, in particular for an
    empty list of values. *)
Theorem CropDistinct_split_no_match (moco : list bytes)
  (segments : list MessageSegment) :
  (forall seg c, In seg segments -> In c moco ->
                 ~ substring c (seg_bytes seg)) ->
  CropDistinct.split segments moco = segments.
Proof.
  induction segments as [|seg segments IH]; intros H; [reflexivity|].
  unfold CropDistinct.split. cbn [fold_left].
  rewrite CropDistinct_split_acc.
  rewrite IH by (intros s c Hs Hc; apply H; [now right|assumption]).
  unfold CropDistinct.split_body.
  rewrite <- (app_nil_r moco), crop_skip
    by (intros c Hc; apply H; [now left|assumption]).
  reflexivity.
Qed.

Lemma CropDistinct_split_no_match_witness :
  CropDistinct.split segs_text [[x5a; x5a]] = segs_text.
Proof.
  apply (CropDistinct_split_no_match [[x5a; x5a]] segs_text).
  intros seg c Hseg [<-|[]] Hsub.
  apply find_substring in Hsub.
  simpl in Hseg.
  repeat (destruct Hseg as [<-|Hseg]; [vm_compute in Hsub; discriminate|]).
  contradiction.
Defined.

(** X17: when a value occurs in a segment and no value listed before it
    does, [CropDistinct.split] crops the first occurrence of that value:
    the segment is replaced by the part before the occurrence (if not
    empty), a segment of exactly the value's length at the occurrence, and
    the part after it (if not empty); values listed later play no part. *)
Theorem CropDistinct_split_crops_first (d : bytes) (seg : MessageSegment)
  (skipped : list bytes) (comfeat : bytes) (later : list bytes) :
  within d seg ->
  (forall c, In c skipped -> ~ substring c (seg_bytes seg)) ->
  substring comfeat (seg_bytes seg) ->
  exists pre post,
    seg_bytes seg = pre ++ comfeat ++ post /\
    (forall pre' post',
        seg_bytes seg = pre' ++ comfeat ++ post' ->
        Py.len pre <= Py.len pre') /\
    CropDistinct.split [seg] (skipped ++ comfeat :: later)
    = match pre with
      | [] => []
      | _ :: _ => [mkSegment (analyzer seg) (offset seg) (Py.len pre)]
      end
      ++ [mkSegment (analyzer seg) (offset seg + Py.len pre) (Py.len comfeat)]
      ++ match post with
         | [] => []
         | _ :: _ => [mkSegment (analyzer seg)
                        (offset seg + Py.len pre + Py.len comfeat)
                        (Py.len post)]
         end.
Proof.
  intros Hw Hskipped Hsub.
  apply find_substring in Hsub.
  destruct (find_from_first comfeat (seg_bytes seg) 0 ltac:(lia))
    as (pre & post & Hcut & Hpos & Hmin);
    [fold (find (seg_bytes seg) comfeat); lia|].
  fold (find (seg_bytes seg) comfeat) in Hpos.
  exists pre, post. split; [exact Hcut|]. split; [exact Hmin|].
  unfold CropDistinct.split. cbn [fold_left].
  unfold CropDistinct.split_body. rewrite crop_skip by assumption.
  cbn [CropDistinct.crop app]. rewrite Hpos.
  pose proof (len_seg_bytes d seg Hw) as Hlen.
  rewrite Hcut, !len_app in Hlen.
  pose proof (len_nonneg pre) as Hpre. pose proof (len_nonneg post) as Hpost.
  destruct (0 + Py.len pre =? -1) eqn:E; [apply Z.eqb_eq in E; lia|].
  clear E. rewrite Z.add_0_l.
  destruct (length seg =? Py.len comfeat) eqn:Esame.
  - apply Z.eqb_eq in Esame.
    assert (Epre : pre = []) by (destruct pre; [reflexivity|
      rewrite len_cons in *; pose proof (len_nonneg pre); lia]).
    assert (Epost : post = []) by (destruct post; [reflexivity|
      rewrite len_cons in *; pose proof (len_nonneg post); lia]).
    subst pre post. cbn [app]. change (Py.len (@nil byte)) with 0.
    rewrite Z.add_0_r, <- Esame. now rewrite segment_eta.
  - replace (length seg - Py.len pre - Py.len comfeat) with (Py.len post)
      by lia.
    f_equal; [|f_equal].
    + destruct pre as [|b pre]; [reflexivity|].
      rewrite len_cons in *. pose proof (len_nonneg pre).
      now replace (0 <? 1 + Py.len pre) with true
        by (symmetry; apply Z.ltb_lt; lia).
    + destruct post as [|b post]; [reflexivity|].
      rewrite len_cons in *. pose proof (len_nonneg post).
      now replace (0 <? 1 + Py.len post) with true
        by (symmetry; apply Z.ltb_lt; lia).
Qed.

Lemma CropDistinct_split_crops_first_witness :
  exists pre post,
    seg_bytes (mkSegment ana_text 0 8) = pre ++ [x43; x44] ++ post /\
    (forall pre' post',
        seg_bytes (mkSegment ana_text 0 8) = pre' ++ [x43; x44] ++ post' ->
        Py.len pre <= Py.len pre') /\
    CropDistinct.split [mkSegment ana_text 0 8]
      ([[x5a; x5a]] ++ [x43; x44] :: [[x41; x42]])
    = match pre with
      | [] => []
      | _ :: _ => [mkSegment ana_text 0 (Py.len pre)]
      end
      ++ [mkSegment ana_text (0 + Py.len pre) (Py.len [x43; x44])]
      ++ match post with
         | [] => []
         | _ :: _ => [mkSegment ana_text
                        (0 + Py.len pre + Py.len [x43; x44]) (Py.len post)]
         end.
Proof.
  apply (CropDistinct_split_crops_first (data msg_text)
           (mkSegment ana_text 0 8) [[x5a; x5a]] [x43; x44] [[x41; x42]]).
  - unfold within; split_all; vm_compute; discriminate.
  - intros c [<-|[]] Hsub. apply find_substring in Hsub.
    vm_compute in Hsub. discriminate.
  - apply find_substring. vm_compute. reflexivity.
Defined.

(** ** The order of the common values *)

Lemma StronglySorted_filter {A : Type} (R : A -> A -> Prop) (f : A -> bool)
  (l : list A) :
  StronglySorted R l -> StronglySorted R (filter f l).
Proof.
  induction 1 as [|x l Hl IH Hx]; simpl; [constructor|].
  destruct (f x); [|assumption].
  constructor; [assumption|].
  rewrite Forall_forall in *. intros y Hy. apply Hx.
  now apply filter_In in Hy.
Qed.

Lemma NoDup_map_filter {A B : Type} (g : A -> B) (f : A -> bool) (l : list A) :
  NoDup (map g l) -> NoDup (map g (filter f l)).
Proof.
  induction l as [|x l IH]; simpl; intros H; [constructor|].
  inversion H as [|y l' Hx Hl]; subst.
  destruct (f x); [|now apply IH].
  simpl. constructor; [|now apply IH].
  intros Hin. apply Hx. apply in_map_iff in Hin.
  destruct Hin as (z & Hz & Hin). apply filter_In in Hin.
  apply in_map_iff. exists z. tauto.
Qed.

Lemma Counter_most_common_NoDup (c : Counter.t) :
  NoDup (map fst c) -> NoDup (map fst (Counter.most_common c)).
Proof.
  unfold Counter.most_common.
  induction c as [|x c IH]; simpl; intros H; [constructor|].
  inversion H as [|y l' Hx Hc]; subst. specialize (IH Hc).
  assert (Hnew : ~ In (fst x) (map fst (fold_right Counter.insert [] c))).
  { intros Hin. apply Hx. apply in_map_iff in Hin.
    destruct Hin as (z & Hz & Hin).
    apply (Counter_most_common_In z c) in Hin.
    apply in_map_iff. now exists z. }
  revert IH Hnew. generalize (fold_right Counter.insert [] c). clear.
  intros l. induction l as [|y l IH]; simpl; intros Hl Hnew.
  - constructor; [intros []|constructor].
  - destruct (snd y <=? snd x); simpl.
    + constructor; [exact Hnew|exact Hl].
    + inversion Hl as [|y' l' Hy Hl']; subst.
      constructor.
      * intros Hin. apply in_map_iff in Hin.
        destruct Hin as (z & Hz & Hin).
        apply Counter_insert_In in Hin. destruct Hin as [->|Hin].
        -- apply Hnew. now left.
        -- apply Hy. apply in_map_iff. now exists z.
      * apply IH; [assumption|]. intros Hin. apply Hnew. now right.
Qed.

(** The keys of a list sorted by count are sorted by the count they
    stand for. *)
Lemma sorted_keys (count : bytes -> Z) (l : Counter.t) :
  StronglySorted (fun a b => snd b <= snd a) l ->
  Forall (fun e => snd e = count (fst e)) l ->
  StronglySorted (fun a b => count b <= count a) (map fst l).
Proof.
  induction 1 as [|x l Hl IH Hx]; simpl; intros Hcount; [constructor|].
  inversion Hcount as [|y l' Hcx Hcl]; subst.
  constructor; [now apply IH|].
  rewrite Forall_forall in *. intros k Hk. apply in_map_iff in Hk.
  destruct Hk as (e & <- & He).
  rewrite <- Hcx, <- (Hcl e He). now apply Hx.
Qed.

(** X18: [countCommonValues] returns the common values without
    repetition and in the order of [most_common]: by descending number of
    occurrences among the segments of the corpus. *)
Theorem countCommonValues_order
  (segmentedMessages : list (list MessageSegment)) :
  NoDup (CropDistinct.countCommonValues segmentedMessages) /\
  StronglySorted
    (fun a b =>
       occurrences (map seg_bytes (concat segmentedMessages)) b
       <= occurrences (map seg_bytes (concat segmentedMessages)) a)
    (CropDistinct.countCommonValues segmentedMessages).
Proof.
  unfold CropDistinct.countCommonValues.
  assert (H : NoDup (CropDistinct.frequentValues segmentedMessages) /\
              StronglySorted
                (fun a b =>
                   occurrences (map seg_bytes (concat segmentedMessages)) b
                   <= occurrences (map seg_bytes (concat segmentedMessages)) a)
                (CropDistinct.frequentValues segmentedMessages)).
  { unfold CropDistinct.frequentValues.
    set (all := map seg_bytes (concat segmentedMessages)).
    set (n := Py.len segmentedMessages).
    pose proof (Counter_most_common_sorted (Counter.of_list all)) as Hsorted.
    destruct (thre_loop_prefix n _ Hsorted 0) as [Hle Hprefix].
    rewrite Z.sub_0_r in Hprefix.
    rewrite slice_upto, Hprefix by assumption.
    split.
    - do 2 apply NoDup_map_filter. apply Counter_most_common_NoDup.
      apply (Counter_update_NoDup all []). constructor.
    - apply sorted_keys.
      + now do 2 apply StronglySorted_filter.
      + apply Forall_forall. intros [k ct] Hin.
        apply filter_In in Hin. destruct Hin as [Hin _].
        apply filter_In in Hin. destruct Hin as [Hin _].
        apply Counter_most_common_In, Counter_of_list_entries in Hin.
        now destruct Hin as [-> _]. }
  destruct H as [Hnd Hsorted].
  split; [now apply NoDup_filter|now apply StronglySorted_filter].
Qed.

(** ** Fixed points of the merge *)

Section MergeFixedPoints.

Variable condition : MessageSegment -> MessageSegment -> bool.

Lemma runs_length (segments : list MessageSegment) :
  (Datatypes.length (runs condition segments)
   <= Datatypes.length segments)%nat.
Proof.
  induction segments as [|s [|r rest] IH]; [simpl; lia|simpl; lia|].
  rewrite runs_step.
  destruct (runs condition (r :: rest)) as [|run others]; [simpl; lia|].
  destruct (linked condition s r); simpl in *; lia.
Qed.

Lemma merge_runs_length (segments : list MessageSegment) :
  Datatypes.length (merge_runs condition segments)
  = Datatypes.length (runs condition segments).
Proof.
  unfold merge_runs.
  pose proof (runs_chain condition segments) as Hchain.
  induction Hchain as [|run rs Hrun Hrs IH]; [reflexivity|].
  cbn [flat_map]. rewrite length_app, IH.
  now destruct Hrun.
Qed.

Lemma merge_runs_no_link (segments : list MessageSegment) :
  no_link condition segments -> merge_runs condition segments = segments.
Proof.
  unfold merge_runs.
  induction segments as [|s [|r rest] IH]; intros Hno; [reflexivity| |].
  - cbn [runs flat_map collapse map app].
    rewrite sum_cons. change (Py.sum []) with 0.
    now rewrite Z.add_0_r, segment_eta.
  - destruct Hno as [Hlink Hno]. rewrite runs_step.
    destruct (runs_head condition r rest) as (t & others & Hruns).
    rewrite Hruns, Hlink in *. specialize (IH Hno).
    cbn [flat_map] in IH |- *. rewrite IH. cbn [collapse map app].
    rewrite sum_cons. change (Py.sum []) with 0.
    now rewrite Z.add_0_r, segment_eta.
Qed.

(** X19: [Merger.merge] returns its input unchanged exactly when no two
    neighbouring segments are byte-adjacent and satisfy the condition;
    any such pair makes the output shorter than the input. *)
Theorem Merger_merge_fixed_point (segments : list MessageSegment) :
  Merger.merge condition segments = Ok segments <->
  no_link condition segments.
Proof.
  rewrite merge_is_merge_runs. split.
  - intros Hsame. injection Hsame as Hsame.
    assert (Hlen : Datatypes.length (runs condition segments)
                   = Datatypes.length segments)
      by (now rewrite <- merge_runs_length, Hsame).
    clear Hsame.
    induction segments as [|s [|r rest] IH]; [exact I|exact I|].
    rewrite runs_step in Hlen.
    pose proof (runs_length (r :: rest)) as Hle.
    destruct (runs condition (r :: rest)) as [|run others] eqn:Hruns;
      [simpl in Hlen; lia|].
    destruct (linked condition s r) eqn:Hlink.
    + simpl in Hlen, Hle. lia.
    + split; [exact Hlink|]. apply IH. simpl in Hlen |- *. lia.
  - intros Hno. now rewrite merge_runs_no_link.
Qed.

End MergeFixedPoints.

(** ** Merging printable neighbours twice *)

Lemma last_cons {A : Type} (rest : list A) :
  forall r d : A, last (r :: rest) d = last rest r.
Proof.
  induction rest as [|x rest IH]; intros r d; [reflexivity|].
  change (last (r :: x :: rest) d) with (last (x :: rest) d).
  now rewrite !IH.
Qed.

Lemma gapless_end (first : MessageSegment) (rest : list MessageSegment) :
  gapless (first :: rest) ->
  nextOffset (last rest first)
  = offset first + Py.sum (map length (first :: rest)).
Proof.
  revert first. induction rest as [|r rest IH]; intros first Hgap.
  - cbn [last map]. rewrite sum_cons. change (Py.sum []) with 0.
    unfold nextOffset. lia.
  - destruct Hgap as [Hnext Hgap]. specialize (IH r Hgap).
    cbn [map] in *. rewrite sum_cons.
    rewrite last_cons, IH. unfold nextOffset in Hnext. lia.
Qed.

Lemma join_bytes_printable (segments : list MessageSegment)
  (seg : MessageSegment) :
  isPrintable (join_bytes segments) = true -> In seg segments ->
  isPrintable (seg_bytes seg) = true.
Proof.
  induction segments as [|s segments IH]; intros Hp []; subst;
    rewrite join_bytes_cons, isPrintable_app in Hp;
    apply andb_true_iff in Hp; destruct Hp as [H1 H2]; auto.
Qed.

Lemma last_In {A : Type} (l : list A) (x : A) : In (last l x) (x :: l).
Proof.
  revert x. induction l as [|y l IH]; intros x; [now left|].
  right. rewrite last_cons. apply IH.
Qed.

(** Two neighbouring merged segments cannot be merged again: if they were
    linked, so would the last segment of the first run and the first of the
    second be. *)
Lemma collapsed_runs_no_link (d : bytes) (rs : list (list MessageSegment)) :
  Forall (chain MergeConsecutiveChars.condition) rs ->
  separated MergeConsecutiveChars.condition rs ->
  Forall (within d) (concat rs) ->
  no_link MergeConsecutiveChars.condition (flat_map collapse rs).
Proof.
  intros Hchain. induction Hchain as [|run1 rs Hrun1 Hrs IH];
    intros Hsep Hin; [exact I|].
  inversion Hsep as [|run|r1 run2 others a b Ha Hb Hne1 Hne2 Hlink Hsep'];
    subst.
  - destruct Hrun1; exact I.
  - cbn [concat] in Hin. apply Forall_app in Hin. destruct Hin as [Hin1 Hin].
    specialize (IH Hsep' Hin).
    inversion Hrs as [|r2 rs' Hrun2 _]; subst.
    cbn [concat] in Hin. apply Forall_app in Hin. destruct Hin as [Hin2 _].
    assert (Hfirst1 : exists s1 t1, run1 = s1 :: t1)
      by (destruct Hrun1; eauto).
    assert (Hfirst2 : exists s2 t2, run2 = s2 :: t2)
      by (destruct Hrun2; eauto).
    destruct Hfirst1 as (s1 & t1 & ->). destruct Hfirst2 as (s2 & t2 & ->).
    cbn [flat_map] in IH |- *. cbn [collapse app] in IH |- *.
    split; [|exact IH].
    cbn [hd] in Hb. subst b.
    pose proof (chain_gapless _ _ Hrun1) as Hgap1.
    pose proof (chain_gapless _ _ Hrun2) as Hgap2.
    destruct (spanning_segment_bytes d s1 t1 Hin1 Hgap1) as [_ Hb1].
    destruct (spanning_segment_bytes d s2 t2 Hin2 Hgap2) as [_ Hb2].
    destruct (linked MergeConsecutiveChars.condition
                (mkSegment (analyzer s1) (offset s1)
                   (Py.sum (map length (s1 :: t1))))
                (mkSegment (analyzer s2) (offset s2)
                   (Py.sum (map length (s2 :: t2))))) eqn:Hmerged;
      [exfalso|reflexivity].
    unfold linked, MergeConsecutiveChars.condition in Hmerged, Hlink.
    rewrite Hb1, Hb2 in Hmerged. cbn [offset length] in Hmerged.
    apply andb_true_iff in Hmerged. destruct Hmerged as [Hadj Hprint].
    apply andb_true_iff in Hprint. destruct Hprint as [Hp1 Hp2].
    assert (Hlast : a = last t1 s1).
    { rewrite <- Ha. apply last_cons. }
    pose proof (gapless_end s1 t1 Hgap1) as Hend. rewrite <- Hlast in Hend.
    unfold nextOffset in Hend.
    rewrite (join_bytes_printable (s1 :: t1) a Hp1) in Hlink
      by (rewrite Hlast; apply last_In).
    rewrite (join_bytes_printable (s2 :: t2) s2 Hp2) in Hlink by now left.
    rewrite Hend, Hadj in Hlink. discriminate.
Qed.

(** X20: [MergeConsecutiveChars.merge] is idempotent on segments inside
    one message: merging its own output changes nothing. *)
Theorem MergeConsecutiveChars_merge_idempotent (d : bytes)
  (segments : list MessageSegment) :
  Forall (within d) segments ->
  exists out,
    MergeConsecutiveChars.merge segments = Ok out /\
    MergeConsecutiveChars.merge out = Ok out.
Proof.
  intros Hin. unfold MergeConsecutiveChars.merge.
  rewrite merge_is_merge_runs. eexists. split; [reflexivity|].
  rewrite merge_is_merge_runs. f_equal.
  apply merge_runs_no_link.
  apply (collapsed_runs_no_link d).
  - apply runs_chain.
  - apply runs_separated.
  - now rewrite concat_runs.
Qed.

Lemma MergeConsecutiveChars_merge_idempotent_witness :
  exists out,
    MergeConsecutiveChars.merge segs_text = Ok out /\
    MergeConsecutiveChars.merge out = Ok out.
Proof.
  apply (MergeConsecutiveChars_merge_idempotent (data msg_text) segs_text).
  within_list.
Defined.

(** ** Sequences the passes leave alone *)

(** X21: whatever the two scans are, [RelocateSplits.split] returns a
    sequence of two or more segments unchanged when none of its segments
    is printable throughout: every relocation is cancelled. *)
Theorem RelocateSplits_split_no_text (toTheLeft toTheRight : MessageSegment -> Z)
  (segments : list MessageSegment) :
  (1 < Datatypes.length segments)%nat ->
  Forall (fun seg => isPrintable (seg_bytes seg) = false) segments ->
  RelocateSplits.split toTheLeft toTheRight segments = Ok segments.
Proof.
  intros Hlen Hnone. unfold RelocateSplits.split.
  replace (1 <? Py.len segments) with true
    by (symmetry; apply Z.ltb_lt; unfold Py.len; lia).
  set (Inv := fun s : RelocateSplits.state =>
    RelocateSplits.mangledSegments s ++ rev (RelocateSplits.segmentStack s)
    = segments).
  destruct (while_nonempty_invariant RelocateSplits.segmentStack
              (RelocateSplits.split_body toTheLeft toTheRight) Inv
              (fun s => Datatypes.length (RelocateSplits.segmentStack s)))
    with (fuel := Datatypes.length segments)
         (s := RelocateSplits.mkState (rev segments) [])
    as (s' & Hrun & Hinv & Hdone).
  - intros s Hinv Hstack. unfold Inv in Hinv.
    destruct (RelocateSplits.segmentStack s) as [|top rest _] eqn:Hs
      using rev_ind; [contradiction|].
    unfold RelocateSplits.split_body. rewrite Hs, pop_app. cbn [Py.bind].
    rewrite rev_app_distr in Hinv. cbn [rev app] in Hinv.
    assert (Htop : isPrintable (seg_bytes top) = false).
    { rewrite Forall_forall in Hnone. apply Hnone. rewrite <- Hinv.
      apply in_or_app. right. now left. }
    rewrite Htop. cbn [negb]. eexists. split; [reflexivity|].
    unfold Inv.
    cbn [RelocateSplits.mangledSegments RelocateSplits.segmentStack].
    rewrite <- app_assoc. split; [exact Hinv|].
    rewrite length_app. simpl. lia.
  - unfold Inv.
    cbn [RelocateSplits.mangledSegments RelocateSplits.segmentStack app].
    apply rev_involutive.
  - cbn [RelocateSplits.segmentStack]. rewrite length_rev. lia.
  - rewrite Hrun. cbn [Py.bind]. f_equal. unfold Inv in Hinv.
    rewrite Hdone in Hinv. cbn [rev] in Hinv. now rewrite app_nil_r in Hinv.
Qed.

Lemma RelocateSplits_split_no_text_witness :
  RelocateSplits.split ResplitConsecutiveChars.toTheLeft
    ResplitConsecutiveChars.toTheRight
    [mkSegment ana_text 5 2; mkSegment ana_text 7 1]
  = Ok [mkSegment ana_text 5 2; mkSegment ana_text 7 1].
Proof.
  apply (RelocateSplits_split_no_text ResplitConsecutiveChars.toTheLeft
           ResplitConsecutiveChars.toTheRight
           [mkSegment ana_text 5 2; mkSegment ana_text 7 1]).
  - simpl. lia.
  - repeat (apply Forall_cons; [reflexivity|]). apply Forall_nil.
Defined.

Lemma crop_count (seg : MessageSegment) (moco : list bytes) :
  forall added,
    CropDistinct.crop seg moco = Some added ->
    (1 <= Datatypes.length added <= 3)%nat.
Proof.
  induction moco as [|comfeat moco IH]; intros added; [discriminate|].
  cbn [CropDistinct.crop].
  destruct (find (seg_bytes seg) comfeat =? -1); [apply IH|].
  destruct (length seg =? Py.len comfeat); intros [= <-]; [simpl; lia|].
  destruct (0 <? find (seg_bytes seg) comfeat);
    destruct (0 <? length seg - find (seg_bytes seg) comfeat
                   - Py.len comfeat); simpl; lia.
Qed.

(** X22: [CropDistinct.split] never drops a segment and never cuts one
    into more than three: the output has at least as many segments as the
    input and at most three times as many. *)
Theorem CropDistinct_split_count (moco : list bytes)
  (segments : list MessageSegment) :
  (Datatypes.length segments
   <= Datatypes.length (CropDistinct.split segments moco)
   <= 3 * Datatypes.length segments)%nat.
Proof.
  induction segments as [|seg segments IH]; [simpl; lia|].
  unfold CropDistinct.split. cbn [fold_left].
  rewrite CropDistinct_split_acc, length_app.
  unfold CropDistinct.split_body.
  destruct (CropDistinct.crop seg moco) as [added|] eqn:E.
  - pose proof (crop_count seg moco added E). simpl. lia.
  - simpl. lia.
Qed.

(** ** What the frequency table counts *)

Lemma occurrences_app (l1 l2 : list bytes) (k : bytes) :
  occurrences (l1 ++ l2) k = occurrences l1 k + occurrences l2 k.
Proof. unfold occurrences. rewrite count_occ_app. apply Nat2Z.inj_add. Qed.

Lemma count_boundaries_get (msgbytes : bytes) (offsets : list Z) :
  forall freq freq' k,
    Py.for_each (Resplit2LeastFrequentPair.count_boundary msgbytes) offsets freq
    = Ok freq' ->
    Counter.get freq' k
    = Counter.get freq k
      + occurrences
          (flat_map
             (fun b =>
                if inner_boundaryb msgbytes b
                then let '(across, before, after) :=
                       Resplit2LeastFrequentPair.windows msgbytes b in
                     [across; before; after]
                else [])
             offsets) k.
Proof.
  induction offsets as [|b offsets IH]; intros freq freq' k Hrun;
    cbn [Py.for_each flat_map] in *.
  - injection Hrun as <-. unfold occurrences. simpl. lia.
  - rewrite count_boundary_value in Hrun. cbn [Py.bind] in Hrun.
    rewrite (IH _ _ k Hrun), occurrences_app.
    destruct (inner_boundaryb msgbytes b).
    + destruct (Resplit2LeastFrequentPair.windows msgbytes b)
        as [[across before] after].
      rewrite Counter_get_update. lia.
    + change (occurrences [] k) with 0. lia.
Qed.

Lemma count_messages_get (corpus : list (list MessageSegment)) :
  forall freq freq' k,
    Py.for_each Resplit2LeastFrequentPair.count_message corpus freq = Ok freq' ->
    Counter.get freq' k
    = Counter.get freq k + occurrences (corpus_windows corpus) k.
Proof.
  induction corpus as [|segsList corpus IH]; intros freq freq' k Hrun;
    cbn [Py.for_each] in Hrun.
  - injection Hrun as <-. unfold occurrences. simpl. lia.
  - destruct (Resplit2LeastFrequentPair.count_message freq segsList)
      as [freq1| |] eqn:Eone; try discriminate.
    cbn [Py.bind] in Hrun.
    unfold corpus_windows. cbn [flat_map].
    rewrite occurrences_app. fold (corpus_windows corpus).
    rewrite (IH _ _ k Hrun).
    unfold Resplit2LeastFrequentPair.count_message in Eone.
    destruct segsList as [|seg0 rest]; [discriminate|].
    rewrite index_head in Eone. cbn [Py.bind] in Eone.
    rewrite (count_boundaries_get _ _ _ _ k Eone).
    unfold message_windows. rewrite flat_map_concat_map, map_map.
    rewrite <- flat_map_concat_map. lia.
Qed.

(** X23: the table [countPairFrequencies] returns maps every byte string
    to the number of times it is a window (across, before or after) at an
    inner segment boundary of the corpus; a string that is no such window
    has the count 0. *)
Theorem countPairFrequencies_counts_windows
  (allMsgsSegs : list (list MessageSegment)) (table : Counter.t) (k : bytes) :
  Resplit2LeastFrequentPair.countPairFrequencies allMsgsSegs = Ok table ->
  Counter.get table k = occurrences (corpus_windows allMsgsSegs) k.
Proof.
  unfold Resplit2LeastFrequentPair.countPairFrequencies. intros Hrun.
  now rewrite (count_messages_get _ _ _ k Hrun).
Qed.

Lemma countPairFrequencies_counts_windows_witness :
  Counter.get table_pqrs [x71; x72]
  = occurrences (corpus_windows corpus_pqrs) [x71; x72].
Proof.
  apply (countPairFrequencies_counts_windows corpus_pqrs table_pqrs).
  reflexivity.
Defined.

(** ** The two relocating passes never raise *)

Section RelocateReturns.

Variable toTheLeft : MessageSegment -> Z.
Variable toTheRight : MessageSegment -> Z.

Lemma integrate_left_returns (mangled : list MessageSegment)
  (segc : MessageSegment) :
  exists mangled' segc',
    RelocateSplits.integrate_left toTheLeft mangled segc = Ok (mangled', segc')
    /\ (Datatypes.length mangled' <= Datatypes.length mangled)%nat.
Proof.
  destruct mangled as [|segl acc _] using rev_ind; [simpl; eauto|].
  unfold RelocateSplits.integrate_left.
  destruct (snoc_is_cons acc segl) as (y & l' & E).
  rewrite E. cbv beta iota. rewrite <- E. clear E y l'.
  rewrite index_last. cbn [Py.bind].
  destruct (offset segl + length segl =? offset segc); [|eauto].
  destruct (toTheLeft segl <? length segl); [|eauto].
  destruct (0 <? toTheLeft segl).
  - rewrite set_last_app. cbn [Py.bind]. do 2 eexists.
    split; [reflexivity|]. rewrite !length_app. simpl. lia.
  - rewrite del_last_app. cbn [Py.bind]. do 2 eexists.
    split; [reflexivity|]. rewrite !length_app. simpl. lia.
Qed.

Lemma integrate_right_returns (stack : list MessageSegment)
  (segc : MessageSegment) :
  exists stack' segc',
    RelocateSplits.integrate_right toTheRight stack segc = Ok (stack', segc')
    /\ (Datatypes.length stack' <= Datatypes.length stack)%nat.
Proof.
  destruct stack as [|segr rest _] using rev_ind; [simpl; eauto|].
  unfold RelocateSplits.integrate_right.
  destruct (snoc_is_cons rest segr) as (y & l' & E).
  rewrite E. cbv beta iota. rewrite <- E. clear E y l'.
  rewrite index_last. cbn [Py.bind].
  destruct (offset segc + length segc =? offset segr); [|eauto].
  destruct (0 <? toTheRight segr); [|eauto].
  destruct (0 <? length segr - toTheRight segr).
  - rewrite set_last_app. cbn [Py.bind]. do 2 eexists.
    split; [reflexivity|]. rewrite !length_app. simpl. lia.
  - rewrite del_last_app. cbn [Py.bind]. do 2 eexists.
    split; [reflexivity|]. rewrite !length_app. simpl. lia.
Qed.

(** X24: whatever the two scans return and whatever the segments are,
    [RelocateSplits.split] raises nothing, and it never returns more
    segments than it was given. *)
Theorem RelocateSplits_split_returns (segments : list MessageSegment) :
  exists out,
    RelocateSplits.split toTheLeft toTheRight segments = Ok out /\
    (Datatypes.length out <= Datatypes.length segments)%nat.
Proof.
  unfold RelocateSplits.split.
  destruct (1 <? Py.len segments);
    [|eexists; split; [reflexivity|simpl; lia]].
  set (Inv := fun s : RelocateSplits.state =>
    (Datatypes.length (RelocateSplits.mangledSegments s)
     + Datatypes.length (RelocateSplits.segmentStack s)
     <= Datatypes.length segments)%nat).
  destruct (while_nonempty_invariant RelocateSplits.segmentStack
              (RelocateSplits.split_body toTheLeft toTheRight) Inv
              (fun s => Datatypes.length (RelocateSplits.segmentStack s)))
    with (fuel := Datatypes.length segments)
         (s := RelocateSplits.mkState (rev segments) [])
    as (s' & Hrun & Hinv & Hdone).
  - intros s Hinv Hstack. unfold Inv in *.
    destruct (RelocateSplits.segmentStack s) as [|top rest _] eqn:Hs
      using rev_ind; [contradiction|].
    rewrite length_app in Hinv. simpl in Hinv.
    unfold RelocateSplits.split_body. rewrite Hs, pop_app. cbn [Py.bind].
    destruct (negb (isPrintable (seg_bytes top))).
    + eexists. split; [reflexivity|].
      cbn [RelocateSplits.mangledSegments RelocateSplits.segmentStack].
      rewrite !length_app. simpl. lia.
    + destruct (integrate_left_returns (RelocateSplits.mangledSegments s) top)
        as (mangled' & segc' & Hleft & Hl).
      rewrite Hleft. cbn [Py.bind].
      destruct (integrate_right_returns rest segc')
        as (stack' & segc2 & Hright & Hr).
      rewrite Hright. cbn [Py.bind].
      eexists. split; [reflexivity|].
      cbn [RelocateSplits.mangledSegments RelocateSplits.segmentStack].
      rewrite !length_app. simpl. lia.
  - unfold Inv.
    cbn [RelocateSplits.mangledSegments RelocateSplits.segmentStack].
    rewrite length_rev. simpl. lia.
  - cbn [RelocateSplits.segmentStack]. rewrite length_rev. lia.
  - rewrite Hrun. cbn [Py.bind]. eexists. split; [reflexivity|].
    unfold Inv in Hinv. lia.
Qed.

End RelocateReturns.

(** X25: with a built table [Resplit2LeastFrequentPair.split] raises
    only on the empty sequence (IndexError, from [segments[0]]); on every
    other sequence it returns at least one segment and never more than it
    was given. *)
Theorem Resplit2_split_returns (table : Counter.t)
  (segments : list MessageSegment) :
  match segments with
  | [] => Resplit2LeastFrequentPair.split (Some table) segments
          = Raise IndexError
  | _ :: _ =>
      exists out,
        Resplit2LeastFrequentPair.split (Some table) segments = Ok out /\
        (1 <= Datatypes.length out <= Datatypes.length segments)%nat
  end.
Proof.
  destruct segments as [|seg0 rest]; [reflexivity|].
  unfold Resplit2LeastFrequentPair.split.
  rewrite index_head, slice_from_1. cbn [Py.bind tl].
  destruct (1 <? Py.len (seg0 :: rest));
    [|eexists; split; [reflexivity|simpl; lia]].
  set (Inv := fun s : Resplit2LeastFrequentPair.state =>
    Resplit2LeastFrequentPair.mangledSegments s <> [] /\
    (Datatypes.length (Resplit2LeastFrequentPair.mangledSegments s)
     + Datatypes.length (Resplit2LeastFrequentPair.segmentStack s)
     <= Datatypes.length (seg0 :: rest))%nat).
  destruct (while_nonempty_invariant Resplit2LeastFrequentPair.segmentStack
              (Resplit2LeastFrequentPair.split_body (Some table)) Inv
              (fun s => Datatypes.length
                          (Resplit2LeastFrequentPair.segmentStack s)))
    with (fuel := Datatypes.length (seg0 :: rest))
         (s := Resplit2LeastFrequentPair.mkState (rev rest) [seg0])
    as (s' & Hrun & [Hne Hinv] & Hdone).
  - intros s [Hne Hinv] Hstack.
    destruct (Resplit2LeastFrequentPair.segmentStack s) as [|segc stack _]
      eqn:Hs using rev_ind; [contradiction|].
    destruct (Resplit2LeastFrequentPair.mangledSegments s) as [|segl acc _]
      eqn:Hm using rev_ind; [contradiction|].
    rewrite !length_app in Hinv. simpl in Hinv.
    unfold Resplit2LeastFrequentPair.split_body.
    rewrite Hs, Hm, pop_app. cbn [Py.bind]. rewrite index_last.
    cbn [Py.bind].
    assert (Hkeep : exists s2,
               Ok (Resplit2LeastFrequentPair.mkState stack
                     ((acc ++ [segl]) ++ [segc])) = Ok s2 /\
               Inv s2 /\
               (Datatypes.length (Resplit2LeastFrequentPair.segmentStack s2)
                < Datatypes.length (stack ++ [segc]))%nat).
    { eexists. split; [reflexivity|]. unfold Inv.
      cbn [Resplit2LeastFrequentPair.mangledSegments
           Resplit2LeastFrequentPair.segmentStack].
      rewrite !length_app. simpl.
      split; [split; [apply snoc_not_nil|lia]|lia]. }
    destruct (offset segl + length segl =? offset segc); [|exact Hkeep].
    destruct (lookupLeastFrequent_total table segc) as (shift & Hshift & _).
    rewrite Hshift. cbn [Py.bind].
    destruct ((shift <? 0) && (- length segl <=? shift)
              || (0 <? shift) && (shift <=? length segc)); [|exact Hkeep].
    destruct (negb (length segl =? - shift)).
    + rewrite set_last_app.
      cbn [Py.bind]. eexists. split; [reflexivity|]. unfold Inv.
      cbn [Resplit2LeastFrequentPair.mangledSegments
           Resplit2LeastFrequentPair.segmentStack].
      rewrite !length_app. simpl.
      split; [split; [apply snoc_not_nil|lia]|lia].
    + rewrite del_last_app. cbn [Py.bind].
      eexists. split; [reflexivity|]. unfold Inv.
      cbn [Resplit2LeastFrequentPair.mangledSegments
           Resplit2LeastFrequentPair.segmentStack].
      rewrite !length_app. simpl.
      split; [split; [apply snoc_not_nil|lia]|lia].
  - unfold Inv.
    cbn [Resplit2LeastFrequentPair.mangledSegments
         Resplit2LeastFrequentPair.segmentStack].
    rewrite length_rev. simpl. split; [discriminate|lia].
  - cbn [Resplit2LeastFrequentPair.segmentStack]. rewrite length_rev.
    simpl. lia.
  - rewrite Hrun. cbn [Py.bind]. eexists. split; [reflexivity|].
    destruct (Resplit2LeastFrequentPair.mangledSegments s'); [contradiction|].
    simpl in *. lia.
Qed.

(** ** The errors of the fixed-length split *)

Lemma index_cases {A : Type} (l : list A) (i : Z) :
  (- Py.len l <= i < Py.len l -> exists x, Py.index l i = Ok x) /\
  (i < - Py.len l \/ Py.len l <= i -> Py.index l i = Raise IndexError).
Proof.
  unfold Py.index, Py.len.
  set (j := if i <? 0 then i + Z.of_nat (Datatypes.length l) else i).
  assert (Hj : j = if i <? 0 then i + Z.of_nat (Datatypes.length l) else i)
    by reflexivity.
  clearbody j. split; intros Hi.
  - assert (0 <= j < Z.of_nat (Datatypes.length l))
      by (destruct (i <? 0) eqn:E;
          [apply Z.ltb_lt in E|apply Z.ltb_ge in E]; lia).
    destruct (j <? 0) eqn:E; [apply Z.ltb_lt in E; lia|].
    destruct (nth_error l (Z.to_nat j)) eqn:En; [eauto|].
    apply nth_error_None in En. lia.
  - destruct (j <? 0) eqn:E; [reflexivity|]. apply Z.ltb_ge in E.
    assert (Z.of_nat (Datatypes.length l) <= j)
      by (destruct (i <? 0) eqn:E';
          [apply Z.ltb_lt in E'|apply Z.ltb_ge in E']; lia).
    destruct (nth_error l (Z.to_nat j)) eqn:En; [|reflexivity].
    assert (nth_error l (Z.to_nat j) <> None) by congruence.
    apply nth_error_Some in H0. lia.
Qed.

(** X26: [SplitFixed.split] raises IndexError exactly when the index is
    outside the sequence (counting negative indices from the end), and
    ValueError exactly when the index is inside, the chunk length is 0 and
    the selected segment is not empty (the step of [range] is then 0); it
    raises nothing else. *)
Theorem SplitFixed_split_raises (segments : list MessageSegment)
  (segmentID chunkLength : Z) :
  (SplitFixed.split segments segmentID chunkLength = Raise IndexError <->
   segmentID < - Py.len segments \/ Py.len segments <= segmentID) /\
  (SplitFixed.split segments segmentID chunkLength = Raise ValueError <->
   exists selSeg,
     Py.index segments segmentID = Ok selSeg /\
     chunkLength = 0 /\ 0 < length selSeg) /\
  (forall e,
      SplitFixed.split segments segmentID chunkLength = Raise e ->
      e = IndexError \/ e = ValueError).
Proof.
  destruct (index_cases segments segmentID) as [Hin Hout].
  unfold SplitFixed.split.
  destruct (Z_lt_dec segmentID (- Py.len segments)) as [Hlo|Hlo];
    [|destruct (Z_le_dec (Py.len segments) segmentID) as [Hhi|Hhi]].
  1, 2: rewrite Hout by lia; cbn [Py.bind]; split_all;
    try discriminate; try lia;
    match goal with
    | H : exists _, _ |- _ => destruct H as (? & ? & _); discriminate
    | H : Raise _ = Raise _ |- _ => injection H as <-; now left
    end.
  destruct (Hin ltac:(lia)) as (selSeg & Hsel). rewrite Hsel. cbn [Py.bind].
  destruct (chunkLength <? length selSeg) eqn:Ec.
  - apply Z.ltb_lt in Ec. unfold Py.range.
    destruct (chunkLength =? 0) eqn:E0; cbn [Py.bind].
    + apply Z.eqb_eq in E0. split; [|split].
      * split; [discriminate|lia].
      * split; [intros _; exists selSeg; split_all|reflexivity].
      * intros e [= <-]. now right.
    + apply Z.eqb_neq in E0. split; [|split].
      * split; [discriminate|lia].
      * split; [discriminate|].
        intros (s & [= <-] & Hc & _). contradiction.
      * discriminate.
  - apply Z.ltb_ge in Ec. split; [|split].
    + split; [discriminate|lia].
    + split; [discriminate|].
      intros (s & [= <-] & Hc & Hpos). lia.
    + discriminate.
Qed.
